(** * simple_shell: tokenizer, parser, job table and pipeline executor

    A shallow embedding of [src/simple_shell.py].

    - Python [str] values are modelled as [string]; a character is a code
      point below 256 and [isspace] follows [str.isspace] on that range.
    - Python [int] values (process identifiers, job identifiers, exit codes,
      wait statuses) are modelled as [Z].
    - A command dictionary is the record [command]; the job dictionary
      [_jobs] is an insertion-ordered association list.
    - The operating system (file opening, process creation, waiting) is an
      oracle answering each call from the history of calls made so far; every
      call the shell makes is recorded in a trace of events. *)

From Stdlib Require Import String Ascii List ZArith Bool Arith Sorted Lia.
Import ListNotations.

Local Open Scope string_scope.
Local Open Scope list_scope.

(** ** Tokenizer *)

Module Tokenizer.

(** [ch.isspace()] for a character below 256: the ASCII controls TAB..CR,
    the separators FS..US, the space, NEL (0x85) and NBSP (0xA0). *)
Definition isspace (ch : ascii) : bool :=
  let n := nat_of_ascii ch in
  (Nat.leb 9 n && Nat.leb n 13) || (Nat.leb 28 n && Nat.leb n 31)
  || Nat.eqb n 32 || Nat.eqb n 133 || Nat.eqb n 160.

Definition pipe_char : ascii := "|"%char.
Definition lt_char : ascii := "<"%char.
Definition gt_char : ascii := ">"%char.
Definition amp_char : ascii := "&"%char.
Definition dquote : ascii := "034"%char.
Definition squote : ascii := "'"%char.

(** [ch in ['|', '<', '>', '&']] *)
Definition is_special (ch : ascii) : bool :=
  Ascii.eqb ch pipe_char || Ascii.eqb ch lt_char
  || Ascii.eqb ch gt_char || Ascii.eqb ch amp_char.

(** [ch] is one of the two quote characters (double, single). *)
Definition is_quote (ch : ascii) : bool :=
  Ascii.eqb ch dquote || Ascii.eqb ch squote.

(** [i + 1 < L and line[i+1] == '>'], on the text after position [i]. *)
Definition next_is_gt (rest : string) : bool :=
  match rest with
  | String c _ => Ascii.eqb c gt_char
  | EmptyString => false
  end.

Definition skip1 (s : string) : string :=
  match s with
  | String _ r => r
  | EmptyString => EmptyString
  end.

(** The inner loop of the quoted branch, started after the opening quote:
    characters are buffered until [quote] or the end of the line; a closing
    quote, when there is one, is skipped.  Returns the buffer and the text
    left to scan. *)
Fixpoint scan_quoted (quote : ascii) (s : string) : string * string :=
  match s with
  | EmptyString => (EmptyString, EmptyString)
  | String c rest =>
      if Ascii.eqb c quote then (EmptyString, rest)
      else let (buf, r) := scan_quoted quote rest in (String c buf, r)
  end.

(** The inner loop of the normal-token branch: characters are buffered until
    a space, a special character, a quote or the end of the line, which is
    left unread. *)
Fixpoint scan_word (s : string) : string * string :=
  match s with
  | EmptyString => (EmptyString, EmptyString)
  | String c rest =>
      if isspace c || is_special c || is_quote c then (EmptyString, s)
      else let (buf, r) := scan_word rest in (String c buf, r)
  end.

(** The [while i < L] loop of [tokenize]; [line] is the text from position
    [i] on and [tokens] the list built so far.  Every iteration reads at
    least one character, so [fuel] bounds the number of iterations. *)
Fixpoint tokenize_loop (fuel : nat) (line : string) (tokens : list string)
  : list string :=
  match fuel with
  | O => tokens
  | S fuel' =>
      match line with
      | EmptyString => tokens
      | String ch rest =>
          if isspace ch then tokenize_loop fuel' rest tokens
          else if Ascii.eqb ch gt_char && next_is_gt rest then
            tokenize_loop fuel' (skip1 rest) (tokens ++ [">>"])
          else if is_special ch then
            tokenize_loop fuel' rest (tokens ++ [String ch EmptyString])
          else if is_quote ch then
            let (buf, rest') := scan_quoted ch rest in
            tokenize_loop fuel' rest' (tokens ++ [buf])
          else
            let (buf, rest') := scan_word line in
            tokenize_loop fuel' rest' (tokens ++ [buf])
      end
  end.

(** The loop resumed on [line] with enough fuel to reach the end of it. *)
Definition tokenize_from (line : string) (tokens : list string) : list string :=
  tokenize_loop (String.length line) line tokens.

Definition tokenize (line : string) : list string :=
  tokenize_from line [].

(** [c in s] *)
Fixpoint has_char (c : ascii) (s : string) : bool :=
  match s with
  | EmptyString => false
  | String c' s' => Ascii.eqb c' c || has_char c s'
  end.

(** The line [a "b c" d], the quotes being double quotes. *)
Definition sample_line : string :=
  String.append "a " (String dquote (String.append "b c" (String dquote " d"))).

(** *** Vocabulary of the tokenizer's properties *)

(** Every character of [s] passes the test [ok]. *)
Fixpoint all_chars (ok : ascii -> bool) (s : string) : bool :=
  match s with
  | EmptyString => true
  | String c s' => ok c && all_chars ok s'
  end.

(** A character that ends no bareword: not a space, not an operator
    character, not a quote. *)
Definition plain (c : ascii) : bool :=
  negb (isspace c || is_special c || is_quote c).

(** A line without any quote character. *)
Definition quote_free (s : string) : bool :=
  all_chars (fun c => negb (is_quote c)) s.

(** A bareword: at least one character, all of them plain. *)
Definition bareword (t : string) : bool :=
  match t with
  | EmptyString => false
  | String _ _ => all_chars plain t
  end.

(** One of the five operator tokens. *)
Definition operator_token (t : string) : bool :=
  String.eqb t "|" || String.eqb t "<" || String.eqb t ">"
  || String.eqb t ">>" || String.eqb t "&".

End Tokenizer.

(** ** Parser *)

Module Parser.

(** A command dictionary: keys [argv], [in], [out], [append], [bg]. *)
Record command := mkCommand {
  argv : list string;
  in_ : option string;
  out : option string;
  append : bool;
  bg : bool
}.

Definition fresh_command : command :=
  {| argv := []; in_ := None; out := None; append := false; bg := false |}.

Definition set_in (p : string) (c : command) : command :=
  {| argv := argv c; in_ := Some p; out := out c; append := append c; bg := bg c |}.

Definition set_out (p : string) (a : bool) (c : command) : command :=
  {| argv := argv c; in_ := in_ c; out := Some p; append := a; bg := bg c |}.

Definition set_bg (c : command) : command :=
  {| argv := argv c; in_ := in_ c; out := out c; append := append c; bg := true |}.

Definition push_arg (t : string) (c : command) : command :=
  {| argv := argv c ++ [t]; in_ := in_ c; out := out c; append := append c; bg := bg c |}.

(** Truth value of a [str]-or-[None] entry: [None] and the empty string are
    false. *)
Definition truthy (o : option string) : bool :=
  match o with
  | Some s => negb (s =? EmptyString)
  | None => false
  end.

(** Truth value of a list: only the empty list is false. *)
Definition nonempty {A} (l : list A) : bool :=
  match l with
  | [] => false
  | _ :: _ => true
  end.

(** The test [cur[argv] or cur[in] or cur[out] or cur[bg]] that guards the
    final append. *)
Definition keep (cur : command) : bool :=
  nonempty (argv cur) || truthy (in_ cur) || truthy (out cur) || bg cur.

(** The [while i < L] loop of [parse_tokens]; [tokens] is the list from
    position [i] on.  After a redirection operator in last position,
    [i += 2] leaves the loop. *)
Fixpoint parse_loop (tokens : list string) (cmds : list command) (cur : command)
  : list command * command :=
  match tokens with
  | [] => (cmds, cur)
  | t :: rest =>
      if t =? "|" then parse_loop rest (cmds ++ [cur]) fresh_command
      else if t =? "<" then
        match rest with
        | [] => (cmds, cur)
        | p :: rest' => parse_loop rest' cmds (set_in p cur)
        end
      else if t =? ">" then
        match rest with
        | [] => (cmds, cur)
        | p :: rest' => parse_loop rest' cmds (set_out p false cur)
        end
      else if t =? ">>" then
        match rest with
        | [] => (cmds, cur)
        | p :: rest' => parse_loop rest' cmds (set_out p true cur)
        end
      else if t =? "&" then parse_loop rest cmds (set_bg cur)
      else parse_loop rest cmds (push_arg t cur)
  end.

Definition parse_tokens (tokens : list string) : list command :=
  let (cmds, cur) := parse_loop tokens [] fresh_command in
  if keep cur then cmds ++ [cur] else cmds.

Definition parse_line (line : string) : list command :=
  parse_tokens (Tokenizer.tokenize line).


(** *** Well-formed input of the parser

    The lexical units of one stage as the parser reads them: a word, or an
    operator together with the token it consumes. *)
Inductive item :=
| Word (w : string)
| RedirIn (p : string)
| RedirOut (app : bool) (p : string)
| Amp.

(** The five tokens [parse_tokens] reads as operators. *)
Definition is_operator (t : string) : bool :=
  (t =? "|") || (t =? "<") || (t =? ">") || (t =? ">>") || (t =? "&").

(** A word is any token that is not an operator; the token after a
    redirection operator can be any string. *)
Definition item_ok (it : item) : Prop :=
  match it with
  | Word w => is_operator w = false
  | _ => True
  end.

Definition item_tokens (it : item) : list string :=
  match it with
  | Word w => [w]
  | RedirIn p => ["<"; p]
  | RedirOut app p => [if app then ">>" else ">"; p]
  | Amp => ["&"]
  end.

Definition stage_tokens (items : list item) : list string :=
  flat_map item_tokens items.

(** The tokens of a pipeline: the stages separated by pipe tokens. *)
Fixpoint pipeline_tokens (first : list item) (others : list (list item))
  : list string :=
  match others with
  | [] => stage_tokens first
  | next :: others' => stage_tokens first ++ "|" :: pipeline_tokens next others'
  end.

(** What each item does to the accumulator. *)
Definition apply_item (cur : command) (it : item) : command :=
  match it with
  | Word w => push_arg w cur
  | RedirIn p => set_in p cur
  | RedirOut app p => set_out p app cur
  | Amp => set_bg cur
  end.

(** The descriptor a stage stands for. *)
Definition command_of (items : list item) : command :=
  fold_left apply_item items fresh_command.

(** The words of a stage, in order. *)
Definition words (items : list item) : list string :=
  flat_map (fun it => match it with Word w => [w] | _ => [] end) items.

(** The last output redirection of a stage: its append flag and path. *)
Definition last_out (items : list item) : option (bool * string) :=
  fold_left (fun acc it => match it with
                           | RedirOut app p => Some (app, p)
                           | _ => acc
                           end) items None.

(** The last input redirection of a stage. *)
Definition last_in (items : list item) : option string :=
  fold_left (fun acc it => match it with
                           | RedirIn p => Some p
                           | _ => acc
                           end) items None.

(** Whether a stage holds a background operator. *)
Definition has_amp (items : list item) : bool :=
  existsb (fun it => match it with Amp => true | _ => false end) items.

(** The output path of a descriptor with its append flag. *)
Definition out_pair (c : command) : option (bool * string) :=
  match out c with
  | Some p => Some (append c, p)
  | None => None
  end.


(** The number of pipe tokens of a token sequence. *)
Definition count_pipes (tokens : list string) : nat :=
  length (filter (fun t => t =? "|") tokens).

(** Every word of [argv c] is a token of [tokens] that is not an operator,
    and the redirection paths of [c] are tokens of [tokens]. *)
Definition from_tokens (tokens : list string) (c : command) : Prop :=
  Forall (fun w => In w tokens /\ is_operator w = false) (argv c)
  /\ (forall p, in_ c = Some p -> In p tokens)
  /\ (forall p, out c = Some p -> In p tokens).

(** The three redirection operators. *)
Definition is_redirection (t : string) : bool :=
  (t =? "<") || (t =? ">") || (t =? ">>").

(** Any token sequence read the way the loop of [parse_tokens] consumes
    it, branch for branch: the items of the first stage, the stages that
    follow a pipe token, and the redirection operator left in last position
    with no token after it, if there is one. *)
Fixpoint read_stages (tokens : list string)
  : list item * list (list item) * list string :=
  match tokens with
  | [] => ([], [], [])
  | t :: rest =>
      if t =? "|" then
        let '(first, others, dangling) := read_stages rest in
        ([], first :: others, dangling)
      else if t =? "<" then
        match rest with
        | [] => ([], [], [t])
        | p :: rest' =>
            let '(first, others, dangling) := read_stages rest' in
            (RedirIn p :: first, others, dangling)
        end
      else if t =? ">" then
        match rest with
        | [] => ([], [], [t])
        | p :: rest' =>
            let '(first, others, dangling) := read_stages rest' in
            (RedirOut false p :: first, others, dangling)
        end
      else if t =? ">>" then
        match rest with
        | [] => ([], [], [t])
        | p :: rest' =>
            let '(first, others, dangling) := read_stages rest' in
            (RedirOut true p :: first, others, dangling)
        end
      else if t =? "&" then
        let '(first, others, dangling) := read_stages rest in
        (Amp :: first, others, dangling)
      else
        let '(first, others, dangling) := read_stages rest in
        (Word t :: first, others, dangling)
  end.

(** The stages of a token sequence, in order; there is always one. *)
Definition stages_of (tokens : list string) : list (list item) :=
  let '(first, others, _) := read_stages tokens in first :: others.

(** The redirection operator left over in last position, if any. *)
Definition dangling_of (tokens : list string) : list string :=
  snd (read_stages tokens).

(** The stages closed by a pipe token: all but the last. *)
Definition closed_stages (tokens : list string) : list (list item) :=
  removelast (stages_of tokens).

(** The stage the end of the tokens leaves in the accumulator. *)
Definition open_stage (tokens : list string) : list item :=
  last (stages_of tokens) [].

(** The tokens of a list of stages, separated by pipe tokens. *)
Definition stages_tokens (stages : list (list item)) : list string :=
  match stages with
  | [] => []
  | first :: others => pipeline_tokens first others
  end.

(** Nothing or one redirection operator. *)
Definition dangling_ok (d : list string) : Prop :=
  d = [] \/ exists op, is_redirection op = true /\ d = [op].

End Parser.

(** ** Job table and child notifier *)

Module Jobs.

Local Open Scope Z_scope.

(** The status strings: [running], [stopped], [done (code)] as written by
    [_update_job_status], and the bare [done] written by [fg]. *)
Inductive job_status :=
| Running
| Stopped
| DoneWith (exitcode : Z)
| Done.

(** An entry of [_jobs]: keys [pids], [cmdline], [status]. *)
Record job := mkJob {
  pids : list Z;
  cmdline : string;
  status : job_status
}.

(** What the shell prints, one constructor per [print] call of the job and
    execution code; the text is given with each constructor. *)
Inductive message :=
| CommandNotFound (prog : string)
    (* prog: command not found *)
| FailedToExecute (args : list string) (e : string)
    (* failed to execute args: e *)
| RedirectionErrorInput (e : string)
    (* redirection error (input): e *)
| RedirectionErrorOutput (e : string)
    (* redirection error (output): e *)
| JobStarted (jid pid : Z)
    (* [job jid] pid *)
| JobExited (jid pid : Z) (exitcode : option Z)
    (* [job jid] process pid exited with exitcode *)
| Prompt
    (* the prompt marker, written without a newline *)
| FgNotFound (jid : Z)
    (* fg: job jid not found *)
| FgBringing (jid : Z) (cmd : string)
    (* Bringing job jid to foreground: cmd *).

(** The module-level state: the dictionary [_jobs] in insertion order, the
    counter [_next_job_id] and everything printed so far. *)
Record job_table := mkTable {
  _jobs : list (Z * job);
  _next_job_id : Z;
  printed : list message
}.

(** The state at interpreter start. *)
Definition initial_table : job_table :=
  {| _jobs := []; _next_job_id := 1; printed := [] |}.

(** [d[k] = v] on an insertion-ordered dictionary: an existing key keeps its
    position, a new key goes last. *)
Fixpoint dict_set {V} (k : Z) (v : V) (d : list (Z * V)) : list (Z * V) :=
  match d with
  | [] => [(k, v)]
  | (k', v') :: d' =>
      if k' =? k then (k, v) :: d' else (k', v') :: dict_set k v d'
  end.

(** [d.get(k)] *)
Fixpoint dict_get {V} (k : Z) (d : list (Z * V)) : option V :=
  match d with
  | [] => None
  | (k', v) :: d' => if k' =? k then Some v else dict_get k d'
  end.

Definition print (m : message) (t : job_table) : job_table :=
  {| _jobs := _jobs t; _next_job_id := _next_job_id t;
     printed := printed t ++ [m] |}.

Definition _register_job (pids : list Z) (cmdline : string)
    (status : job_status) (t : job_table) : Z * job_table :=
  let jid := _next_job_id t in
  (jid,
   {| _jobs := dict_set jid (mkJob pids cmdline status) (_jobs t);
      _next_job_id := jid + 1;
      printed := printed t |}).

(** [pid in info.get(pids, [])] *)
Definition pid_in (pid : Z) (l : list Z) : bool :=
  existsb (Z.eqb pid) l.

(** The status [_update_job_status] writes: [done (exitcode)] when an exit
    code is given, [stopped] otherwise. *)
Definition status_of_exitcode (exitcode : option Z) : job_status :=
  match exitcode with
  | Some c => DoneWith c
  | None => Stopped
  end.

(** The [for jid, info in _jobs.items()] scan: the first job owning [pid]
    gets the new status, and the scan returns its identifier. *)
Fixpoint update_scan (pid : Z) (exitcode : option Z) (d : list (Z * job))
  : option Z * list (Z * job) :=
  match d with
  | [] => (None, [])
  | (jid, info) :: d' =>
      if pid_in pid (pids info) then
        (Some jid,
         (jid, mkJob (pids info) (cmdline info) (status_of_exitcode exitcode)) :: d')
      else
        let (r, d'') := update_scan pid exitcode d' in (r, (jid, info) :: d'')
  end.

Definition _update_job_status (pid : Z) (exitcode : option Z) (t : job_table)
  : option Z * job_table :=
  let (r, d) := update_scan pid exitcode (_jobs t) in
  (r, {| _jobs := d; _next_job_id := _next_job_id t; printed := printed t |}).

(** [os.WIFEXITED(status)]: the low seven bits of the wait status are 0. *)
Definition WIFEXITED (status : Z) : bool := Z.land status 127 =? 0.

(** [os.WEXITSTATUS(status)]: bits 8 to 15 of the wait status. *)
Definition WEXITSTATUS (status : Z) : Z := Z.land (Z.shiftr status 8) 255.

(** The body of the reaping loop for one [(pid, status)] pair returned by
    [os.waitpid(-1, os.WNOHANG)] with a non-zero [pid]. *)
Definition reap_one (child : Z * Z) (t : job_table) : job_table :=
  let (pid, wstatus) := child in
  let exitcode := if WIFEXITED wstatus then Some (WEXITSTATUS wstatus) else None in
  let (jid, t1) := _update_job_status pid exitcode t in
  let t2 :=
    match jid with
    | Some j => if j =? 0 then t1 else print (JobExited j pid exitcode) t1
    | None => t1
    end in
  print Prompt t2.

(** [_sigchld_handler]: [reaped] is the sequence of pairs [os.waitpid]
    returns in one invocation before it answers pid 0 or raises
    [ChildProcessError]. *)
Definition _sigchld_handler (reaped : list (Z * Z)) (t : job_table) : job_table :=
  fold_left (fun t child => reap_one child t) reaped t.

(** [os.waitpid(pid, 0)] returns the wait status, raises an exception that
    [except Exception] catches ([ChildProcessError] when the child has been
    reaped already), or is cut short by [KeyboardInterrupt], which
    [except Exception] does not catch. *)
Inductive waitpid_result :=
| Waited (wstatus : Z)
| WaitError (e : string)
| WaitCut.

(** One blocking [os.waitpid(pid, 0)]: the [SIGCHLD] notifications handled
    while the call blocks, each with the children its handler reaps, then
    the way the call ends. *)
Record wait_answer := mkAnswer {
  during : list (list (Z * Z));
  ending : waitpid_result
}.

(** The operating system seen from [fg]: the answer to a call may depend
    on the calls made before. *)
Definition waitpid_oracle := list (Z * wait_answer) -> Z -> wait_answer.

(** The handlers that run while one call blocks. *)
Definition handle_all (signals : list (list (Z * Z))) (t : job_table) : job_table :=
  fold_left (fun t reaped => _sigchld_handler reaped t) signals t.

(** [for pid in pids: try: os.waitpid(pid, 0) except Exception: pass]:
    [made] is the list of calls made so far.  The loop runs to its end
    ([true]) unless a call is cut by [KeyboardInterrupt] ([false]), which
    leaves the loop and the function at once. *)
Fixpoint fg_wait_loop (waitpid : waitpid_oracle) (pids : list Z)
    (made : list (Z * wait_answer)) (t : job_table)
  : bool * list (Z * wait_answer) * job_table :=
  match pids with
  | [] => (true, made, t)
  | pid :: rest =>
      let a := waitpid made pid in
      let t1 := handle_all (during a) t in
      match ending a with
      | WaitCut => (false, made ++ [(pid, a)], t1)
      | Waited _ | WaitError _ => fg_wait_loop waitpid rest (made ++ [(pid, a)]) t1
      end
  end.

(** How a call of [_builtin_fg] ends: whether it returned ([True], its only
    return value) or was left by [KeyboardInterrupt], the [os.waitpid] calls
    it made, and the table it leaves. *)
Record fg_report := mkReport {
  fg_returned : bool;
  fg_calls : list (Z * wait_answer);
  fg_table : job_table
}.

(** [_builtin_fg] from the job lookup on, for a command whose second word
    parsed as the integer [jid]: an unknown job is reported; the processes
    of a known one are waited for in the order of its [pids], and its status
    is then forced to [done].  [job] aliases the entry of [_jobs]: the
    handlers that run during the waits write their status to the same
    object and leave its [pids] and [cmdline] alone, so the final assignment
    is the update of the entry [jid] of the table as the waits left it.  A
    [KeyboardInterrupt] during a wait leaves the function before that
    assignment. *)
Definition _builtin_fg (waitpid : waitpid_oracle) (jid : Z) (t : job_table)
  : fg_report :=
  match dict_get jid (_jobs t) with
  | None =>
      {| fg_returned := true; fg_calls := [];
         fg_table := print (FgNotFound jid) t |}
  | Some job =>
      let t1 := print (FgBringing jid (cmdline job)) t in
      match fg_wait_loop waitpid (pids job) [] t1 with
      | (true, made, t2) =>
          {| fg_returned := true; fg_calls := made;
             fg_table :=
               {| _jobs := dict_set jid (mkJob (pids job) (cmdline job) Done)
                             (_jobs t2);
                  _next_job_id := _next_job_id t2;
                  printed := printed t2 |} |}
      | (false, made, t2) =>
          {| fg_returned := false; fg_calls := made; fg_table := t2 |}
      end
  end.

(** An operating system in which every [os.waitpid] of [fg] returns at once
    with wait status 0. *)
Definition waitpid_at_once : waitpid_oracle :=
  fun _ _ => {| during := []; ending := Waited 0 |}.

(** One mutation of the job table during the interpreter's life. *)
Inductive action :=
| Register (pids : list Z) (cmdline : string)
| Sigchld (reaped : list (Z * Z))
| Fg (jid : Z) (waitpid : waitpid_oracle).

(** Runs one action; a registration is made the way [run_pipeline] makes
    it, with the default status [running], and yields the identifier
    issued. *)
Definition step (a : action) (t : job_table) : option Z * job_table :=
  match a with
  | Register ps c => let (jid, t') := _register_job ps c Running t in (Some jid, t')
  | Sigchld reaped => (None, _sigchld_handler reaped t)
  | Fg jid waitpid => (None, fg_table (_builtin_fg waitpid jid t))
  end.

(** Runs a sequence of actions, collecting the identifiers issued in
    order. *)
Fixpoint run (acts : list action) (t : job_table) : list Z * job_table :=
  match acts with
  | [] => ([], t)
  | a :: acts' =>
      let (r, t1) := step a t in
      let (ids, t2) := run acts' t1 in
      (match r with Some jid => jid :: ids | None => ids end, t2)
  end.

Definition status_of (jid : Z) (t : job_table) : option job_status :=
  option_map status (dict_get jid (_jobs t)).

(** The table is well formed when every identifier in use is below the
    counter. *)
Definition fresh_counter (t : job_table) : Prop :=
  forall jid, dict_get jid (_jobs t) <> None -> jid < _next_job_id t.

(** The job [jid] exists and has left [running]. *)
Definition settled (jid : Z) (t : job_table) : Prop :=
  exists job, dict_get jid (_jobs t) = Some job /\ status job <> Running.

(** A pipeline of two processes 10 and 11 put in the background; 11 exits
    with code 0 (wait status 0), then 10 is killed by signal 13 (wait
    status 13). *)
Definition two_reaps : list action :=
  [Register [10; 11] "yes | head"; Sigchld [(11, 0)]].

Definition three_reaps : list action :=
  two_reaps ++ [Sigchld [(10, 13)]].

(** Position of a status along running, stopped, done. *)
Definition rank (s : job_status) : Z :=
  match s with
  | Running => 0
  | Stopped => 1
  | DoneWith _ => 2
  | Done => 2
  end.

(** The keys of the table, and the process set and command line of every
    job, are the same after a notification or [fg]. *)
Definition same_jobs (t t' : job_table) : Prop :=
  map fst (_jobs t') = map fst (_jobs t)
  /\ forall jid job,
       dict_get jid (_jobs t) = Some job ->
       exists job',
         dict_get jid (_jobs t') = Some job'
         /\ pids job' = pids job /\ cmdline job' = cmdline job.

(** Some job of the table owns the process [pid]. *)
Definition owned (pid : Z) (t : job_table) : bool :=
  existsb (fun entry => pid_in pid (pids (snd entry))) (_jobs t).

(** The calls [made] were made to [waitpid] one after the other, each
    answered from the calls before it. *)
Definition answered (waitpid : waitpid_oracle) (made : list (Z * wait_answer)) : Prop :=
  forall i c, nth_error made i = Some c -> snd c = waitpid (firstn i made) (fst c).

(** The [SIGCHLD] notifications handled during the calls [made], in
    order. *)
Definition signals_of (made : list (Z * wait_answer)) : list (list (Z * Z)) :=
  concat (map (fun c => during (snd c)) made).

(** The call was cut short by [KeyboardInterrupt]. *)
Definition cut (c : Z * wait_answer) : bool :=
  match ending (snd c) with
  | WaitCut => true
  | _ => false
  end.

(** No call of [made] was cut short. *)
Definition uncut (made : list (Z * wait_answer)) : bool :=
  forallb (fun c => negb (cut c)) made.

(** An operating system in which the first [os.waitpid] of [fg] returns
    after a notification for the child 11, exited with code 0, has been
    handled, and the second is cut short by [KeyboardInterrupt]. *)
Definition waitpid_cut_second : waitpid_oracle :=
  fun made _ =>
    match made with
    | [] => {| during := [[(11, 0)]]; ending := Waited 0 |}
    | _ => {| during := []; ending := WaitCut |}
    end.

End Jobs.

(** ** Pipeline executor *)

Module Executor.

Import Parser Jobs.

(** The modes [rb], [wb] and [ab] given to [open]. *)
Inductive mode := ReadBinary | WriteBinary | AppendBinary.

(** [open] returns a file object or raises. *)
Inductive open_result := Opened (fd : Z) | OpenFailed (e : string).

(** A [stdin=] or [stdout=] argument of [subprocess.Popen]: [None], a file
    object, the read end of the pipe of an earlier process, or
    [subprocess.PIPE]. *)
Inductive stream := Inherit | FromFile (fd : Z) | FromPipe (pid : Z) | NewPipe.

(** [subprocess.Popen] returns a process or raises [FileNotFoundError] or
    another exception. *)
Inductive popen_result := Launched (pid : Z) | FileNotFound | OtherError (e : string).

(** [Popen.wait] returns the exit code or is cut short by
    [KeyboardInterrupt]. *)
Inductive wait_result := Exited (rc : Z) | Interrupted.

(** The calls the executor makes, in the order it makes them. *)
Inductive event :=
| EOpen (path : string) (m : mode) (r : open_result)
| EPopen (idx : nat) (args : list string) (stdin stdout : stream) (r : popen_result)
| EClosePipe (pid : Z)
| EKill (pid : Z)
| EWait (pid : Z) (r : wait_result)
| ECloseFile (fd : Z).

(** The operating system: each answer may depend on every call made
    before. *)
Record OS := mkOS {
  os_open : list event -> string -> mode -> open_result;
  os_popen : list event -> list string -> stream -> stream -> popen_result;
  os_wait : list event -> Z -> wait_result
}.

Record world := mkWorld {
  table : job_table;
  trace : list event
}.

Definition log (e : event) (w : world) : world :=
  {| table := table w; trace := trace w ++ [e] |}.

Definition say (m : message) (w : world) : world :=
  {| table := print m (table w); trace := trace w |}.

(** A [Popen] object: its [pid], and whether [stdout] is a pipe (it is
    [None] otherwise). *)
Record process := mkProcess {
  pid : Z;
  stdout_pipe : bool
}.

Definition process_stdout (p : process) : stream :=
  if stdout_pipe p then FromPipe (pid p) else Inherit.

Definition stream_of_file (f : option Z) : stream :=
  match f with
  | Some fd => FromFile fd
  | None => Inherit
  end.

Definition is_new_pipe (s : stream) : bool :=
  match s with
  | NewPipe => true
  | _ => false
  end.

Definition path_of (o : option string) : string :=
  match o with
  | Some p => p
  | None => EmptyString
  end.

Section WithOS.

Variable os : OS.

Definition _open_for_read (path : string) (w : world) : option Z * world :=
  match os_open os (trace w) path ReadBinary with
  | Opened fd => (Some fd, log (EOpen path ReadBinary (Opened fd)) w)
  | OpenFailed e =>
      (None, say (RedirectionErrorInput e)
               (log (EOpen path ReadBinary (OpenFailed e)) w))
  end.

Definition _open_for_write (path : string) (append : bool) (w : world)
  : option Z * world :=
  let m := if append then AppendBinary else WriteBinary in
  match os_open os (trace w) path m with
  | Opened fd => (Some fd, log (EOpen path m (Opened fd)) w)
  | OpenFailed e =>
      (None, say (RedirectionErrorOutput e) (log (EOpen path m (OpenFailed e)) w))
  end.

(** The local variables of [run_pipeline] and the world. *)
Record frame := mkFrame {
  procs : list process;
  prev_proc : option process;
  in_file : option Z;
  out_file : option Z;
  w : world
}.

(** How one iteration of the [for] loop ends: it falls through to the next
    one, or it leaves [run_pipeline] through [return False, None]. *)
Inductive flow :=
| Continue (f : frame)
| Return (f : frame).

(** [for p in procs: p.kill()], exceptions swallowed. *)
Definition kill_all (ps : list process) (w0 : world) : world :=
  fold_left (fun w1 p => log (EKill (pid p)) w1) ps w0.

(** The choice of [stdin] for stage [idx]. *)
Definition choose_stdin (idx : nat) (cmd : command) (f : frame) : stream * frame :=
  if Nat.eqb idx 0 && truthy (in_ cmd) then
    let (file, w1) := _open_for_read (path_of (in_ cmd)) (w f) in
    (stream_of_file file,
     {| procs := procs f; prev_proc := prev_proc f; in_file := file;
        out_file := out_file f; w := w1 |})
  else
    match prev_proc f with
    | Some p => (process_stdout p, f)
    | None => (Inherit, f)
    end.

(** The choice of [stdout] for stage [idx] of [n]. *)
Definition choose_stdout (n idx : nat) (cmd : command) (f : frame) : stream * frame :=
  if Nat.eqb idx (n - 1) && truthy (out cmd) then
    let (file, w1) := _open_for_write (path_of (out cmd)) (append cmd) (w f) in
    (stream_of_file file,
     {| procs := procs f; prev_proc := prev_proc f; in_file := in_file f;
        out_file := file; w := w1 |})
  else if negb (Nat.eqb idx (n - 1)) then (NewPipe, f)
  else (Inherit, f).

(** The body of the [for idx, cmd in enumerate(cmds)] loop, [n] being
    [len(cmds)]. *)
Definition stage (n idx : nat) (cmd : command) (f0 : frame) : flow :=
  if negb (nonempty (argv cmd)) then Continue f0
  else
    let (stdin, f1) := choose_stdin idx cmd f0 in
    let (stdout, f2) := choose_stdout n idx cmd f1 in
    let r := os_popen os (trace (w f2)) (argv cmd) stdin stdout in
    let w3 := log (EPopen idx (argv cmd) stdin stdout r) (w f2) in
    match r with
    | FileNotFound =>
        let w4 := say (CommandNotFound (hd EmptyString (argv cmd))) w3 in
        Return {| procs := procs f2; prev_proc := prev_proc f2;
                  in_file := in_file f2; out_file := out_file f2;
                  w := kill_all (procs f2) w4 |}
    | OtherError e =>
        let w4 := say (FailedToExecute (argv cmd) e) w3 in
        Return {| procs := procs f2; prev_proc := prev_proc f2;
                  in_file := in_file f2; out_file := out_file f2;
                  w := kill_all (procs f2) w4 |}
    | Launched child =>
        let proc := mkProcess child (is_new_pipe stdout) in
        let w4 :=
          match prev_proc f2 with
          | Some p => if stdout_pipe p then log (EClosePipe (pid p)) w3 else w3
          | None => w3
          end in
        Continue {| procs := procs f2 ++ [proc]; prev_proc := Some proc;
                    in_file := in_file f2; out_file := out_file f2; w := w4 |}
    end.

Fixpoint stages (n idx : nat) (cmds : list command) (f : frame) : flow :=
  match cmds with
  | [] => Continue f
  | cmd :: rest =>
      match stage n idx cmd f with
      | Continue f' => stages n (S idx) rest f'
      | Return f' => Return f'
      end
  end.

(** The [finally] clause: the redirection files that were opened are
    closed. *)
Definition close_files (f : frame) : world :=
  let w1 := match in_file f with
            | Some fd => log (ECloseFile fd) (w f)
            | None => w f
            end in
  match out_file f with
  | Some fd => log (ECloseFile fd) w1
  | None => w1
  end.

(** The code after the loop, reached when no stage returned. *)
Definition complete (cmds : list command) (f : frame)
  : (bool * option Z) * frame :=
  match procs f with
  | [] => ((false, None), f)
  | p0 :: ps =>
      let is_bg := bg (last cmds fresh_command) in
      let pids := map pid (procs f) in
      let cmdline := String.concat " " (concat (map argv cmds)) in
      if is_bg then
        let (jid, t1) := _register_job pids cmdline Running (table (w f)) in
        let w1 := say (JobStarted jid (hd 0%Z pids))
                      {| table := t1; trace := trace (w f) |} in
        ((true, Some jid),
         {| procs := procs f; prev_proc := prev_proc f; in_file := in_file f;
            out_file := out_file f; w := w1 |})
      else
        let lastp := pid (last ps p0) in
        let r := os_wait os (trace (w f)) lastp in
        let w1 := log (EWait lastp r) (w f) in
        match r with
        | Exited rc =>
            ((false, Some rc),
             {| procs := procs f; prev_proc := prev_proc f; in_file := in_file f;
                out_file := out_file f; w := w1 |})
        | Interrupted =>
            ((false, None),
             {| procs := procs f; prev_proc := prev_proc f; in_file := in_file f;
                out_file := out_file f; w := kill_all (procs f) w1 |})
        end
  end.

(** The local variables on entry. *)
Definition start (w0 : world) : frame :=
  {| procs := []; prev_proc := None; in_file := None; out_file := None; w := w0 |}.

(** [run_pipeline(cmds)]: the pair returned and the world left behind. *)
Definition run_pipeline (cmds : list command) (w0 : world)
  : (bool * option Z) * world :=
  match stages (length cmds) 0 cmds (start w0) with
  | Return f => ((false, None), close_files f)
  | Continue f => let (res, f') := complete cmds f in (res, close_files f')
  end.

End WithOS.

(** The events a run added to the trace of [w0]. *)
Definition added (w0 w1 : world) : list event :=
  skipn (length (trace w0)) (trace w1).

(** The messages a run printed. *)
Definition said (w0 w1 : world) : list message :=
  skipn (length (printed (table w0))) (printed (table w1)).

(** The process identifiers of the successful launches of a trace. *)
Definition launched (evs : list event) : list Z :=
  flat_map (fun e => match e with
                     | EPopen _ _ _ _ (Launched p) => [p]
                     | _ => []
                     end) evs.

(** The launches of a trace that raised. *)
Definition failed (evs : list event) : list event :=
  filter (fun e => match e with
                   | EPopen _ _ _ _ FileNotFound => true
                   | EPopen _ _ _ _ (OtherError _) => true
                   | _ => false
                   end) evs.

(** The waits of a trace. *)
Definition waits (evs : list event) : list event :=
  filter (fun e => match e with EWait _ _ => true | _ => false end) evs.

(** The processes killed in a trace. *)
Definition killed (evs : list event) : list Z :=
  flat_map (fun e => match e with EKill p => [p] | _ => [] end) evs.

(** What [_open_for_read] and [_open_for_write] print when [open] raises
    [e]. *)
Definition open_error (m : mode) (e : string) : message :=
  match m with
  | ReadBinary => RedirectionErrorInput e
  | _ => RedirectionErrorOutput e
  end.


(** An empty world at interpreter start. *)
Definition initial_world : world :=
  {| table := initial_table; trace := [] |}.


(** An operating system in which every file opens, every program but
    [nope] is found, the first stage exits with code 1 and the others with
    code 0. *)
Definition os_sample : OS :=
  {| os_open := fun tr _ _ => Opened (3 + Z.of_nat (length tr));
     os_popen := fun tr args _ _ =>
       if (hd EmptyString args =? "nope")%string then FileNotFound
       else Launched (101 + Z.of_nat (length (launched tr)));
     os_wait := fun _ p => if (p =? 101)%Z then Exited 1 else Exited 0 |}.

(** The same, except that every process exits with code 0. *)
Definition os_sample_all_zero : OS :=
  {| os_open := os_open os_sample;
     os_popen := os_popen os_sample;
     os_wait := fun _ _ => Exited 0 |}.

(** *** Vocabulary of the executor's properties *)

(** No launch failed, nothing was killed and nothing was waited for. *)
Definition quiet (evs : list event) : Prop :=
  failed evs = [] /\ killed evs = [] /\ waits evs = [].

(** The stage a redirection opened in mode [m] belongs to, and the stream
    of that stage it was meant for. *)
Definition redirected_stage (n : nat) (m : mode) : nat :=
  match m with
  | ReadBinary => 0
  | _ => n - 1
  end.

Definition redirected_stream (m : mode) (stdin stdout : stream) : stream :=
  match m with
  | ReadBinary => stdin
  | _ => stdout
  end.

(** Every failed [open] of [evs] is reported in [msgs], and the stage it
    was made for is launched all the same, with the stream inherited from
    the shell in place of the file. *)
Definition opens_ok (n : nat) (evs : list event) (msgs : list message) : Prop :=
  forall p m e,
    In (EOpen p m (OpenFailed e)) evs ->
    In (open_error m e) msgs
    /\ exists args i o r,
         In (EPopen (redirected_stage n m) args i o r) evs
         /\ redirected_stream m i o = Inherit.

(** What [choose_stdin] can add to the trace and to the output. *)
Definition stdin_case (idx : nat) (s : stream) (evs : list event)
    (msgs : list message) : Prop :=
  (evs = [] /\ msgs = [])
  \/ (exists p fd, evs = [EOpen p ReadBinary (Opened fd)] /\ msgs = [])
  \/ (exists p e, evs = [EOpen p ReadBinary (OpenFailed e)]
                  /\ msgs = [RedirectionErrorInput e]
                  /\ s = Inherit /\ idx = 0).

(** What [choose_stdout] can add to the trace and to the output. *)
Definition stdout_case (n idx : nat) (s : stream) (evs : list event)
    (msgs : list message) : Prop :=
  (evs = [] /\ msgs = [])
  \/ (exists p m fd, evs = [EOpen p m (Opened fd)] /\ msgs = [])
  \/ (exists p m e, m <> ReadBinary
                    /\ evs = [EOpen p m (OpenFailed e)]
                    /\ msgs = [RedirectionErrorOutput e]
                    /\ s = Inherit /\ idx = n - 1).

(** The events that are not [open] calls. *)
Definition no_open (evs : list event) : Prop :=
  forall p m r, ~ In (EOpen p m r) evs.

(** What is printed when a launch raises: [all] is [msgs] followed by the
    error for the result [r] of launching [args]. *)
Definition failure_report (args : list string) (r : popen_result)
    (msgs all : list message) : Prop :=
  match r with
  | Launched _ => False
  | FileNotFound => all = msgs ++ [CommandNotFound (hd EmptyString args)]
  | OtherError e => all = msgs ++ [FailedToExecute args e]
  end.

(** The frame [f] between two iterations of the loop started in [w0]:
    [evs] and [msgs] are what the loop has added so far. *)
Definition steady (n : nat) (w0 : world) (f : frame) (evs : list event)
    (msgs : list message) : Prop :=
  trace (w f) = trace w0 ++ evs
  /\ printed (table (w f)) = printed (table w0) ++ msgs
  /\ _jobs (table (w f)) = _jobs (table w0)
  /\ _next_job_id (table (w f)) = _next_job_id (table w0)
  /\ map pid (procs f) = launched evs
  /\ quiet evs
  /\ opens_ok n evs msgs.

(** The frame [f] with which the loop started in [w0] returns after a
    failed launch. *)
Definition aborted (n : nat) (w0 : world) (f : frame) : Prop :=
  exists pre msgs all idx args i o r,
    trace (w f) = trace w0 ++ pre ++ EPopen idx args i o r :: map EKill (launched pre)
    /\ printed (table (w f)) = printed (table w0) ++ all
    /\ failure_report args r msgs all
    /\ _jobs (table (w f)) = _jobs (table w0)
    /\ _next_job_id (table (w f)) = _next_job_id (table w0)
    /\ quiet pre
    /\ opens_ok n (pre ++ [EPopen idx args i o r]) msgs.

(** The five ways [run_pipeline cmds], started in [w0], can end with the
    result [res] in the world [w1]. *)
Inductive run_result (os : OS) (cmds : list command) (w0 : world)
  : bool * option Z -> world -> Prop :=
| LaunchFailed pre msgs idx args i o r fds w1 :
    quiet pre ->
    failure_report args r msgs (said w0 w1) ->
    added w0 w1 = pre ++ EPopen idx args i o r
                      :: map EKill (launched pre) ++ map ECloseFile fds ->
    _jobs (table w1) = _jobs (table w0) ->
    _next_job_id (table w1) = _next_job_id (table w0) ->
    run_result os cmds w0 (false, None) w1
| NothingLaunched evs fds w1 :
    quiet evs ->
    launched evs = [] ->
    added w0 w1 = evs ++ map ECloseFile fds ->
    _jobs (table w1) = _jobs (table w0) ->
    _next_job_id (table w1) = _next_job_id (table w0) ->
    run_result os cmds w0 (false, None) w1
| Background evs msgs fds w1 :
    quiet evs ->
    launched evs <> [] ->
    bg (last cmds fresh_command) = true ->
    added w0 w1 = evs ++ map ECloseFile fds ->
    said w0 w1 = msgs ++ [JobStarted (_next_job_id (table w0)) (hd 0%Z (launched evs))] ->
    _jobs (table w1)
    = dict_set (_next_job_id (table w0))
        (mkJob (launched evs) (String.concat " " (concat (map argv cmds))) Running)
        (_jobs (table w0)) ->
    _next_job_id (table w1) = (_next_job_id (table w0) + 1)%Z ->
    run_result os cmds w0 (true, Some (_next_job_id (table w0))) w1
| ForegroundExited evs fds rc w1 f :
    stages os (length cmds) 0 cmds (start w0) = Continue f ->
    trace (w f) = trace w0 ++ evs ->
    map pid (procs f) = launched evs ->
    quiet evs ->
    launched evs <> [] ->
    bg (last cmds fresh_command) = false ->
    os_wait os (trace w0 ++ evs) (last (launched evs) 0%Z) = Exited rc ->
    added w0 w1 = evs ++ EWait (last (launched evs) 0%Z) (Exited rc)
                      :: map ECloseFile fds ->
    _jobs (table w1) = _jobs (table w0) ->
    _next_job_id (table w1) = _next_job_id (table w0) ->
    run_result os cmds w0 (false, Some rc) w1
| ForegroundInterrupted evs fds w1 :
    quiet evs ->
    launched evs <> [] ->
    bg (last cmds fresh_command) = false ->
    os_wait os (trace w0 ++ evs) (last (launched evs) 0%Z) = Interrupted ->
    added w0 w1 = evs ++ EWait (last (launched evs) 0%Z) Interrupted
                      :: map EKill (launched evs) ++ map ECloseFile fds ->
    _jobs (table w1) = _jobs (table w0) ->
    _next_job_id (table w1) = _next_job_id (table w0) ->
    run_result os cmds w0 (false, None) w1.

(** *** Further vocabulary *)

(** An operating system in which every file opens, the program [locked]
    cannot be executed, every other program is found, and every wait is cut
    short by a keyboard interrupt. *)
Definition os_hostile : OS :=
  {| os_open := fun tr _ _ => Opened (3 + Z.of_nat (length tr));
     os_popen := fun tr args _ _ =>
       if (hd EmptyString args =? "locked")%string
       then OtherError "Permission denied"
       else Launched (101 + Z.of_nat (length (launched tr)));
     os_wait := fun _ _ => Interrupted |}.

(** *** The foreground wait and the child notifier

    The return code [Popen.wait] makes of a wait status: the exit code of a
    process that exited, minus the signal number of one that was killed. *)
Definition returncode (wstatus : Z) : Z :=
  if WIFEXITED wstatus then WEXITSTATUS wstatus else (- Z.land wstatus 127)%Z.

(** [Popen.wait] on a process of the shell, [unreaped] being the children
    nobody has waited for yet, each with the wait status it ends with: the
    call is [os.waitpid(pid, 0)], and its status gives the return code; when
    the child has been reaped already, [os.waitpid] raises
    [ChildProcessError] and [Popen.wait] takes the return code to be 0. *)
Definition popen_wait (unreaped : list (Z * Z)) (pid : Z) : wait_result :=
  match dict_get pid unreaped with
  | Some wstatus => Exited (returncode wstatus)
  | None => Exited 0
  end.

(** The children left to wait for once the [os.waitpid(-1, os.WNOHANG)]
    calls of a run of [_sigchld_handler] have reaped [reaped]. *)
Definition after_reaping (reaped unreaped : list (Z * Z)) : list (Z * Z) :=
  filter (fun child => negb (pid_in (fst child) (map fst reaped))) unreaped.

(** An operating system in which every file opens, every program but
    [nope] is found and gets the next process identifier from 101 on, and
    the foreground wait finds the children [unreaped]. *)
Definition os_children (unreaped : list (Z * Z)) : OS :=
  {| os_open := os_open os_sample;
     os_popen := os_popen os_sample;
     os_wait := fun _ p => popen_wait unreaped p |}.

(** The launches attempted in a trace: stage index and argument list. *)
Definition calls (evs : list event) : list (nat * list string) :=
  flat_map (fun e => match e with
                     | EPopen idx args _ _ _ => [(idx, args)]
                     | _ => []
                     end) evs.

(** The launches a pipeline asks for: its stages with a non-empty [argv],
    numbered from [idx] by their position. *)
Fixpoint expected (idx : nat) (cmds : list command) : list (nat * list string) :=
  match cmds with
  | [] => []
  | c :: rest =>
      if nonempty (argv c) then (idx, argv c) :: expected (S idx) rest
      else expected (S idx) rest
  end.

(** The files successfully opened in a trace, and the files closed. *)
Definition opened (evs : list event) : list Z :=
  flat_map (fun e => match e with
                     | EOpen _ _ (Opened fd) => [fd]
                     | _ => []
                     end) evs.

Definition closed (evs : list event) : list Z :=
  flat_map (fun e => match e with ECloseFile fd => [fd] | _ => [] end) evs.

Definition olist (f : option Z) : list Z :=
  match f with
  | Some fd => [fd]
  | None => []
  end.

(** What the stage after the frame [f] reads from when it is not
    redirected. *)
Definition src_of (f : frame) : stream :=
  match prev_proc f with
  | Some p => process_stdout p
  | None => Inherit
  end.

(** The events that follow the loop: waits, kills and file closes. *)
Definition closing (e : event) : Prop :=
  match e with
  | EWait _ _ | EKill _ | ECloseFile _ => True
  | _ => False
  end.

(** What the next stage reads from after the events [evs], when it read
    from [src] before them: the pipe of the last process launched, if that
    process writes to a pipe. *)
Fixpoint src_after (src : stream) (evs : list event) : stream :=
  match evs with
  | [] => src
  | EPopen _ _ _ o (Launched p) :: evs' =>
      src_after (if is_new_pipe o then FromPipe p else Inherit) evs'
  | _ :: evs' => src_after src evs'
  end.

(** The launches of [evs] are chained, [src] being what the first of them
    reads from: a stage reads from [src], or from a file if it is stage 0;
    it writes to a new pipe exactly when it is not stage [n - 1]. *)
Fixpoint wired (n : nat) (src : stream) (evs : list event) : Prop :=
  match evs with
  | [] => True
  | EPopen idx args i o r :: evs' =>
      (i = src \/ (idx = 0 /\ exists fd, i = FromFile fd))
      /\ (is_new_pipe o = negb (Nat.eqb idx (n - 1)))
      /\ wired n (src_after src [EPopen idx args i o r]) evs'
  | _ :: evs' => wired n src evs'
  end.

(** The events that start no process, close nothing and leave the chain of
    pipes alone. *)
Definition inert (evs : list event) : Prop :=
  calls evs = [] /\ closed evs = [] /\ failed evs = []
  /\ forall src n, src_after src evs = src /\ wired n src evs.

End Executor.


(** ** Built-in commands and the main loop *)

Module Shell.

Import Tokenizer Parser Jobs Executor.

(** [os.chdir] succeeds or raises [FileNotFoundError], [PermissionError]
    or another exception; [e] is the text of the exception. *)
Inductive chdir_result :=
| ChdirOk
| ChdirNotFound (e : string)
| ChdirPermission (e : string)
| ChdirError (e : string).

(** [os.getcwd] returns the directory or raises. *)
Inductive getcwd_result :=
| Cwd (dir : string)
| GetcwdError (e : string).

(** What the shell runs on: the operating system of the executor, the
    conversion [int] of a string ([None] when it raises [ValueError]), the
    expansion of the home directory, the directory calls, which answer
    from the list of directories changed to so far, and the [os.waitpid] of
    [fg], which answers from the calls of it made so far. *)
Record host := mkHost {
  host_os : OS;
  py_int : string -> option Z;
  home : string;
  os_chdir : list string -> string -> chdir_result;
  os_getcwd : list string -> getcwd_result;
  os_waitpid : waitpid_oracle
}.

(** What the built-in commands and the main loop print, one constructor per
    [print] call; the job and pipeline code prints to [printed]. *)
Inductive line :=
| CdError (e : string)
    (* cd: error: e *)
| CdNoSuchFile (dir : string)
    (* cd: dir: No such file or directory *)
| CdPermissionDenied (dir : string)
    (* cd: dir: Permission denied *)
| PwdLine (dir : string)
| ExitNumericRequired (arg : string)
    (* exit: arg: numeric argument required *)
| HelpText
    (* the seven lines of the help message *)
| NoBackgroundJobs
| JobLine (jid : Z) (st : job_status) (ps : list Z) (cmd : string)
    (* [jid] status, the pids joined by commas, the command line *)
| FgJobIdRequired
    (* fg: job id required *)
| FgNumericRequired
    (* fg: numeric job id required *)
| ErrorLine (e : string)
    (* Error: e *)
| EmptyLine
| ExitWord
    (* exit *).

(** The interpreter: the world of the executor, the directories changed
    to, what the built-ins and the main loop printed, and the [os.waitpid]
    calls [fg] made. *)
Record shell := mkShell {
  sh_world : world;
  dirs : list string;
  console : list line;
  fg_waits : list (Z * wait_answer)
}.

Definition initial_shell : shell :=
  {| sh_world := initial_world; dirs := []; console := []; fg_waits := [] |}.

Definition tell (l : line) (s : shell) : shell :=
  {| sh_world := sh_world s; dirs := dirs s; console := console s ++ [l];
     fg_waits := fg_waits s |}.

Definition with_table (t : job_table) (s : shell) : shell :=
  {| sh_world := {| table := t; trace := trace (sh_world s) |};
     dirs := dirs s; console := console s; fg_waits := fg_waits s |}.

(** How a built-in ends: it returns whether the command was handled, it
    leaves the interpreter through [sys.exit], it raises an exception that
    [except Exception] catches, or it is left by [KeyboardInterrupt], which
    [except Exception] does not catch. *)
Inductive outcome :=
| Returned (handled : bool) (s : shell)
| Exited (code : Z) (s : shell)
| Raised (e : string) (s : shell)
| KeyboardInterrupt (s : shell).

Section WithHost.

Variable h : host.

(** The first [execute_builtin]: [cd], [pwd], [exit] and [help]. *)
Definition _original_execute_builtin (cmd : command) (s : shell) : outcome :=
  match argv cmd with
  | [] => Returned false s
  | command_name :: args =>
      if (command_name =? "cd")%string then
        match args with
        | [] =>
            match os_chdir h (dirs s) (home h) with
            | ChdirOk =>
                Returned true {| sh_world := sh_world s;
                                 dirs := dirs s ++ [home h];
                                 console := console s;
                                 fg_waits := fg_waits s |}
            | ChdirNotFound e | ChdirPermission e | ChdirError e =>
                Returned true (tell (CdError e) s)
            end
        | target_dir :: _ =>
            match os_chdir h (dirs s) target_dir with
            | ChdirOk =>
                Returned true {| sh_world := sh_world s;
                                 dirs := dirs s ++ [target_dir];
                                 console := console s;
                                 fg_waits := fg_waits s |}
            | ChdirNotFound _ => Returned true (tell (CdNoSuchFile target_dir) s)
            | ChdirPermission _ =>
                Returned true (tell (CdPermissionDenied target_dir) s)
            | ChdirError e => Returned true (tell (CdError e) s)
            end
        end
      else if (command_name =? "pwd")%string then
        match os_getcwd h (dirs s) with
        | Cwd dir => Returned true (tell (PwdLine dir) s)
        | GetcwdError e => Raised e s
        end
      else if (command_name =? "exit")%string then
        match args with
        | [] => Exited 0 s
        | a :: _ =>
            match py_int h a with
            | Some exit_code => Exited exit_code s
            | None => Exited 0 (tell (ExitNumericRequired a) s)
            end
        end
      else if (command_name =? "help")%string then Returned true (tell HelpText s)
      else Returned false s
  end.

(** [_builtin_jobs] *)
Definition _builtin_jobs (s : shell) : shell :=
  match _jobs (table (sh_world s)) with
  | [] => tell NoBackgroundJobs s
  | jobs =>
      fold_left (fun s' entry =>
                   tell (JobLine (fst entry) (status (snd entry))
                           (pids (snd entry)) (cmdline (snd entry))) s')
                jobs s
  end.

(** [_builtin_fg(cmd)] whole: the checks of the argument, then the lookup,
    the waits and the status update of [Jobs._builtin_fg].  Every path that
    returns returns [True]; a [KeyboardInterrupt] during a wait leaves the
    function. *)
Definition _builtin_fg_cmd (cmd : command) (s : shell) : outcome :=
  match argv cmd with
  | _ :: a :: _ =>
      match py_int h a with
      | None => Returned true (tell FgNumericRequired s)
      | Some jid =>
          let r := _builtin_fg (fun made => os_waitpid h (fg_waits s ++ made))
                     jid (table (sh_world s)) in
          let s' := {| sh_world := {| table := fg_table r;
                                      trace := trace (sh_world s) |};
                       dirs := dirs s; console := console s;
                       fg_waits := fg_waits s ++ fg_calls r |} in
          if fg_returned r then Returned true s' else KeyboardInterrupt s'
      end
  | _ => Returned true (tell FgJobIdRequired s)
  end.

(** The second [execute_builtin], which wraps the first: [jobs] and [fg],
    then the original built-ins. *)
Definition execute_builtin (cmd : command) (s : shell) : outcome :=
  match argv cmd with
  | [] => Returned false s
  | name :: _ =>
      if (name =? "jobs")%string then Returned true (_builtin_jobs s)
      else if (name =? "fg")%string then _builtin_fg_cmd cmd s
      else _original_execute_builtin cmd s
  end.

(** [str.lstrip], [str.rstrip] and [str.strip] without argument. *)
Fixpoint lstrip (s : string) : string :=
  match s with
  | EmptyString => EmptyString
  | String c r => if isspace c then lstrip r else s
  end.

Fixpoint rstrip (s : string) : string :=
  match s with
  | EmptyString => EmptyString
  | String c r =>
      match rstrip r with
      | EmptyString => if isspace c then EmptyString else String c EmptyString
      | r' => String c r'
      end
  end.

Definition strip (s : string) : string := rstrip (lstrip s).

(** How an iteration of the main loop ends: the loop goes on, the
    interpreter stops with an exit code, or a [KeyboardInterrupt] that
    nothing catches leaves [main]. *)
Inductive progress :=
| Next (s : shell)
| Stop (code : Z) (s : shell)
| Uncaught (s : shell).

(** The body of the [while True] loop of [main] for an input line read
    without exception. *)
Definition main_step (user_input : string) (s : shell) : progress :=
  let line := strip user_input in
  match line with
  | EmptyString => Next s
  | _ =>
      match parse_line line with
      | [] => Next s
      | first :: others =>
          match execute_builtin first s with
          | Returned true s' => Next s'
          | Returned false s' =>
              let (res, w1) := run_pipeline (host_os h) (first :: others) (sh_world s') in
              Next {| sh_world := w1; dirs := dirs s'; console := console s';
                      fg_waits := fg_waits s' |}
          | Exited code s' => Stop code s'
          | Raised e s' => Next (tell (ErrorLine e) s')
          | KeyboardInterrupt s' => Uncaught s'
          end
      end
  end.

(** What happens to the interpreter: [input] returns a line, raises
    [EOFError] or [KeyboardInterrupt], or a [SIGCHLD] arrives. *)
Inductive happening :=
| Line (user_input : string)
| EndOfInput
| CtrlC
| ChildSignal (reaped : list (Z * Z)).

(** [main] over a sequence of happenings; the interpreter that has read
    them all waits for the next input. *)
Fixpoint main (todo : list happening) (s : shell) : progress :=
  match todo with
  | [] => Next s
  | Line user_input :: todo' =>
      match main_step user_input s with
      | Next s' => main todo' s'
      | Stop code s' => Stop code s'
      | Uncaught s' => Uncaught s'
      end
  | EndOfInput :: _ => Stop 0 (tell ExitWord (tell EmptyLine s))
  | CtrlC :: todo' => main todo' (tell EmptyLine s)
  | ChildSignal reaped :: todo' =>
      main todo' (with_table (_sigchld_handler reaped (table (sh_world s))) s)
  end.

End WithHost.

(** The shell a run of [main] ends in. *)
Definition final (p : progress) : shell :=
  match p with
  | Next s => s
  | Stop _ s => s
  | Uncaught s => s
  end.

(** What a built-in leaves alone, whatever it changes of the console, the
    directory history and, for [fg], the statuses of the jobs: it makes no
    call of the executor, and adds or removes no job. *)
Definition untouched (s s' : shell) : Prop :=
  trace (sh_world s') = trace (sh_world s)
  /\ map fst (_jobs (table (sh_world s'))) = map fst (_jobs (table (sh_world s)))
  /\ _next_job_id (table (sh_world s')) = _next_job_id (table (sh_world s)).

(** The shell an outcome leaves. *)
Definition left_by (o : outcome) : shell :=
  match o with
  | Returned _ s => s
  | Exited _ s => s
  | Raised _ s => s
  | KeyboardInterrupt s => s
  end.

(** The [os.waitpid] calls made between [s] and [s'] are [made]. *)
Definition waited (s s' : shell) (made : list (Z * wait_answer)) : Prop :=
  fg_waits s' = fg_waits s ++ made.

(** The six names [execute_builtin] handles. *)
Definition builtin_name (name : string) : bool :=
  ((name =? "jobs") || (name =? "fg") || (name =? "cd") || (name =? "pwd")
   || (name =? "exit") || (name =? "help"))%string.

(** The identifiers of the table are 1, 2, ... up to the counter, in
    order. *)
Definition dense (t : job_table) : Prop :=
  map fst (_jobs t) = map (fun i => 1 + Z.of_nat i)%Z (seq 0 (length (_jobs t)))
  /\ _next_job_id t = (1 + Z.of_nat (length (_jobs t)))%Z.

(** A host for examples: [int] knows [1], [2] and [7], the home directory is
    [/root], every directory but [/nowhere] can be entered, and every
    [os.waitpid] of [fg] returns at once. *)
Definition sample_host : host :=
  {| host_os := os_sample;
     py_int := fun a => if (a =? "1")%string then Some 1%Z
                        else if (a =? "2")%string then Some 2%Z
                        else if (a =? "7")%string then Some 7%Z else None;
     home := "/root";
     os_chdir := fun _ dir => if (dir =? "/nowhere")%string
                              then ChdirNotFound "No such file or directory"
                              else ChdirOk;
     os_getcwd := fun ds => Cwd (last ds "/");
     os_waitpid := waitpid_at_once |}.

End Shell.

(** * Properties *)

Import Tokenizer Parser Jobs Executor.

(** ** Tokenizer *)

Section TokenizerFacts.

Lemma scan_quoted_shorter (q : ascii) (s : string) :
  String.length (snd (scan_quoted q s)) <= String.length s.
Proof.
  induction s as [|c s IH]; simpl; [lia|].
  destruct (Ascii.eqb c q); simpl; [lia|].
  destruct (scan_quoted q s); simpl in *; lia.
Qed.

Lemma scan_word_shorter (s : string) :
  String.length (snd (scan_word s)) <= String.length s.
Proof.
  induction s as [|c s IH]; simpl; [lia|].
  destruct (isspace c || is_special c || is_quote c); simpl; [lia|].
  destruct (scan_word s); simpl in *; lia.
Qed.

(** Any two amounts of fuel that cover the line give the same tokens: the
    loop stops because the line is exhausted. *)
Lemma tokenize_loop_fuel (n : nat) :
  forall m line tokens,
    String.length line <= n -> String.length line <= m ->
    tokenize_loop n line tokens = tokenize_loop m line tokens.
Proof.
  induction n as [|n IH]; intros m line tokens Hn Hm.
  - destruct line; simpl in Hn; [|lia]. destruct m; reflexivity.
  - destruct line as [|ch rest]; [destruct m; reflexivity|].
    destruct m as [|m]; simpl in Hm; [lia|]. simpl in Hn.
    cbn [tokenize_loop].
    destruct (isspace ch) eqn:Hs; [apply IH; lia|].
    destruct (Ascii.eqb ch gt_char && next_is_gt rest).
    { destruct rest; simpl in *; apply IH; simpl; lia. }
    destruct (is_special ch) eqn:Hsp; [apply IH; lia|].
    destruct (is_quote ch) eqn:Hq.
    { pose proof (scan_quoted_shorter ch rest) as Hlen.
      destruct (scan_quoted ch rest) as [buf r]; simpl in Hlen.
      apply IH; lia. }
    pose proof (scan_word_shorter rest) as Hlen.
    simpl. rewrite Hs, Hsp, Hq. simpl.
    destruct (scan_word rest) as [buf r]; simpl in Hlen.
    apply IH; lia.
Qed.

Lemma tokenize_from_fuel (n : nat) (line : string) (tokens : list string) :
  String.length line <= n ->
  tokenize_loop n line tokens = tokenize_from line tokens.
Proof.
  intros H. unfold tokenize_from. apply tokenize_loop_fuel; lia.
Qed.

Lemma scan_quoted_closed (q : ascii) (body rest : string) :
  has_char q body = false ->
  scan_quoted q (String.append body (String q rest)) = (body, rest).
Proof.
  induction body as [|c body IH]; simpl; intros H.
  - now rewrite Ascii.eqb_refl.
  - apply orb_false_iff in H as [Hc Hb]. rewrite Hc, (IH Hb). reflexivity.
Qed.

Lemma scan_quoted_open (q : ascii) (body : string) :
  has_char q body = false ->
  scan_quoted q body = (body, EmptyString).
Proof.
  induction body as [|c body IH]; simpl; intros H; [reflexivity|].
  apply orb_false_iff in H as [Hc Hb]. rewrite Hc, (IH Hb). reflexivity.
Qed.

(** A quote character is neither a space nor an operator character. *)
Lemma quote_is_plain (q : ascii) :
  is_quote q = true ->
  isspace q = false /\ Ascii.eqb q gt_char = false /\ is_special q = false.
Proof.
  unfold is_quote. intros H. apply orb_true_iff in H as [H|H];
    apply Ascii.eqb_eq in H; subst q; repeat split; reflexivity.
Qed.

(** The loop at a quote character: one iteration runs the quoted branch. *)
Lemma tokenize_from_quote (q : ascii) (rest : string) (tokens : list string) :
  is_quote q = true ->
  tokenize_from (String q rest) tokens =
  tokenize_from (snd (scan_quoted q rest)) (tokens ++ [fst (scan_quoted q rest)]).
Proof.
  intros Hq. destruct (quote_is_plain q Hq) as (Hs & Hg & Hsp).
  unfold tokenize_from at 1. simpl. rewrite Hs, Hg, Hsp, Hq. simpl.
  pose proof (scan_quoted_shorter q rest) as Hlen.
  destruct (scan_quoted q rest) as [buf r]; simpl in *.
  now apply tokenize_from_fuel.
Qed.

(** The tokens found in a line come after those already built. *)
Lemma tokenize_loop_acc (n : nat) :
  forall line front tokens,
    tokenize_loop n line (front ++ tokens) = front ++ tokenize_loop n line tokens.
Proof.
  induction n as [|n IH]; intros line front tokens; [reflexivity|].
  destruct line as [|ch rest]; [reflexivity|]. cbn [tokenize_loop].
  destruct (isspace ch); [apply IH|].
  destruct (Ascii.eqb ch gt_char && next_is_gt rest);
    [rewrite <- app_assoc; apply IH|].
  destruct (is_special ch); [rewrite <- app_assoc; apply IH|].
  destruct (is_quote ch).
  - destruct (scan_quoted ch rest). rewrite <- app_assoc. apply IH.
  - destruct (scan_word (String ch rest)). rewrite <- app_assoc. apply IH.
Qed.

Lemma tokenize_from_acc (line : string) (tokens : list string) :
  tokenize_from line tokens = tokens ++ tokenize line.
Proof.
  unfold tokenize, tokenize_from.
  rewrite <- (app_nil_r tokens) at 1. apply tokenize_loop_acc.
Qed.

End TokenizerFacts.

(** [C8] At a quote character the tokenizer reads verbatim up to the
    matching quote and emits what it read as exactly one token, wherever in
    the line the quote is met and whatever tokens came before: a closed
    segment [q body q] adds the token [body] and scanning resumes after the
    closing quote; an unterminated segment runs to the end of the line and
    still adds its token; an empty quoted string adds the empty token; and
    the line [a "b c" d] gives the three words [a], [b c], [d]. *)
Theorem tokenize_quoted_segment :
  forall (q : ascii) (body rest : string) (tokens : list string),
    is_quote q = true ->
    has_char q body = false ->
    tokenize_from (String q (String.append body (String q rest))) tokens
      = tokenize_from rest (tokens ++ [body])
    /\ tokenize (String q (String.append body (String q rest)))
      = body :: tokenize rest
    /\ tokenize_from (String q body) tokens = tokens ++ [body]
    /\ tokenize_from (String q (String q rest)) tokens
      = tokenize_from rest (tokens ++ [EmptyString])
    /\ tokenize (String q (String q EmptyString)) = [EmptyString]
    /\ tokenize sample_line = ["a"; "b c"; "d"].
Proof.
  intros q body rest tokens Hq Hbody. repeat split.
  - rewrite tokenize_from_quote by assumption.
    now rewrite scan_quoted_closed.
  - unfold tokenize. rewrite tokenize_from_quote by assumption.
    rewrite scan_quoted_closed by assumption. cbn [fst snd app].
    apply (tokenize_from_acc rest [body]).
  - rewrite tokenize_from_quote by assumption.
    now rewrite scan_quoted_open.
  - rewrite tokenize_from_quote by assumption.
    simpl. now rewrite Ascii.eqb_refl.
  - unfold tokenize. rewrite tokenize_from_quote by assumption.
    simpl. now rewrite Ascii.eqb_refl.
Qed.

Lemma tokenize_quoted_segment_witness :
  is_quote dquote = true /\ has_char dquote "b c" = false
  /\ tokenize_from (String dquote (String.append "b c" (String dquote " d"))) ["a"]
     = tokenize_from " d" (["a"] ++ ["b c"]).
Proof.
  split; [reflexivity|]. split; [reflexivity|].
  apply (tokenize_quoted_segment dquote "b c" " d" ["a"]); reflexivity.
Defined.

(** ** Parser *)

Section ParserFacts.

(** The loop over the tokens of well-formed items applies them in order to
    the accumulator and leaves the pipeline built so far alone. *)
Lemma parse_loop_items (items : list item) :
  Forall item_ok items ->
  forall rest cmds cur,
    parse_loop (stage_tokens items ++ rest) cmds cur
    = parse_loop rest cmds (fold_left apply_item items cur).
Proof.
  induction 1 as [|it items Hit _ IH]; intros rest cmds cur; [reflexivity|].
  unfold stage_tokens in *. cbn [flat_map fold_left]. rewrite <- app_assoc.
  destruct it as [w0|p|ap p|]; cbn [item_tokens apply_item app].
  - simpl in Hit. unfold is_operator in Hit.
    repeat (apply orb_false_iff in Hit as [Hit ?]).
    cbn [parse_loop]. rewrite Hit.
    repeat match goal with H : (w0 =? _) = false |- _ => rewrite H; clear H end.
    apply IH.
  - cbn. apply IH.
  - destruct ap; cbn; apply IH.
  - cbn. apply IH.
Qed.

(** The parser on a pipeline of well-formed stages: a stage closed by a
    pipe token is appended as it stands, and the accumulator is left holding
    the last stage. *)
Lemma parse_loop_pipeline (others : list (list item)) :
  Forall (Forall item_ok) others ->
  forall first cmds cur,
    Forall item_ok first ->
    parse_loop (pipeline_tokens first others) cmds cur
    = match others with
      | [] => (cmds, fold_left apply_item first cur)
      | _ :: _ =>
          (cmds ++ fold_left apply_item first cur
                :: map command_of (removelast others),
           command_of (last others []))
      end.
Proof.
  induction 1 as [|next others Hnext _ IH]; intros first cmds cur Hfirst.
  - cbn [pipeline_tokens]. rewrite <- (app_nil_r (stage_tokens first)).
    now rewrite parse_loop_items.
  - cbn [pipeline_tokens]. rewrite parse_loop_items by assumption.
    cbn [parse_loop]. cbn [String.eqb Ascii.eqb Bool.eqb].
    rewrite (IH next _ _ Hnext).
    destruct others as [|x l].
    + reflexivity.
    + rewrite <- app_assoc. reflexivity.
Qed.

(** The loop on a pipeline of well-formed stages followed by more tokens. *)
Lemma parse_loop_pipeline_rest (others : list (list item)) :
  Forall (Forall item_ok) others ->
  forall first rest cmds cur,
    Forall item_ok first ->
    parse_loop (pipeline_tokens first others ++ rest) cmds cur
    = parse_loop rest
        (fst (parse_loop (pipeline_tokens first others) cmds cur))
        (snd (parse_loop (pipeline_tokens first others) cmds cur)).
Proof.
  induction 1 as [|next others Hnext _ IH]; intros first rest cmds cur Hfirst.
  - cbn [pipeline_tokens]. rewrite parse_loop_items by assumption.
    pose proof (parse_loop_items first Hfirst [] cmds cur) as Hend.
    rewrite app_nil_r in Hend. rewrite Hend. reflexivity.
  - cbn [pipeline_tokens]. rewrite <- app_assoc, <- app_comm_cons.
    rewrite !parse_loop_items by assumption.
    cbn [parse_loop]. cbn [String.eqb Ascii.eqb Bool.eqb].
    now apply IH.
Qed.

Lemma parse_tokens_pipeline (first : list item) (others : list (list item)) :
  Forall item_ok first ->
  Forall (Forall item_ok) others ->
  parse_tokens (pipeline_tokens first others)
  = map command_of (removelast (first :: others))
    ++ (if keep (command_of (last others first))
        then [command_of (last others first)] else []).
Proof.
  intros Hfirst Hothers. unfold parse_tokens.
  rewrite parse_loop_pipeline by assumption.
  destruct others as [|x l].
  - cbn. destruct (keep (command_of first)); reflexivity.
  - replace (last (x :: l) first) with (last (x :: l) []).
    2:{ clear. revert x. induction l as [|y l IH]; intros x; [reflexivity|].
        change (last (x :: y :: l) []) with (last (y :: l) []).
        change (last (x :: y :: l) first) with (last (y :: l) first).
        apply IH. }
    change (removelast (first :: x :: l)) with (first :: removelast (x :: l)).
    cbn [map app]. fold (command_of first).
    destruct (keep (command_of (last (x :: l) []))).
    + reflexivity.
    + now rewrite app_nil_r.
Qed.

(** The fields of the accumulator after the items of a stage. *)
Lemma fold_items_argv (items : list item) :
  forall cur, argv (fold_left apply_item items cur) = argv cur ++ words items.
Proof.
  induction items as [|it items IH]; intros cur; cbn [fold_left words flat_map].
  - now rewrite app_nil_r.
  - rewrite IH. destruct it; cbn; [now rewrite <- app_assoc|reflexivity..].
Qed.

Lemma fold_items_in (items : list item) :
  forall cur,
    in_ (fold_left apply_item items cur)
    = fold_left (fun acc it => match it with
                               | RedirIn p => Some p
                               | _ => acc
                               end) items (in_ cur).
Proof.
  induction items as [|it items IH]; intros cur; cbn [fold_left]; [reflexivity|].
  rewrite IH. destruct it; reflexivity.
Qed.

Lemma fold_items_out (items : list item) :
  forall cur,
    out_pair (fold_left apply_item items cur)
    = fold_left (fun acc it => match it with
                               | RedirOut ap p => Some (ap, p)
                               | _ => acc
                               end) items (out_pair cur).
Proof.
  induction items as [|it items IH]; intros cur; cbn [fold_left]; [reflexivity|].
  rewrite IH. destruct it; reflexivity.
Qed.

Lemma fold_items_bg (items : list item) :
  forall cur, bg (fold_left apply_item items cur) = bg cur || has_amp items.
Proof.
  induction items as [|it items IH]; intros cur; cbn [fold_left has_amp existsb].
  - now rewrite orb_false_r.
  - rewrite IH. destruct it; cbn; try reflexivity.
    now rewrite orb_true_r.
Qed.

Lemma command_of_fields (items : list item) :
  argv (command_of items) = words items
  /\ in_ (command_of items) = last_in items
  /\ out_pair (command_of items) = last_out items
  /\ bg (command_of items) = has_amp items.
Proof.
  unfold command_of. repeat split.
  - apply fold_items_argv.
  - apply fold_items_in.
  - apply fold_items_out.
  - apply fold_items_bg.
Qed.





(** *** Every token sequence is a pipeline of stages *)

Lemma pipeline_tokens_cons (it : item) (first : list item)
    (others : list (list item)) :
  pipeline_tokens (it :: first) others
  = item_tokens it ++ pipeline_tokens first others.
Proof.
  destruct others; cbn [pipeline_tokens]; unfold stage_tokens; cbn [flat_map];
    [reflexivity|]. now rewrite <- app_assoc.
Qed.

(** The reading gives back the tokens, and its items are well formed. *)
Lemma read_stages_spec (n : nat) :
  forall tokens,
    length tokens <= n ->
    let '(first, others, dangling) := read_stages tokens in
    tokens = pipeline_tokens first others ++ dangling
    /\ Forall item_ok first
    /\ Forall (Forall item_ok) others
    /\ dangling_ok dangling.
Proof.
  induction n as [|n IH]; intros tokens Hn.
  - destruct tokens; [|cbn in Hn; lia].
    cbn. split; [reflexivity|]. split; [constructor|]. split; [constructor|now left].
  - destruct tokens as [|t rest].
    { cbn. split; [reflexivity|]. split; [constructor|].
      split; [constructor|now left]. }
    cbn [length] in Hn.
    assert (Hrest := IH rest ltac:(lia)).
    assert (Hskip : forall (mk : string -> item) (op : string),
               t = op -> is_redirection op = true ->
               (forall q, item_tokens (mk q) = [op; q]) ->
               (forall q, item_ok (mk q)) ->
               let '(first, others, dangling) :=
                 match rest with
                 | [] => ([], [], [t])
                 | q :: rest' =>
                     let '(first, others, dangling) := read_stages rest' in
                     (mk q :: first, others, dangling)
                 end in
               t :: rest = pipeline_tokens first others ++ dangling
               /\ Forall item_ok first
               /\ Forall (Forall item_ok) others
               /\ dangling_ok dangling).
    { intros mk op -> Hop Htok Hok. destruct rest as [|q rest'].
      - cbn. split; [reflexivity|]. split; [constructor|].
        split; [constructor|]. right. exists op. now split.
      - specialize (IH rest' ltac:(cbn in Hn; lia)).
        destruct (read_stages rest') as [[first others] dangling].
        destruct IH as (Heq & Hf & Ho & Hd).
        rewrite pipeline_tokens_cons, Htok. cbn [app]. rewrite <- Heq.
        split; [reflexivity|]. split; [constructor; auto|]. now split. }
    cbn [read_stages].
    destruct (t =? "|") eqn:E1.
    { apply String.eqb_eq in E1. subst t.
      destruct (read_stages rest) as [[first others] dangling].
      destruct Hrest as (Heq & Hf & Ho & Hd).
      cbn [pipeline_tokens]. unfold stage_tokens at 1. cbn [flat_map app].
      rewrite <- Heq. split; [reflexivity|]. split; [constructor|].
      split; [constructor; assumption|assumption]. }
    destruct (t =? "<") eqn:E2.
    { apply String.eqb_eq in E2.
      apply (Hskip RedirIn "<"); [assumption|reflexivity|reflexivity|].
      intros q. exact I. }
    destruct (t =? ">") eqn:E3.
    { apply String.eqb_eq in E3.
      apply (Hskip (RedirOut false) ">"); [assumption|reflexivity|reflexivity|].
      intros q. exact I. }
    destruct (t =? ">>") eqn:E4.
    { apply String.eqb_eq in E4.
      apply (Hskip (RedirOut true) ">>"); [assumption|reflexivity|reflexivity|].
      intros q. exact I. }
    destruct (read_stages rest) as [[first others] dangling].
    destruct Hrest as (Heq & Hf & Ho & Hd).
    destruct (t =? "&") eqn:E5.
    { apply String.eqb_eq in E5. subst t.
      rewrite pipeline_tokens_cons. cbn [item_tokens app]. rewrite <- Heq.
      split; [reflexivity|]. split; [constructor; [exact I|assumption]|].
      now split. }
    rewrite pipeline_tokens_cons. cbn [item_tokens app]. rewrite <- Heq.
    split; [reflexivity|]. split; [|now split].
    constructor; [|assumption]. cbn [item_ok]. unfold is_operator.
    now rewrite E1, E2, E3, E4, E5.
Qed.



(** A redirection operator in last position ends the loop and changes
    nothing. *)
Lemma parse_loop_dangling (d : list string) (cmds : list command) (cur : command) :
  dangling_ok d -> parse_loop d cmds cur = (cmds, cur).
Proof.
  intros [->|(op & Hop & ->)]; [reflexivity|].
  unfold is_redirection in Hop.
  apply orb_true_iff in Hop as [Hop|Hop];
    [apply orb_true_iff in Hop as [Hop|Hop]|];
    apply String.eqb_eq in Hop; subst op; reflexivity.
Qed.

Lemma last_first {A} (l : list A) (a d : A) : last (a :: l) d = last l a.
Proof.
  revert a d. induction l as [|b l IH]; intros a d; [reflexivity|].
  change (last (a :: b :: l) d) with (last (b :: l) d).
  now rewrite (IH b d), (IH b a).
Qed.

Lemma stages_of_split (tokens : list string) :
  stages_of tokens = closed_stages tokens ++ [open_stage tokens].
Proof.
  unfold closed_stages, open_stage. apply app_removelast_last.
  unfold stages_of. destruct (read_stages tokens) as [[first others] d].
  discriminate.
Qed.

(** The parser on any token sequence: the descriptors of the stages closed
    by a pipe token, each as it stands, then the descriptor of the last
    stage if it passes the final test. *)
Lemma parse_tokens_stages (tokens : list string) :
  tokens = stages_tokens (stages_of tokens) ++ dangling_of tokens
  /\ Forall (Forall item_ok) (stages_of tokens)
  /\ dangling_ok (dangling_of tokens)
  /\ parse_tokens tokens
     = map command_of (closed_stages tokens)
       ++ (if keep (command_of (open_stage tokens))
           then [command_of (open_stage tokens)] else []).
Proof.
  unfold closed_stages, open_stage, stages_of, dangling_of.
  pose proof (read_stages_spec (length tokens) tokens (le_n _)) as H.
  destruct (read_stages tokens) as [[first others] dangling].
  cbn [snd stages_tokens].
  destruct H as (Heq & Hf & Ho & Hd).
  split; [exact Heq|]. split; [now constructor|]. split; [exact Hd|].
  rewrite Heq at 1. unfold parse_tokens at 1.
  rewrite parse_loop_pipeline_rest by assumption.
  rewrite parse_loop_dangling by assumption.
  pose proof (parse_tokens_pipeline first others Hf Ho) as Hp.
  unfold parse_tokens in Hp.
  destruct (parse_loop (pipeline_tokens first others) [] fresh_command)
    as [cmds cur]. cbn [fst snd].
  rewrite last_first. exact Hp.
Qed.




(** The descriptor at position [k] of the result is the one of stage
    [k]. *)
Lemma parse_tokens_nth (tokens : list string) (k : nat) (items : list item) :
  nth_error (stages_of tokens) k = Some items ->
  (S k < length (stages_of tokens) \/ keep (command_of items) = true ->
   nth_error (parse_tokens tokens) k = Some (command_of items))
  /\ (nth_error (parse_tokens tokens) k = Some (command_of items)
      \/ (S k = length (stages_of tokens)
          /\ keep (command_of items) = false
          /\ nth_error (parse_tokens tokens) k = None)).
Proof.
  intros Hnth.
  destruct (parse_tokens_stages tokens) as (_ & _ & _ & Hparse).
  rewrite stages_of_split in Hnth |- *. rewrite length_app. cbn [length].
  rewrite Hparse.
  assert (Hlen : length (map command_of (closed_stages tokens))
                 = length (closed_stages tokens)) by apply length_map.
  destruct (Nat.lt_ge_cases k (length (closed_stages tokens))) as [Hk|Hk].
  - rewrite nth_error_app1 in Hnth by assumption.
    assert (H : nth_error
                  (map command_of (closed_stages tokens)
                   ++ (if keep (command_of (open_stage tokens))
                       then [command_of (open_stage tokens)] else [])) k
                = Some (command_of items)).
    { rewrite nth_error_app1 by (rewrite Hlen; assumption).
      now apply map_nth_error. }
    split; [intros _; exact H|now left].
  - rewrite nth_error_app2 in Hnth by assumption.
    destruct (k - length (closed_stages tokens)) as [|j] eqn:Hj;
      [|destruct j; discriminate].
    cbn [nth_error] in Hnth. injection Hnth as <-.
    assert (Hkeq : k = length (closed_stages tokens)) by lia. subst k.
    rewrite nth_error_app2 by (rewrite Hlen; apply le_n).
    rewrite Hlen, Nat.sub_diag.
    destruct (keep (command_of (open_stage tokens))) eqn:Hkeep; cbn [nth_error].
    + split; [reflexivity|now left].
    + split; [intros [H|H]; [lia|discriminate]|].
      right. repeat split. lia.
Qed.

End ParserFacts.




(** [C10] In any token sequence, a command that holds output redirections,
    each with its path, gets the path and append flag of the last of them;
    its [argv] is made of its words alone, so no redirection path enters
    it.  That descriptor stands in the pipeline at the position of the
    command; only a command in last position can be missing, when it fails
    the final test, which a non-empty path excludes. *)
Theorem parse_tokens_last_output_redirection :
  forall (tokens : list string) (k : nat) (items : list item)
         (ap : bool) (p : string),
    nth_error (stages_of tokens) k = Some items ->
    last_out items = Some (ap, p) ->
    let c := command_of items in
    tokens = stages_tokens (stages_of tokens) ++ dangling_of tokens
    /\ out c = Some p /\ append c = ap /\ argv c = words items
    /\ (S k < length (stages_of tokens) \/ p <> EmptyString ->
        nth_error (parse_tokens tokens) k = Some c)
    /\ (nth_error (parse_tokens tokens) k = Some c
        \/ (S k = length (stages_of tokens)
            /\ keep c = false
            /\ nth_error (parse_tokens tokens) k = None)).
Proof.
  intros tokens k items ap p Hnth Hlast c.
  destruct (parse_tokens_stages tokens) as (Heq & _).
  destruct (command_of_fields items) as (Hargv & _ & Hout & _).
  fold c in Hargv, Hout. rewrite Hlast in Hout. unfold out_pair in Hout.
  destruct (out c) as [p'|] eqn:Ho; [|discriminate].
  injection Hout as Ha Hp. subst p'.
  destruct (parse_tokens_nth tokens k items Hnth) as [Hin Hcases]. fold c in Hin, Hcases.
  split; [exact Heq|]. split; [reflexivity|]. split; [exact Ha|].
  split; [exact Hargv|]. split; [|exact Hcases].
  intros [Hk|Hne]; apply Hin; [now left|right].
  unfold keep. rewrite Ho. cbn [truthy].
  destruct (String.eqb_spec p EmptyString); [contradiction|].
  cbn. now rewrite orb_true_r.
Qed.

Lemma parse_tokens_last_output_redirection_witness :
  let tokens := ["ls"; "|"; "sort"; ">"; "a.txt"; "-r"; ">>"; "b.txt"] in
  nth_error (parse_tokens tokens) 1
  = Some {| argv := ["sort"; "-r"]; in_ := None; out := Some "b.txt"%string;
            append := true; bg := false |}.
Proof.
  intros tokens.
  assert (Hnth : nth_error (stages_of tokens) 1
                 = Some [Word "sort"; RedirOut false "a.txt"; Word "-r";
                         RedirOut true "b.txt"]) by reflexivity.
  assert (Hlast : last_out [Word "sort"; RedirOut false "a.txt"; Word "-r";
                            RedirOut true "b.txt"]
                  = Some (true, "b.txt"%string)) by reflexivity.
  destruct (parse_tokens_last_output_redirection tokens 1 _ true "b.txt" Hnth Hlast)
    as (_ & _ & _ & _ & H & _).
  apply H. right. discriminate.
Defined.

(** ** Job table *)

Section JobFacts.

Local Open Scope Z_scope.

Lemma dict_get_set {V} (k j : Z) (v : V) (d : list (Z * V)) :
  dict_get j (dict_set k v d) = if k =? j then Some v else dict_get j d.
Proof.
  induction d as [|[k' v'] d IH]; cbn [dict_set dict_get].
  - reflexivity.
  - destruct (k' =? k) eqn:Hk; cbn [dict_get].
    + apply Z.eqb_eq in Hk. subst k'. destruct (k =? j); reflexivity.
    + rewrite IH. destruct (k' =? j) eqn:Hj; [|reflexivity].
      apply Z.eqb_eq in Hj. subst k'. rewrite Z.eqb_sym, Hk. reflexivity.
Qed.

(** The scan leaves every entry in place and changes at most the status of
    one of them, to the status made from the exit code. *)
Lemma update_scan_get (pid : Z) (exitcode : option Z) (d : list (Z * job)) (j : Z) :
  dict_get j (snd (update_scan pid exitcode d)) = dict_get j d
  \/ exists info,
       dict_get j d = Some info
       /\ dict_get j (snd (update_scan pid exitcode d))
          = Some (mkJob (pids info) (cmdline info) (status_of_exitcode exitcode)).
Proof.
  induction d as [|[jid info] d IH]; cbn [update_scan]; [now left|].
  destruct (pid_in pid (pids info)).
  - cbn [snd dict_get]. destruct (jid =? j); [right; eauto|now left].
  - destruct (update_scan pid exitcode d) as [r d'']. cbn [snd dict_get] in *.
    destruct (jid =? j); [now left|exact IH].
Qed.

Lemma status_of_exitcode_not_running (exitcode : option Z) :
  status_of_exitcode exitcode <> Running.
Proof. destruct exitcode; discriminate. Qed.

Lemma update_jobs (pid : Z) (exitcode : option Z) (t : job_table) :
  _jobs (snd (_update_job_status pid exitcode t))
  = snd (update_scan pid exitcode (_jobs t))
  /\ _next_job_id (snd (_update_job_status pid exitcode t)) = _next_job_id t.
Proof.
  unfold _update_job_status. destruct (update_scan pid exitcode (_jobs t)).
  split; reflexivity.
Qed.

Lemma reap_one_jobs (child : Z * Z) (t : job_table) :
  exists pid exitcode,
    _jobs (reap_one child t) = snd (update_scan pid exitcode (_jobs t))
    /\ _next_job_id (reap_one child t) = _next_job_id t.
Proof.
  destruct child as [pid wstatus]. unfold reap_one.
  exists pid, (if WIFEXITED wstatus then Some (WEXITSTATUS wstatus) else None).
  destruct (update_jobs pid
              (if WIFEXITED wstatus then Some (WEXITSTATUS wstatus) else None) t)
    as [Hj Hn].
  destruct (_update_job_status pid _ t) as [jid t1]. cbn [snd] in *.
  destruct jid as [j|]; [destruct (j =? 0)|]; cbn; auto.
Qed.

(** What a mutation of the table other than a registration preserves. *)
Definition keeps (t t' : job_table) : Prop :=
  _next_job_id t' = _next_job_id t
  /\ (forall jid, dict_get jid (_jobs t') <> None -> dict_get jid (_jobs t) <> None)
  /\ (forall jid, settled jid t -> settled jid t').

Lemma keeps_refl (t : job_table) : keeps t t.
Proof. repeat split; auto. Qed.

Lemma keeps_trans (t1 t2 t3 : job_table) :
  keeps t1 t2 -> keeps t2 t3 -> keeps t1 t3.
Proof.
  intros (Hn1 & Hk1 & Hs1) (Hn2 & Hk2 & Hs2). repeat split.
  - congruence.
  - auto.
  - auto.
Qed.

Lemma reap_one_keeps (child : Z * Z) (t : job_table) : keeps t (reap_one child t).
Proof.
  destruct (reap_one_jobs child t) as (pid & exitcode & Hj & Hn).
  repeat split; [exact Hn|..].
  - intros jid. rewrite Hj.
    destruct (update_scan_get pid exitcode (_jobs t) jid) as [H|(info & H1 & H2)].
    + now rewrite H.
    + intros _. now rewrite H1.
  - intros jid (job & Hget & Hst). unfold settled. rewrite Hj.
    destruct (update_scan_get pid exitcode (_jobs t) jid) as [H|(info & H1 & H2)].
    + rewrite H. eauto.
    + rewrite H2. eexists. split; [reflexivity|].
      apply status_of_exitcode_not_running.
Qed.

Lemma sigchld_keeps (reaped : list (Z * Z)) :
  forall t, keeps t (_sigchld_handler reaped t).
Proof.
  unfold _sigchld_handler.
  induction reaped as [|child reaped IH]; intros t; cbn [fold_left].
  - apply keeps_refl.
  - eapply keeps_trans; [apply reap_one_keeps|apply IH].
Qed.

Lemma handle_all_keeps (signals : list (list (Z * Z))) :
  forall t, keeps t (handle_all signals t).
Proof.
  unfold handle_all.
  induction signals as [|reaped signals IH]; intros t; cbn [fold_left].
  - apply keeps_refl.
  - eapply keeps_trans; [apply sigchld_keeps|apply IH].
Qed.

Lemma fg_wait_loop_keeps (waitpid : waitpid_oracle) (ps : list Z) :
  forall made t, keeps t (snd (fg_wait_loop waitpid ps made t)).
Proof.
  induction ps as [|p ps IH]; intros made t; cbn [fg_wait_loop].
  - apply keeps_refl.
  - pose proof (handle_all_keeps (during (waitpid made p)) t) as Hk.
    destruct (ending (waitpid made p));
      [eapply keeps_trans; [exact Hk|apply IH]..|exact Hk].
Qed.

Lemma print_keeps (m : message) (t : job_table) : keeps t (print m t).
Proof. repeat split; auto. Qed.

Lemma fg_keeps (waitpid : waitpid_oracle) (jid : Z) (t : job_table) :
  keeps t (fg_table (_builtin_fg waitpid jid t)).
Proof.
  unfold _builtin_fg. destruct (dict_get jid (_jobs t)) as [job|] eqn:Hget.
  - pose proof (fg_wait_loop_keeps waitpid (pids job) []
                  (print (FgBringing jid (cmdline job)) t)) as Hk.
    destruct (fg_wait_loop waitpid (pids job) []
                (print (FgBringing jid (cmdline job)) t)) as [[fin made] t2].
    cbn [snd] in Hk.
    assert (Hk2 : keeps t t2) by (eapply keeps_trans; [apply print_keeps|exact Hk]).
    destruct fin; cbn [fg_table]; [|exact Hk2].
    destruct Hk2 as (Hn & Hkeys & Hs).
    repeat split; cbn [_next_job_id _jobs].
    + exact Hn.
    + intros j. rewrite dict_get_set. destruct (jid =? j) eqn:Hj; [|auto].
      apply Z.eqb_eq in Hj. subst j. now rewrite Hget.
    + intros j Hj. apply Hs in Hj. destruct Hj as (job' & Hget' & Hst).
      unfold settled. cbn [_jobs]. rewrite dict_get_set. destruct (jid =? j).
      * eexists. split; [reflexivity|discriminate].
      * eauto.
  - cbn [fg_table]. apply print_keeps.
Qed.

Lemma register_spec (ps : list Z) (c : string) (s : job_status) (t : job_table) :
  fresh_counter t ->
  let t' := snd (_register_job ps c s t) in
  fst (_register_job ps c s t) = _next_job_id t
  /\ _next_job_id t' = _next_job_id t + 1
  /\ fresh_counter t'
  /\ dict_get (_next_job_id t) (_jobs t') = Some (mkJob ps c s)
  /\ (forall jid, settled jid t -> settled jid t').
Proof.
  intros Hfresh. cbn. repeat split.
  - intros jid. cbn. rewrite dict_get_set.
    destruct (_next_job_id t =? jid) eqn:Hj.
    + apply Z.eqb_eq in Hj. lia.
    + intros H. apply Hfresh in H. lia.
  - rewrite dict_get_set. now rewrite Z.eqb_refl.
  - intros jid (job & Hget & Hst). unfold settled. cbn. rewrite dict_get_set.
    destruct (_next_job_id t =? jid) eqn:Hj; [|eauto].
    apply Z.eqb_eq in Hj. exfalso.
    assert (jid < _next_job_id t) by (apply Hfresh; congruence). lia.
Qed.

Lemma keeps_fresh (t t' : job_table) :
  keeps t t' -> fresh_counter t -> fresh_counter t'.
Proof.
  intros (Hn & Hk & _) Hfresh jid H. rewrite Hn. auto.
Qed.

(** One action: the identifier issued, if any, is the counter, which then
    moves up by one; settled jobs stay settled. *)
Lemma step_spec (a : action) (t : job_table) :
  fresh_counter t ->
  fresh_counter (snd (step a t))
  /\ (forall jid, settled jid t -> settled jid (snd (step a t)))
  /\ match fst (step a t) with
     | Some jid => jid = _next_job_id t
                   /\ _next_job_id (snd (step a t)) = _next_job_id t + 1
     | None => _next_job_id (snd (step a t)) = _next_job_id t
     end.
Proof.
  intros Hfresh. destruct a as [ps c|reaped|jid waitpid]; cbn [step].
  - destruct (register_spec ps c Running t Hfresh) as (H1 & H2 & H3 & _ & H5).
    destruct (_register_job ps c Running t) as [jid t']. cbn [fst snd] in *.
    auto.
  - cbn [fst snd]. pose proof (sigchld_keeps reaped t) as Hk.
    split; [eapply keeps_fresh; eauto|]. destruct Hk as (Hn & _ & Hs). auto.
  - cbn [fst snd]. pose proof (fg_keeps waitpid jid t) as Hk.
    split; [eapply keeps_fresh; eauto|]. destruct Hk as (Hn & _ & Hs). auto.
Qed.

(** The identifiers issued by a run are the successive values of the
    counter. *)
Lemma run_spec (acts : list action) :
  forall t,
    fresh_counter t ->
    let ids := fst (run acts t) in
    let t' := snd (run acts t) in
    fresh_counter t'
    /\ (forall jid, settled jid t -> settled jid t')
    /\ ids = map (fun i => _next_job_id t + Z.of_nat i) (seq 0 (length ids))
    /\ _next_job_id t' = _next_job_id t + Z.of_nat (length ids).
Proof.
  induction acts as [|a acts IH]; intros t Hfresh; cbn [run].
  - cbn. repeat split; auto. lia.
  - destruct (step_spec a t Hfresh) as (Hf1 & Hs1 & Hid).
    destruct (step a t) as [r t1]. cbn [fst snd] in *.
    destruct (IH t1 Hf1) as (Hf2 & Hs2 & Hids & Hn).
    destruct (run acts t1) as [ids t2]. cbn [fst snd] in *.
    split; [assumption|]. split; [auto|].
    destruct r as [jid|].
    + destruct Hid as [-> Hn1]. cbn [length seq map]. split.
      * f_equal; [lia|]. rewrite <- seq_shift, map_map.
        rewrite Hids at 1. apply map_ext. intros i. lia.
      * lia.
    + split; [|lia]. rewrite Hids at 1. apply map_ext. intros i. lia.
Qed.

Lemma initial_fresh : fresh_counter initial_table.
Proof. intros jid H. now cbn in H. Qed.

Lemma count_up_sorted (a : Z) (n : nat) :
  forall s, StronglySorted Z.lt (map (fun i => a + Z.of_nat i) (seq s n)).
Proof.
  induction n as [|n IH]; intros s; cbn [seq map]; constructor.
  - apply IH.
  - apply Forall_forall. intros x Hx. apply in_map_iff in Hx as (i & <- & Hi).
    apply in_seq in Hi. lia.
Qed.

Lemma sorted_nodup (l : list Z) : StronglySorted Z.lt l -> NoDup l.
Proof.
  induction 1 as [|a l _ IH Hall]; constructor; [|assumption].
  intros Hin. rewrite Forall_forall in Hall. specialize (Hall a Hin). lia.
Qed.

End JobFacts.

(** [C6] Whatever registrations, child notifications and [fg] calls make up
    the interpreter's life, the identifiers [_register_job] returns are 1,
    2, 3, ... in registration order: the first is 1, they increase strictly
    and none is issued twice, whatever status the jobs have reached. *)
Theorem register_job_ids_increase :
  forall acts : list action,
    let ids := fst (run acts initial_table) in
    ids = map (fun i => 1 + Z.of_nat i)%Z (seq 0 (length ids))
    /\ hd 1%Z ids = 1%Z
    /\ StronglySorted Z.lt ids
    /\ NoDup ids.
Proof.
  intros acts ids.
  destruct (run_spec acts initial_table initial_fresh) as (_ & _ & Hids & _).
  fold ids in Hids. cbn [initial_table _next_job_id] in Hids.
  assert (Hsorted : StronglySorted Z.lt ids)
    by (rewrite Hids; apply count_up_sorted).
  repeat split.
  - exact Hids.
  - rewrite Hids. destruct (length ids); reflexivity.
  - exact Hsorted.
  - now apply sorted_nodup.
Qed.

(** [C7] As stated the claim fails: a background job of processes 10 and 11
    is [done (0)] once 11 has exited, and goes back to [stopped] when 10 is
    then killed by a signal. *)
Lemma job_status_reverses_counterexample :
  status_of 1 (snd (run two_reaps initial_table)) = Some (DoneWith 0)
  /\ status_of 1 (snd (run three_reaps initial_table)) = Some Stopped
  /\ (rank Stopped < rank (DoneWith 0))%Z.
Proof. repeat split. Qed.

(** [C7], amended: a job is registered as running, and once the notifier or
    [fg] has moved its status away from running, no later registration,
    notification or [fg] call brings it back to running; the job stays in
    the table. *)
Theorem job_status_never_back_to_running :
  forall (before after : list action) (jid : Z),
    let t := snd (run before initial_table) in
    settled jid t ->
    settled jid (snd (run after t)).
Proof.
  intros before after jid t Hs.
  destruct (run_spec before initial_table initial_fresh) as (Hfresh & _).
  destruct (run_spec after t Hfresh) as (_ & Hkeep & _).
  now apply Hkeep.
Qed.

Lemma job_status_never_back_to_running_witness :
  settled 1 (snd (run two_reaps initial_table))
  /\ settled 1 (snd (run [Sigchld [(10, 13)%Z]; Register [12%Z] "ls";
                           Fg 2 waitpid_at_once]
                          (snd (run two_reaps initial_table)))).
Proof.
  assert (H : settled 1 (snd (run two_reaps initial_table))).
  { exists (mkJob [10; 11]%Z "yes | head" (DoneWith 0)).
    split; [reflexivity|discriminate]. }
  split; [exact H|].
  apply (job_status_never_back_to_running two_reaps
           [Sigchld [(10, 13)%Z]; Register [12%Z] "ls";
                           Fg 2 waitpid_at_once] 1 H).
Defined.

(** ** Pipeline executor *)

Section ExecutorFacts.

Variable os : OS.

Lemma skipn_exact {A} (l l' : list A) : skipn (length l) (l ++ l') = l'.
Proof. induction l as [|a l IH]; [reflexivity|exact IH]. Qed.

Lemma added_exact (w0 w1 : world) (evs : list event) :
  trace w1 = trace w0 ++ evs -> added w0 w1 = evs.
Proof. unfold added. intros ->. apply skipn_exact. Qed.

Lemma said_exact (w0 w1 : world) (msgs : list message) :
  printed (table w1) = printed (table w0) ++ msgs -> said w0 w1 = msgs.
Proof. unfold said. intros ->. apply skipn_exact. Qed.

Lemma launched_app (a b : list event) : launched (a ++ b) = launched a ++ launched b.
Proof. apply flat_map_app. Qed.

Lemma killed_app (a b : list event) : killed (a ++ b) = killed a ++ killed b.
Proof. apply flat_map_app. Qed.

Lemma failed_app (a b : list event) : failed (a ++ b) = failed a ++ failed b.
Proof. apply filter_app. Qed.

Lemma waits_app (a b : list event) : waits (a ++ b) = waits a ++ waits b.
Proof. apply filter_app. Qed.

Lemma kills_summary (ps : list Z) :
  launched (map EKill ps) = [] /\ failed (map EKill ps) = []
  /\ waits (map EKill ps) = [] /\ killed (map EKill ps) = ps
  /\ no_open (map EKill ps).
Proof.
  induction ps as [|p ps (H1 & H2 & H3 & H4 & H5)].
  - repeat (split; [reflexivity|]). intros p m r H. destruct H.
  - repeat split; cbn; try assumption.
    + fold (killed (map EKill ps)). now rewrite H4.
    + intros q m r [H|H]; [discriminate|]. now apply (H5 q m r).
Qed.

Lemma closes_summary (fds : list Z) :
  launched (map ECloseFile fds) = [] /\ failed (map ECloseFile fds) = []
  /\ waits (map ECloseFile fds) = [] /\ killed (map ECloseFile fds) = []
  /\ no_open (map ECloseFile fds)
  /\ forall idx args i o r, ~ In (EPopen idx args i o r) (map ECloseFile fds).
Proof.
  induction fds as [|p ps (H1 & H2 & H3 & H4 & H5 & H6)].
  - repeat (split; [reflexivity|]).
    split; [intros p m r H|intros idx args i o r H]; destruct H.
  - repeat split; cbn; try assumption.
    + intros q m r [H|H]; [discriminate|]. now apply (H5 q m r).
    + intros idx args i o r [H|H]; [discriminate|]. now apply (H6 idx args i o r).
Qed.

Lemma kill_all_spec (ps : list process) :
  forall w0,
    trace (kill_all ps w0) = trace w0 ++ map EKill (map pid ps)
    /\ table (kill_all ps w0) = table w0.
Proof.
  unfold kill_all. induction ps as [|p ps IH]; intros w0; cbn [fold_left map].
  - now rewrite app_nil_r.
  - destruct (IH (log (EKill (pid p)) w0)) as [Ht Hb]. rewrite Ht, Hb.
    cbn. now rewrite <- app_assoc.
Qed.

Lemma close_files_spec (f : frame) :
  exists fds,
    trace (close_files f) = trace (w f) ++ map ECloseFile fds
    /\ table (close_files f) = table (w f).
Proof.
  unfold close_files.
  destruct (in_file f) as [a|], (out_file f) as [b|].
  - exists [a; b]. cbn. now rewrite <- app_assoc.
  - exists [a]. now cbn.
  - exists [b]. now cbn.
  - exists []. cbn. now rewrite app_nil_r.
Qed.

(** [choose_stdin] touches the frame only through one [open]. *)
Lemma choose_stdin_spec (idx : nat) (cmd : command) (f : frame) :
  let s := fst (choose_stdin os idx cmd f) in
  let f1 := snd (choose_stdin os idx cmd f) in
  exists evs msgs,
    stdin_case idx s evs msgs
    /\ trace (w f1) = trace (w f) ++ evs
    /\ printed (table (w f1)) = printed (table (w f)) ++ msgs
    /\ _jobs (table (w f1)) = _jobs (table (w f))
    /\ _next_job_id (table (w f1)) = _next_job_id (table (w f))
    /\ procs f1 = procs f
    /\ prev_proc f1 = prev_proc f.
Proof.
  unfold choose_stdin, stdin_case.
  destruct (Nat.eqb idx 0 && truthy (in_ cmd)) eqn:Hc.
  - apply andb_true_iff in Hc as [Hidx _]. apply Nat.eqb_eq in Hidx.
    unfold _open_for_read.
    destruct (os_open os (trace (w f)) (path_of (in_ cmd)) ReadBinary) as [fd|e];
      cbn.
    + exists [EOpen (path_of (in_ cmd)) ReadBinary (Opened fd)], [].
      rewrite app_nil_r. split; [right; left; eauto|repeat split].
    + exists [EOpen (path_of (in_ cmd)) ReadBinary (OpenFailed e)],
             [RedirectionErrorInput e].
      split; [right; right; do 2 eexists; repeat split; assumption|repeat split].
  - exists [], []. split; [now left|].
    destruct (prev_proc f) eqn:Hp; cbn; rewrite !app_nil_r; repeat split; auto.
Qed.

(** [choose_stdout] touches the frame only through one [open]. *)
Lemma choose_stdout_spec (n idx : nat) (cmd : command) (f : frame) :
  let s := fst (choose_stdout os n idx cmd f) in
  let f1 := snd (choose_stdout os n idx cmd f) in
  exists evs msgs,
    stdout_case n idx s evs msgs
    /\ trace (w f1) = trace (w f) ++ evs
    /\ printed (table (w f1)) = printed (table (w f)) ++ msgs
    /\ _jobs (table (w f1)) = _jobs (table (w f))
    /\ _next_job_id (table (w f1)) = _next_job_id (table (w f))
    /\ procs f1 = procs f
    /\ prev_proc f1 = prev_proc f.
Proof.
  unfold choose_stdout, stdout_case.
  destruct (Nat.eqb idx (n - 1) && truthy (out cmd)) eqn:Hc.
  - apply andb_true_iff in Hc as [Hidx _]. apply Nat.eqb_eq in Hidx.
    unfold _open_for_write.
    set (m := if append cmd then AppendBinary else WriteBinary).
    assert (Hm : m <> ReadBinary) by (subst m; destruct (append cmd); discriminate).
    destruct (os_open os (trace (w f)) (path_of (out cmd)) m) as [fd|e]; cbn.
    + exists [EOpen (path_of (out cmd)) m (Opened fd)], [].
      rewrite app_nil_r. split; [right; left; eauto|repeat split].
    + exists [EOpen (path_of (out cmd)) m (OpenFailed e)],
             [RedirectionErrorOutput e].
      split; [right; right; do 3 eexists; repeat split; assumption|repeat split].
  - exists [], []. split; [now left|].
    destruct (negb (Nat.eqb idx (n - 1))); cbn; rewrite !app_nil_r; repeat split.
Qed.

Lemma stdin_case_quiet (idx : nat) (s : stream) (evs : list event)
    (msgs : list message) :
  stdin_case idx s evs msgs ->
  launched evs = [] /\ failed evs = [] /\ killed evs = [] /\ waits evs = [].
Proof.
  intros [(-> & _)|[(p & fd & -> & _)|(p & e & -> & _)]]; repeat split.
Qed.

Lemma stdout_case_quiet (n idx : nat) (s : stream) (evs : list event)
    (msgs : list message) :
  stdout_case n idx s evs msgs ->
  launched evs = [] /\ failed evs = [] /\ killed evs = [] /\ waits evs = [].
Proof.
  intros [(-> & _)|[(p & m & fd & -> & _)|(p & m & e & _ & -> & _)]]; repeat split.
Qed.

(** The failed opens of a stage are reported and the stage is launched
    with the shell's own stream. *)
Lemma opens_ok_stage (n idx : nat) (args : list string) (r : popen_result)
    (s_in s_out : stream) (evs0 evs_in evs_out tail : list event)
    (msgs0 msgs_in msgs_out msgs_tail : list message) :
  opens_ok n evs0 msgs0 ->
  stdin_case idx s_in evs_in msgs_in ->
  stdout_case n idx s_out evs_out msgs_out ->
  no_open tail ->
  opens_ok n (evs0 ++ evs_in ++ evs_out ++ EPopen idx args s_in s_out r :: tail)
             (msgs0 ++ msgs_in ++ msgs_out ++ msgs_tail).
Proof.
  intros H0 Hin Hout Htail p m e Hev.
  rewrite !in_app_iff in Hev. cbn [In] in Hev.
  destruct Hev as [Hev|[Hev|[Hev|[Hev|Hev]]]].
  - destruct (H0 p m e Hev) as (Hmsg & args' & i & o & r' & Hp & Hs).
    split; [rewrite in_app_iff; now left|].
    exists args', i, o, r'. split; [rewrite in_app_iff; now left|exact Hs].
  - destruct Hin as [(-> & _)|[(p' & fd & -> & _)|(p' & e' & -> & -> & -> & ->)]].
    + destruct Hev.
    + destruct Hev as [Hev|[]]; discriminate.
    + destruct Hev as [Hev|[]]. injection Hev as -> <- ->.
      split; [rewrite !in_app_iff; right; left; now left|].
      exists args, Inherit, s_out, r. split; [|reflexivity].
      rewrite !in_app_iff. cbn. auto.
  - destruct Hout as [(-> & _)|[(p' & m' & fd & -> & _)
                              |(p' & m' & e' & Hm & -> & -> & -> & ->)]].
    + destruct Hev.
    + destruct Hev as [Hev|[]]; discriminate.
    + destruct Hev as [Hev|[]]. injection Hev as -> -> ->.
      assert (Hmsg : open_error m e = RedirectionErrorOutput e)
        by (destruct m; [contradiction|reflexivity..]).
      assert (Hst : redirected_stage n m = n - 1)
        by (destruct m; [contradiction|reflexivity..]).
      assert (Hsm : redirected_stream m s_in Inherit = Inherit)
        by (destruct m; [contradiction|reflexivity..]).
      rewrite Hmsg, Hst.
      split; [rewrite !in_app_iff; right; right; left; now left|].
      exists args, s_in, Inherit, r. split; [|exact Hsm].
      rewrite !in_app_iff. cbn. auto.
  - discriminate.
  - exfalso. exact (Htail _ _ _ Hev).
Qed.

Ltac conj7 := split; [|split; [|split; [|split; [|split; [|split]]]]].

(** One iteration keeps the loop steady or returns after a failed launch. *)
Lemma stage_spec (n idx : nat) (cmd : command) (f : frame) (w0 : world)
    (evs0 : list event) (msgs0 : list message) :
  steady n w0 f evs0 msgs0 ->
  match stage os n idx cmd f with
  | Continue f' => exists evs msgs, steady n w0 f' evs msgs
  | Return f' => aborted n w0 f'
  end.
Proof.
  intros Hsteady.
  unfold stage. destruct (negb (nonempty (argv cmd))).
  { exists evs0, msgs0. exact Hsteady. }
  destruct Hsteady
    as (Htr & Hpr & Hjobs & Hnext & Hpids & (Hq1 & Hq2 & Hq3) & Hopens).
  destruct (choose_stdin_spec idx cmd f)
    as (evs_in & msgs_in & Hcin & Htr1 & Hpr1 & Hj1 & Hn1 & Hp1 & Hv1).
  destruct (choose_stdin os idx cmd f) as [s_in f1]. cbn [fst snd] in *.
  destruct (choose_stdout_spec n idx cmd f1)
    as (evs_out & msgs_out & Hcout & Htr2 & Hpr2 & Hj2 & Hn2 & Hp2 & Hv2).
  destruct (choose_stdout os n idx cmd f1) as [s_out f2]. cbn [fst snd] in *.
  destruct (stdin_case_quiet _ _ _ _ Hcin) as (Hi1 & Hi2 & Hi3 & Hi4).
  destruct (stdout_case_quiet _ _ _ _ _ Hcout) as (Ho1 & Ho2 & Ho3 & Ho4).
  assert (Htrace : trace (w f2) = trace w0 ++ evs0 ++ evs_in ++ evs_out)
    by (rewrite Htr2, Htr1, Htr, <- !app_assoc; reflexivity).
  assert (Hprint : printed (table (w f2))
                   = printed (table w0) ++ msgs0 ++ msgs_in ++ msgs_out)
    by (rewrite Hpr2, Hpr1, Hpr, <- !app_assoc; reflexivity).
  assert (Hprocs : map pid (procs f2) = launched (evs0 ++ evs_in ++ evs_out))
    by (rewrite !launched_app, Hi1, Ho1, !app_nil_r; congruence).
  assert (Hquiet : quiet (evs0 ++ evs_in ++ evs_out)).
  { unfold quiet. rewrite !failed_app, !killed_app, !waits_app.
    rewrite Hq1, Hq2, Hq3, Hi2, Hi3, Hi4, Ho2, Ho3, Ho4. repeat split. }
  assert (Hj : _jobs (table (w f2)) = _jobs (table w0)) by congruence.
  assert (Hn : _next_job_id (table (w f2)) = _next_job_id (table w0))
    by congruence.
  set (r := os_popen os (trace (w f2)) (argv cmd) s_in s_out).
  destruct r as [child| |e] eqn:Hr.
  - set (tail := match prev_proc f2 with
                 | Some p => if stdout_pipe p then [EClosePipe (pid p)] else []
                 | None => []
                 end).
    set (ev := EPopen idx (argv cmd) s_in s_out (Launched child)).
    exists (evs0 ++ evs_in ++ evs_out ++ ev :: tail),
           (msgs0 ++ msgs_in ++ msgs_out ++ []).
    assert (Htail : launched tail = [] /\ failed tail = [] /\ killed tail = []
                    /\ waits tail = [] /\ no_open tail).
    { subst tail. destruct (prev_proc f2) as [p|]; [destruct (stdout_pipe p)|];
        repeat (split; [reflexivity|]); intros q m r' H;
        repeat (destruct H as [H|H]; [discriminate|]); destruct H. }
    destruct Htail as (Ht1 & Ht2 & Ht3 & Ht4 & Ht5).
    assert (Hw : forall w3,
               trace (match prev_proc f2 with
                      | Some p => if stdout_pipe p
                                  then log (EClosePipe (pid p)) w3 else w3
                      | None => w3
                      end) = trace w3 ++ tail
               /\ table (match prev_proc f2 with
                         | Some p => if stdout_pipe p
                                     then log (EClosePipe (pid p)) w3 else w3
                         | None => w3
                         end) = table w3).
    { intros w3. subst tail.
      destruct (prev_proc f2) as [p|]; [destruct (stdout_pipe p)|]; cbn;
        rewrite ?app_nil_r; split; reflexivity. }
    unfold steady. cbn [w procs].
    destruct (Hw (log ev (w f2))) as [Hw1 Hw2]. fold ev. rewrite Hw1, Hw2.
    cbn [log trace table].
    change (ev :: tail) with ([ev] ++ tail).
    conj7.
    + rewrite Htrace, <- !app_assoc. reflexivity.
    + rewrite app_nil_r. exact Hprint.
    + exact Hj.
    + exact Hn.
    + rewrite map_app, Hprocs, !launched_app, Ht1. cbn.
      now rewrite <- !app_assoc.
    + destruct Hquiet as (Hf & Hk & Hwt).
      rewrite !failed_app, !killed_app, !waits_app in *.
      unfold quiet. rewrite !failed_app, !killed_app, !waits_app.
      rewrite Hq1, Hq2, Hq3, Hi2, Hi3, Hi4, Ho2, Ho3, Ho4, Ht2, Ht3, Ht4.
      repeat split.
    + now apply opens_ok_stage.
  - exists (evs0 ++ evs_in ++ evs_out), (msgs0 ++ msgs_in ++ msgs_out),
           ((msgs0 ++ msgs_in ++ msgs_out) ++ [CommandNotFound (hd EmptyString (argv cmd))]),
           idx, (argv cmd), s_in, s_out, FileNotFound.
    cbn [w].
    destruct (kill_all_spec (procs f2)
                (say (CommandNotFound (hd EmptyString (argv cmd)))
                   (log (EPopen idx (argv cmd) s_in s_out FileNotFound) (w f2))))
      as [Hkt Hkb].
    rewrite Hkt, Hkb. cbn [say log trace table print printed _jobs _next_job_id].
    conj7; try assumption.
    + rewrite Htrace, Hprocs, <- !app_assoc. reflexivity.
    + rewrite Hprint, <- !app_assoc. reflexivity.
    + reflexivity.
    + replace (msgs0 ++ msgs_in ++ msgs_out)
        with (msgs0 ++ msgs_in ++ msgs_out ++ []) by now rewrite app_nil_r.
      rewrite <- !app_assoc. apply opens_ok_stage; try assumption.
      intros p m r' H. destruct H.
  - exists (evs0 ++ evs_in ++ evs_out), (msgs0 ++ msgs_in ++ msgs_out),
           ((msgs0 ++ msgs_in ++ msgs_out) ++ [FailedToExecute (argv cmd) e]),
           idx, (argv cmd), s_in, s_out, (OtherError e).
    cbn [w].
    destruct (kill_all_spec (procs f2)
                (say (FailedToExecute (argv cmd) e)
                   (log (EPopen idx (argv cmd) s_in s_out (OtherError e)) (w f2))))
      as [Hkt Hkb].
    rewrite Hkt, Hkb. cbn [say log trace table print printed _jobs _next_job_id].
    conj7; try assumption.
    + rewrite Htrace, Hprocs, <- !app_assoc. reflexivity.
    + rewrite Hprint, <- !app_assoc. reflexivity.
    + reflexivity.
    + replace (msgs0 ++ msgs_in ++ msgs_out)
        with (msgs0 ++ msgs_in ++ msgs_out ++ []) by now rewrite app_nil_r.
      rewrite <- !app_assoc. apply opens_ok_stage; try assumption.
      intros p m r' H. destruct H.
Qed.

Lemma stages_spec (cmds : list command) :
  forall (n idx : nat) (f : frame) (w0 : world) evs0 msgs0,
    steady n w0 f evs0 msgs0 ->
    match stages os n idx cmds f with
    | Continue f' => exists evs msgs, steady n w0 f' evs msgs
    | Return f' => aborted n w0 f'
    end.
Proof.
  induction cmds as [|cmd rest IH]; intros n idx f w0 evs0 msgs0 Hs; cbn [stages].
  - eauto.
  - pose proof (stage_spec n idx cmd f w0 evs0 msgs0 Hs) as H.
    destruct (stage os n idx cmd f) as [f'|f']; [|exact H].
    destruct H as (evs & msgs & H). now apply (IH n (S idx) f' w0 evs msgs).
Qed.

Lemma opens_ok_extend (n : nat) (evs evs' : list event) (msgs msgs' : list message) :
  opens_ok n evs msgs -> no_open evs' -> opens_ok n (evs ++ evs') (msgs ++ msgs').
Proof.
  intros H Hno p m e Hev. apply in_app_iff in Hev as [Hev|Hev].
  - destruct (H p m e Hev) as (Hmsg & args & i & o & r & Hp & Hs).
    split; [apply in_app_iff; now left|].
    exists args, i, o, r. split; [apply in_app_iff; now left|exact Hs].
  - exfalso. exact (Hno _ _ _ Hev).
Qed.

Lemma no_open_app (a b : list event) : no_open a -> no_open b -> no_open (a ++ b).
Proof.
  intros Ha Hb p m r H. apply in_app_iff in H as [H|H]; [exact (Ha _ _ _ H)|exact (Hb _ _ _ H)].
Qed.

Lemma no_open_cons (e : event) (l : list event) :
  (forall p m r, e <> EOpen p m r) -> no_open l -> no_open (e :: l).
Proof.
  intros He Hl p m r [H|H]; [exact (He _ _ _ H)|exact (Hl _ _ _ H)].
Qed.

Lemma last_cons {A} (l : list A) :
  forall a d, last (a :: l) d = last l a.
Proof.
  induction l as [|b l IH]; intros a d; [reflexivity|].
  change (last (a :: b :: l) d) with (last (b :: l) d).
  rewrite !IH. reflexivity.
Qed.

Lemma last_map_pid (ps : list process) (p0 : process) (d : Z) :
  last (map pid (p0 :: ps)) d = pid (last ps p0).
Proof.
  cbn [map]. rewrite last_cons. revert p0.
  induction ps as [|p ps IH]; intros p0; [reflexivity|].
  cbn [map]. rewrite !last_cons. apply IH.
Qed.

Lemma initial_steady (n : nat) (w0 : world) :
  steady n w0 (start w0) [] [].
Proof.
  unfold steady, quiet. cbn. rewrite !app_nil_r.
  repeat (split; [repeat split; reflexivity|]). intros p m e H. destruct H.
Qed.

(** Every run of [run_pipeline] ends in one of the five ways of
    [run_result], and every failed [open] is reported and followed by the
    launch of its stage. *)
Lemma run_pipeline_spec (cmds : list command) (w0 : world) :
  run_result os cmds w0 (fst (run_pipeline os cmds w0))
                        (snd (run_pipeline os cmds w0))
  /\ opens_ok (length cmds) (added w0 (snd (run_pipeline os cmds w0)))
                            (said w0 (snd (run_pipeline os cmds w0))).
Proof.
  unfold run_pipeline.
  pose proof (stages_spec cmds (length cmds) 0 _ w0 [] []
                (initial_steady (length cmds) w0)) as H.
  destruct (stages os (length cmds) 0 cmds (start w0)) as [f|f] eqn:Hst.
  - destruct H as (evs & msgs & Htr & Hpr & Hj & Hn & Hpids & Hq & Hopens).
    unfold complete.
    destruct f as [fprocs fprev fin fout [[fjobs fnext fprinted] ftrace]].
    cbn [w table trace printed _jobs _next_job_id procs prev_proc in_file
           out_file] in *.
    subst fjobs fnext fprinted ftrace.
    destruct fprocs as [|p0 ps].
    + cbn [fst snd].
      destruct (close_files_spec
                  {| procs := []; prev_proc := fprev; in_file := fin;
                     out_file := fout;
                     w := {| table := {| _jobs := _jobs (table w0);
                                         _next_job_id := _next_job_id (table w0);
                                         printed := printed (table w0) ++ msgs |};
                             trace := trace w0 ++ evs |} |})
        as (fds & Hct & Hcb).
      destruct (closes_summary fds) as (_ & _ & _ & _ & Hno & _).
      cbn [w table trace] in Hct, Hcb.
      split.
      * apply (NothingLaunched os cmds w0 evs fds); try assumption.
        -- now rewrite <- Hpids.
        -- apply added_exact. rewrite Hct, <- app_assoc. reflexivity.
        -- now rewrite Hcb.
        -- now rewrite Hcb.
      * erewrite added_exact by (rewrite Hct, <- app_assoc; reflexivity).
        erewrite said_exact by (rewrite Hcb; reflexivity).
        rewrite <- (app_nil_r msgs). now apply opens_ok_extend.
    + assert (Hne : launched evs <> []) by (rewrite <- Hpids; discriminate).
      assert (Hlast : pid (last ps p0) = last (launched evs) 0%Z)
        by (rewrite <- Hpids; symmetry; apply last_map_pid).
      destruct (bg (last cmds fresh_command)) eqn:Hbg.
      * cbn [_register_job fst snd table _next_job_id _jobs printed trace].
        rewrite Hpids.
        match goal with
        | |- run_result _ _ _ _ (close_files ?f') /\ _ =>
            destruct (close_files_spec f') as (fds & Hct & Hcb)
        end.
        destruct (closes_summary fds) as (_ & _ & _ & _ & Hno & _).
        cbn [w say table trace print printed _jobs _next_job_id] in Hct, Hcb.
        split.
        -- apply (Background os cmds w0 evs msgs fds); try assumption.
           ++ apply added_exact. rewrite Hct, <- app_assoc. reflexivity.
           ++ apply said_exact. rewrite Hcb. cbn [print printed].
              now rewrite <- app_assoc.
           ++ rewrite Hcb. reflexivity.
           ++ rewrite Hcb. reflexivity.
        -- erewrite added_exact by (rewrite Hct, <- app_assoc; reflexivity).
           erewrite said_exact
             by (rewrite Hcb; cbn; rewrite <- app_assoc; reflexivity).
           now apply opens_ok_extend.
      * rewrite Hlast.
        set (lastp := last (launched evs) 0%Z).
        cbn [w trace].
        destruct (os_wait os (trace w0 ++ evs) lastp) as [rc|] eqn:Hwait.
        -- cbn [fst snd].
           match goal with
           | |- run_result _ _ _ _ (close_files ?f') /\ _ =>
               destruct (close_files_spec f') as (fds & Hct & Hcb)
           end.
           destruct (closes_summary fds) as (_ & _ & _ & _ & Hno & _).
           cbn [w log table trace] in Hct, Hcb.
           split.
           ++ apply (ForegroundExited os cmds w0 evs fds rc _ _ Hst);
                try assumption; try reflexivity.
              ** apply added_exact. rewrite Hct, <- !app_assoc. reflexivity.
              ** now rewrite Hcb.
              ** now rewrite Hcb.
           ++ erewrite added_exact by (rewrite Hct, <- !app_assoc; reflexivity).
              erewrite said_exact by (rewrite Hcb; reflexivity).
              rewrite <- (app_nil_r msgs).
              apply opens_ok_extend; [assumption|].
              apply no_open_cons; [discriminate|assumption].
        -- cbn [fst snd].
           match goal with
           | |- run_result _ _ _ _ (close_files ?f') /\ _ =>
               destruct (close_files_spec f') as (fds & Hct & Hcb)
           end.
           destruct (closes_summary fds) as (_ & _ & _ & _ & Hno & _).
           destruct (kill_all_spec (p0 :: ps)
                       (log (EWait lastp Interrupted)
                          {| table := {| _jobs := _jobs (table w0);
                                         _next_job_id := _next_job_id (table w0);
                                         printed := printed (table w0) ++ msgs |};
                             trace := trace w0 ++ evs |}))
             as [Hkt Hkb].
           cbn [w] in Hct, Hcb. rewrite Hkt in Hct. rewrite Hkb in Hcb.
           cbn [log trace table] in Hct, Hcb.
           destruct (kills_summary (launched evs)) as (_ & _ & _ & _ & Hnok).
           split.
           ++ apply (ForegroundInterrupted os cmds w0 evs fds); try assumption.
              ** apply added_exact. rewrite Hct, Hpids, <- !app_assoc. reflexivity.
              ** now rewrite Hcb.
              ** now rewrite Hcb.
           ++ erewrite added_exact
                by (rewrite Hct, Hpids, <- !app_assoc; reflexivity).
              erewrite said_exact by (rewrite Hcb; reflexivity).
              rewrite <- (app_nil_r msgs).
              apply opens_ok_extend; [assumption|].
              apply no_open_cons; [discriminate|]. now apply no_open_app.
  - destruct H as (pre & msgs & all & idx & args & i & o & r
                   & Htr & Hpr & Hrep & Hj & Hn & Hq & Hopens).
    cbn [fst snd].
    destruct (close_files_spec f) as (fds & Hct & Hcb).
    destruct (closes_summary fds) as (_ & _ & _ & _ & Hno & _).
    destruct (kills_summary (launched pre)) as (_ & _ & _ & _ & Hnok).
    assert (Hadd : added w0 (close_files f)
                   = pre ++ EPopen idx args i o r
                         :: map EKill (launched pre) ++ map ECloseFile fds)
      by (apply added_exact; rewrite Hct, Htr, <- !app_assoc; reflexivity).
    assert (Hsaid : said w0 (close_files f) = all)
      by (apply said_exact; rewrite Hcb; exact Hpr).
    split.
    + apply (LaunchFailed os cmds w0 pre msgs idx args i o r fds); try assumption.
      * now rewrite Hsaid.
      * now rewrite Hcb.
      * now rewrite Hcb.
    + rewrite Hadd, Hsaid.
      assert (Hall : exists m', all = msgs ++ m')
        by (destruct r; [destruct Hrep|eexists; exact Hrep..]).
      destruct Hall as (m' & ->).
      change (pre ++ EPopen idx args i o r
                  :: map EKill (launched pre) ++ map ECloseFile fds)
        with (pre ++ [EPopen idx args i o r]
                  ++ (map EKill (launched pre) ++ map ECloseFile fds)).
      rewrite app_assoc. apply opens_ok_extend; [assumption|].
      now apply no_open_app.
Qed.

(** A stage with an empty [argv] is passed over. *)
Lemma stages_empty_argv (cmds : list command) :
  Forall (fun c => argv c = []) cmds ->
  forall n idx f, stages os n idx cmds f = Continue f.
Proof.
  induction 1 as [|c cmds Hc _ IH]; intros n idx f; cbn [stages]; [reflexivity|].
  unfold stage. rewrite Hc. cbn. apply IH.
Qed.

(** The loop asks the operating system only to open files and to create
    processes. *)
Lemma stages_ext (os' : OS) (cmds : list command) :
  os_open os' = os_open os ->
  os_popen os' = os_popen os ->
  forall n idx f, stages os' n idx cmds f = stages os n idx cmds f.
Proof.
  intros Ho Hp. induction cmds as [|c cmds IH]; intros n idx f; cbn [stages];
    [reflexivity|].
  assert (Hstage : stage os' n idx c f = stage os n idx c f).
  { unfold stage, choose_stdin, choose_stdout, _open_for_read, _open_for_write.
    rewrite Ho, Hp. reflexivity. }
  rewrite Hstage. destruct (stage os n idx c f); [apply IH|reflexivity].
Qed.

Lemma failed_none (evs : list event) (e : event) :
  failed evs = [] -> In e evs ->
  match e with
  | EPopen _ _ _ _ FileNotFound => False
  | EPopen _ _ _ _ (OtherError _) => False
  | _ => True
  end.
Proof.
  intros Hf Hin.
  destruct e as [| idx args i o [| |]| | | |]; try exact I.
  - assert (H : In (EPopen idx args i o FileNotFound) (failed evs))
      by (apply filter_In; split; [assumption|reflexivity]).
    rewrite Hf in H. destruct H.
  - assert (H : In (EPopen idx args i o (OtherError e)) (failed evs))
      by (apply filter_In; split; [assumption|reflexivity]).
    rewrite Hf in H. destruct H.
Qed.

Lemma no_popen_kills (ps : list Z) idx args i o r :
  ~ In (EPopen idx args i o r) (map EKill ps).
Proof.
  induction ps as [|p ps IH]; [intros []|].
  intros [H|H]; [discriminate|exact (IH H)].
Qed.




End ExecutorFacts.

(** [C9] When every descriptor has an empty [argv], [run_pipeline] returns
    [(False, None)] and leaves the world exactly as it found it: no call to
    the operating system (so no process launched), no job registered,
    nothing printed. *)
Theorem run_pipeline_all_empty_argv :
  forall (os : OS) (cmds : list command) (w0 : world),
    Forall (fun c => argv c = []) cmds ->
    run_pipeline os cmds w0 = ((false, None), w0)
    /\ launched (added w0 (snd (run_pipeline os cmds w0))) = []
    /\ _jobs (table (snd (run_pipeline os cmds w0))) = _jobs (table w0).
Proof.
  intros os cmds w0 Hall.
  assert (Hrun : run_pipeline os cmds w0 = ((false, None), w0)).
  { unfold run_pipeline. rewrite stages_empty_argv by assumption.
    destruct w0 as [t tr]. reflexivity. }
  rewrite Hrun. cbn [snd]. repeat split.
  rewrite (added_exact w0 w0 []) by (now rewrite app_nil_r). reflexivity.
Qed.

Lemma run_pipeline_all_empty_argv_witness :
  run_pipeline os_sample (parse_tokens ["|"; ">"; "out.txt"]) initial_world
  = ((false, None), initial_world).
Proof.
  apply (run_pipeline_all_empty_argv os_sample
           (parse_tokens ["|"; ">"; "out.txt"]) initial_world).
  repeat constructor.
Defined.

(** [C1] When the launch of a stage fails because its program is not found,
    [run_pipeline] prints the error naming that program, kills every process
    it had launched for the earlier stages, in launch order, right after
    the failed launch, waits for none, leaves the job table and the
    identifier counter untouched, and returns [(False, None)]; the only
    calls made after the kills close the redirection files. *)
Theorem run_pipeline_command_not_found :
  forall (os : OS) (cmds : list command) (w0 : world)
         (idx : nat) (args : list string) (i o : stream),
    let res := fst (run_pipeline os cmds w0) in
    let w1 := snd (run_pipeline os cmds w0) in
    In (EPopen idx args i o FileNotFound) (added w0 w1) ->
    res = (false, None)
    /\ In (CommandNotFound (hd EmptyString args)) (said w0 w1)
    /\ (exists pre fds,
          added w0 w1 = pre ++ EPopen idx args i o FileNotFound
                            :: map EKill (launched pre) ++ map ECloseFile fds
          /\ quiet pre)
    /\ killed (added w0 w1) = launched (added w0 w1)
    /\ waits (added w0 w1) = []
    /\ _jobs (table w1) = _jobs (table w0)
    /\ _next_job_id (table w1) = _next_job_id (table w0).
Proof.
  intros os cmds w0 idx args i o res w1 Hin.
  destruct (run_pipeline_spec os cmds w0) as [Hrun _].
  fold res w1 in Hrun. clearbody res w1.
  destruct Hrun as [pre msgs idx' args' i' o' r fds w1 Hq Hrep Hadd Hj Hn
                   |evs fds w1 Hq Hl Hadd Hj Hn
                   |evs msgs fds w1 Hq Hl Hbg Hadd Hsaid Hj Hn
                   |evs fds rc w1 f Hst Htr Hp Hq Hl Hbg Hwait Hadd Hj Hn
                   |evs fds w1 Hq Hl Hbg Hwait Hadd Hj Hn];
    rewrite Hadd in Hin; destruct (closes_summary fds) as (Hc1 & Hc2 & Hc3 & Hc4 & _ & Hc6).
  - apply in_app_iff in Hin as [Hin|[Hin|Hin]].
    + destruct Hq as (Hf & _). destruct (failed_none _ _ Hf Hin).
    + injection Hin as -> -> -> -> ->. cbn in Hrep.
      destruct (kills_summary (launched pre)) as (Hk1 & Hk2 & Hk3 & Hk4 & _).
      destruct Hq as (Hf & Hk & Hw).
      split; [reflexivity|]. split; [rewrite Hrep; apply in_app_iff; right; now left|].
      split; [exists pre, fds; split; [exact Hadd|repeat split; assumption]|].
      rewrite Hadd.
      change (EPopen idx args i o FileNotFound
                :: map EKill (launched pre) ++ map ECloseFile fds)
        with ([EPopen idx args i o FileNotFound]
                ++ map EKill (launched pre) ++ map ECloseFile fds).
      rewrite !killed_app, !launched_app, !waits_app.
      rewrite Hk, Hw, Hk1, Hk3, Hk4, Hc1, Hc3, Hc4. cbn.
      rewrite !app_nil_r. repeat split; assumption.
    + apply in_app_iff in Hin as [Hin|Hin];
        [destruct (no_popen_kills _ _ _ _ _ _ Hin)|destruct (Hc6 _ _ _ _ _ Hin)].
  - apply in_app_iff in Hin as [Hin|Hin].
    + destruct Hq as (Hf & _). destruct (failed_none _ _ Hf Hin).
    + destruct (Hc6 _ _ _ _ _ Hin).
  - apply in_app_iff in Hin as [Hin|Hin].
    + destruct Hq as (Hf & _). destruct (failed_none _ _ Hf Hin).
    + destruct (Hc6 _ _ _ _ _ Hin).
  - apply in_app_iff in Hin as [Hin|[Hin|Hin]].
    + destruct Hq as (Hf & _). destruct (failed_none _ _ Hf Hin).
    + discriminate.
    + destruct (Hc6 _ _ _ _ _ Hin).
  - apply in_app_iff in Hin as [Hin|[Hin|Hin]].
    + destruct Hq as (Hf & _). destruct (failed_none _ _ Hf Hin).
    + discriminate.
    + apply in_app_iff in Hin as [Hin|Hin];
        [destruct (no_popen_kills _ _ _ _ _ _ Hin)|destruct (Hc6 _ _ _ _ _ Hin)].
Qed.

Lemma run_pipeline_command_not_found_witness :
  let cmds := parse_tokens ["cat"; "<"; "f"; "|"; "sort"; "|"; "nope"; "|"; "head"] in
  In (EPopen 2 ["nope"] (FromPipe 102) NewPipe FileNotFound)
     (added initial_world (snd (run_pipeline os_sample cmds initial_world)))
  /\ fst (run_pipeline os_sample cmds initial_world) = (false, None)
  /\ killed (added initial_world (snd (run_pipeline os_sample cmds initial_world)))
     = [101; 102]%Z.
Proof.
  intros cmds.
  assert (Hin : In (EPopen 2 ["nope"] (FromPipe 102) NewPipe FileNotFound)
                   (added initial_world
                      (snd (run_pipeline os_sample cmds initial_world))))
    by (vm_compute; auto 10).
  split; [exact Hin|].
  destruct (run_pipeline_command_not_found os_sample cmds initial_world
              2 ["nope"] (FromPipe 102) NewPipe Hin)
    as (Hres & _ & _ & Hk & _).
  split; [exact Hres|]. rewrite Hk. reflexivity.
Defined.

(** [C2] The claim is what the code is written to do, and what it does as
    long as the exit status is still there to collect: [run_pipeline] waits
    for the last process launched only and returns what [Popen.wait]
    returns.  But the [SIGCHLD] handler of the same file reaps every child
    that has ended, whatever process it is.  For the foreground command
    [sh -c 'exit 3'], launched as process 101 and ended with wait status
    768, the result is the exit code 3 when [Popen.wait] collects the
    status; when the handler has run first, the status is gone,
    [Popen.wait] returns 0 and so does [run_pipeline]. *)
Theorem run_pipeline_foreground_exit_code_lost :
  let cmds := parse_line "sh -c 'exit 3'" in
  let ended := [(101, 768)]%Z in
  let os_first := os_children ended in
  let os_late := os_children (after_reaping ended ended) in
  cmds = [ {| argv := ["sh"; "-c"; "exit 3"]; in_ := None; out := None;
              append := false; bg := false |} ]
  /\ (WIFEXITED 768 = true /\ WEXITSTATUS 768 = 3%Z)
  /\ fst (run_pipeline os_first cmds initial_world) = (false, Some 3%Z)
  /\ _sigchld_handler ended initial_table
     = {| _jobs := []; _next_job_id := 1; printed := [Prompt] |}
  /\ after_reaping ended ended = []
  /\ fst (run_pipeline os_late cmds initial_world) = (false, Some 0%Z)
  /\ added initial_world (snd (run_pipeline os_late cmds initial_world))
     = [EPopen 0 ["sh"; "-c"; "exit 3"] Inherit Inherit (Launched 101);
        EWait 101 (Exited 0)].
Proof. repeat split. Qed.

(** The same loss behind a pipeline: in [gen | sort | head] the exit code 1
    of [head], process 103, is returned when its status is still there, and
    0 is returned once the handler has reaped the three children. *)
Example run_pipeline_pipeline_exit_code_lost :
  let cmds := parse_line "gen | sort | head" in
  let ended := [(101, 0); (102, 0); (103, 256)]%Z in
  fst (run_pipeline (os_children ended) cmds initial_world) = (false, Some 1%Z)
  /\ fst (run_pipeline (os_children (after_reaping ended ended)) cmds initial_world)
     = (false, Some 0%Z).
Proof. repeat split. Qed.







(** * Further properties *)

(** ** Tokenizer *)

Section TokenizerMore.

(** One iteration of the loop, whatever the character read. *)
Lemma tokenize_from_cons (ch : ascii) (rest : string) (tokens : list string) :
  tokenize_from (String ch rest) tokens
  = if isspace ch then tokenize_from rest tokens
    else if Ascii.eqb ch gt_char && next_is_gt rest then
      tokenize_from (skip1 rest) (tokens ++ [">>"%string])
    else if is_special ch then
      tokenize_from rest (tokens ++ [String ch EmptyString])
    else if is_quote ch then
      tokenize_from (snd (scan_quoted ch rest))
                    (tokens ++ [fst (scan_quoted ch rest)])
    else
      tokenize_from (snd (scan_word (String ch rest)))
                    (tokens ++ [fst (scan_word (String ch rest))]).
Proof.
  unfold tokenize_from at 1. cbn [String.length tokenize_loop].
  destruct (isspace ch) eqn:Hs; [apply tokenize_from_fuel; lia|].
  destruct (Ascii.eqb ch gt_char && next_is_gt rest).
  { apply tokenize_from_fuel. destruct rest; cbn; lia. }
  destruct (is_special ch) eqn:Hsp; [apply tokenize_from_fuel; lia|].
  destruct (is_quote ch) eqn:Hq.
  - pose proof (scan_quoted_shorter ch rest) as Hlen.
    destruct (scan_quoted ch rest) as [buf r]. cbn [fst snd] in *.
    apply tokenize_from_fuel; lia.
  - pose proof (scan_word_shorter rest) as Hlen.
    cbn [scan_word]. rewrite Hs, Hsp, Hq. cbn [orb].
    destruct (scan_word rest) as [buf r]. cbn [fst snd] in *.
    apply tokenize_from_fuel; lia.
Qed.

Lemma tokenize_from_nil (tokens : list string) :
  tokenize_from EmptyString tokens = tokens.
Proof. reflexivity. Qed.

(** [scan_word] splits its input into a run of plain characters and the
    rest, which starts with a character that is not plain. *)
Lemma scan_word_split (s : string) :
  s = String.append (fst (scan_word s)) (snd (scan_word s))
  /\ all_chars plain (fst (scan_word s)) = true
  /\ match snd (scan_word s) with
     | EmptyString => True
     | String c _ => plain c = false
     end.
Proof.
  induction s as [|c s (IH1 & IH2 & IH3)]; cbn [scan_word]; [repeat split|].
  destruct (isspace c || is_special c || is_quote c) eqn:Hc.
  - cbn. repeat split. unfold plain. now rewrite Hc.
  - destruct (scan_word s) as [buf r]. cbn [fst snd] in *.
    cbn [String.append all_chars]. unfold plain at 1. rewrite Hc.
    repeat split; [now f_equal|assumption..].
Qed.

Lemma all_chars_append (ok : ascii -> bool) (a b : string) :
  all_chars ok (String.append a b) = all_chars ok a && all_chars ok b.
Proof.
  induction a as [|c a IH]; cbn; [reflexivity|].
  now rewrite IH, andb_assoc.
Qed.

Lemma scan_word_suffix (ok : ascii -> bool) (s : string) :
  all_chars ok s = true -> all_chars ok (snd (scan_word s)) = true.
Proof.
  intros H. destruct (scan_word_split s) as (Hs & _).
  rewrite Hs, all_chars_append in H. now apply andb_true_iff in H as [_ H].
Qed.

Lemma special_is_operator (ch : ascii) :
  is_special ch = true ->
  operator_token (String ch EmptyString) = true /\ isspace ch = false.
Proof.
  unfold is_special. intros H.
  repeat (apply orb_true_iff in H as [H|H]);
    apply Ascii.eqb_eq in H; subst ch; split; reflexivity.
Qed.

Lemma space_is_not_gt (sp : ascii) :
  isspace sp = true -> Ascii.eqb sp gt_char = false.
Proof.
  intros H. destruct (Ascii.eqb_spec sp gt_char) as [->|]; [discriminate|reflexivity].
Qed.

Lemma scan_word_append (sp : ascii) (s b : string) :
  isspace sp = true ->
  scan_word (String.append s (String sp b))
  = (fst (scan_word s), String.append (snd (scan_word s)) (String sp b)).
Proof.
  intros Hsp. induction s as [|c s IH]; cbn [String.append scan_word].
  - now rewrite Hsp.
  - destruct (isspace c || is_special c || is_quote c); [reflexivity|].
    rewrite IH. destruct (scan_word s). reflexivity.
Qed.

Lemma scan_word_stop (w : string) (c : ascii) (r : string) :
  all_chars plain w = true -> plain c = false ->
  scan_word (String.append w (String c r)) = (w, String c r).
Proof.
  intros Hw Hc. induction w as [|a w IH]; cbn [String.append scan_word].
  - unfold plain in Hc. apply negb_false_iff in Hc. now rewrite Hc.
  - cbn [all_chars] in Hw. apply andb_true_iff in Hw as [Ha Hw].
    unfold plain in Ha. apply negb_true_iff in Ha. rewrite Ha, (IH Hw).
    reflexivity.
Qed.

Lemma next_is_gt_append (sp : ascii) (rest b : string) :
  isspace sp = true ->
  next_is_gt (String.append rest (String sp b)) = next_is_gt rest.
Proof.
  intros Hsp. destruct rest; [|reflexivity]. cbn. now apply space_is_not_gt.
Qed.

(** Tokenizing up to a whitespace character, then from it on. *)
Lemma tokenize_from_append (sp : ascii) (b : string) (n : nat) :
  isspace sp = true ->
  forall a tokens,
    String.length a <= n ->
    quote_free a = true ->
    tokenize_from (String.append a (String sp b)) tokens
    = tokenize_from b (tokenize_from a tokens).
Proof.
  intros Hsp. induction n as [|n IH]; intros a tokens Hlen Hqf.
  - destruct a; [|cbn in Hlen; lia]. cbn [String.append].
    now rewrite tokenize_from_cons, Hsp.
  - destruct a as [|ch rest].
    { cbn [String.append]. now rewrite tokenize_from_cons, Hsp. }
    cbn [String.length] in Hlen. unfold quote_free in Hqf. cbn [all_chars] in Hqf.
    apply andb_true_iff in Hqf as [Hq Hrest]. apply negb_true_iff in Hq.
    fold (quote_free rest) in Hrest.
    cbn [String.append]. rewrite !tokenize_from_cons.
    rewrite next_is_gt_append by assumption. rewrite Hq.
    destruct (isspace ch) eqn:Hs; [apply IH; [lia|assumption]|].
    destruct (Ascii.eqb ch gt_char && next_is_gt rest) eqn:Hgt.
    { apply andb_true_iff in Hgt as [_ Hgt].
      destruct rest as [|c r]; [discriminate|]. cbn [String.append skip1].
      cbn [String.length] in Hlen. unfold quote_free in Hrest.
      cbn [all_chars] in Hrest. apply andb_true_iff in Hrest as [_ Hr].
      apply IH; [lia|exact Hr]. }
    destruct (is_special ch) eqn:Hspc; [apply IH; [lia|assumption]|].
    change (String ch (String.append rest (String sp b)))
      with (String.append (String ch rest) (String sp b)).
    rewrite scan_word_append by assumption. cbn [fst snd].
    pose proof (scan_word_shorter rest) as Hshort.
    assert (Hsuffix : quote_free (snd (scan_word (String ch rest))) = true).
    { apply scan_word_suffix. cbn [all_chars]. rewrite Hq. exact Hrest. }
    assert (Hsnd : snd (scan_word (String ch rest)) = snd (scan_word rest)).
    { cbn [scan_word]. rewrite Hs, Hspc, Hq. cbn [orb].
      now destruct (scan_word rest). }
    apply IH; [rewrite Hsnd; lia|exact Hsuffix].
Qed.

End TokenizerMore.

(** [X1] A line made of whitespace only has no tokens: the loop leaves the
    tokens built so far as they are, and [parse_line] gives the empty
    pipeline. *)
Theorem tokenize_blank_line :
  forall (line : string) (tokens : list string),
    all_chars isspace line = true ->
    tokenize_from line tokens = tokens
    /\ tokenize line = []
    /\ parse_line line = [].
Proof.
  intros line tokens H.
  assert (Hfrom : forall tokens', tokenize_from line tokens' = tokens').
  { induction line as [|ch rest IH]; intros tokens'; [reflexivity|].
    cbn [all_chars] in H. apply andb_true_iff in H as [Hs Hrest].
    rewrite tokenize_from_cons, Hs. now apply IH. }
  split; [apply Hfrom|].
  assert (Htok : tokenize line = []) by apply Hfrom.
  split; [exact Htok|]. unfold parse_line. now rewrite Htok.
Qed.

Lemma tokenize_blank_line_witness :
  tokenize (String " " (String "009" (String "160" EmptyString))) = [].
Proof.
  apply (tokenize_blank_line
           (String " " (String "009" (String "160" EmptyString))) []).
  reflexivity.
Defined.

(** [X2] An operator character is a token of its own, except that [>]
    directly followed by [>] makes the single token [>>]. *)
Theorem tokenize_operator :
  forall (ch : ascii) (rest : string) (tokens : list string),
    is_special ch = true ->
    tokenize_from (String ch rest) tokens
    = if Ascii.eqb ch gt_char && next_is_gt rest
      then tokenize_from (skip1 rest) (tokens ++ [">>"%string])
      else tokenize_from rest (tokens ++ [String ch EmptyString]).
Proof.
  intros ch rest tokens Hsp.
  destruct (special_is_operator ch Hsp) as [_ Hs].
  rewrite tokenize_from_cons, Hs, Hsp. reflexivity.
Qed.

Lemma tokenize_operator_witness :
  tokenize ">>>|" = [">>"; ">"; "|"]%string.
Proof.
  unfold tokenize.
  rewrite (tokenize_operator ">" ">>|" []) by reflexivity. cbn [andb next_is_gt
    Ascii.eqb gt_char skip1 Bool.eqb app].
  rewrite (tokenize_operator ">" "|" [">>"%string]) by reflexivity.
  cbn [andb next_is_gt Ascii.eqb gt_char skip1 Bool.eqb app].
  rewrite (tokenize_operator "|" EmptyString [">>"; ">"]%string) by reflexivity.
  reflexivity.
Defined.

(** [X3] In a line without quote characters every token is one of the five
    operators or a bareword: non-empty and free of whitespace, operator
    characters and quotes.  In particular no token is empty. *)
Theorem tokenize_quote_free_tokens :
  forall line : string,
    quote_free line = true ->
    Forall (fun t => operator_token t = true \/ bareword t = true) (tokenize line).
Proof.
  intros line. unfold tokenize.
  assert (Hgen : forall n line tokens,
             String.length line <= n ->
             quote_free line = true ->
             Forall (fun t => operator_token t = true \/ bareword t = true) tokens ->
             Forall (fun t => operator_token t = true \/ bareword t = true)
                    (tokenize_from line tokens)).
  { clear line. induction n as [|n IH]; intros line tokens Hlen Hqf Htok.
    - destruct line; [exact Htok|cbn in Hlen; lia].
    - destruct line as [|ch rest]; [exact Htok|].
      cbn [String.length] in Hlen. unfold quote_free in Hqf. cbn [all_chars] in Hqf.
      apply andb_true_iff in Hqf as [Hq Hrest]. apply negb_true_iff in Hq.
      fold (quote_free rest) in Hrest.
      rewrite tokenize_from_cons, Hq.
      destruct (isspace ch) eqn:Hs; [apply IH; [lia|assumption..]|].
      destruct (Ascii.eqb ch gt_char && next_is_gt rest) eqn:Hgt.
      { apply andb_true_iff in Hgt as [_ Hgt].
        destruct rest as [|c r]; [discriminate|]. cbn [skip1].
        cbn [String.length] in Hlen. unfold quote_free in Hrest.
        cbn [all_chars] in Hrest. apply andb_true_iff in Hrest as [_ Hr].
        apply IH; [lia|exact Hr|].
        apply Forall_app. split; [assumption|]. constructor; [now left|constructor]. }
      destruct (is_special ch) eqn:Hspc.
      { apply IH; [lia|assumption|].
        apply Forall_app. split; [assumption|].
        constructor; [left; now apply special_is_operator|constructor]. }
      pose proof (scan_word_shorter rest) as Hshort.
      pose proof (scan_word_suffix (fun c => negb (is_quote c)) rest Hrest) as Hsuf.
      destruct (scan_word_split rest) as (_ & Hplain & _).
      cbn [scan_word]. rewrite Hs, Hspc, Hq. cbn [orb].
      destruct (scan_word rest) as [buf r]. cbn [fst snd] in *.
      apply IH; [lia|exact Hsuf|].
      apply Forall_app. split; [assumption|].
      constructor; [right|constructor].
      cbn [bareword all_chars]. unfold plain at 1. now rewrite Hs, Hspc, Hq. }
  intros Hqf. apply (Hgen (String.length line)); [lia|assumption|constructor].
Qed.

Lemma tokenize_quote_free_tokens_witness :
  Forall (fun t => operator_token t = true \/ bareword t = true)
         (tokenize "ls -l|wc>>n.txt &").
Proof.
  apply (tokenize_quote_free_tokens "ls -l|wc>>n.txt &"). reflexivity.
Defined.

(** [X4] Whitespace separates: when the text before a whitespace character
    has no quote character, the tokens of the line are the tokens of that
    text followed by the tokens of what comes after. *)
Theorem tokenize_split_at_space :
  forall (a b : string) (sp : ascii),
    quote_free a = true ->
    isspace sp = true ->
    tokenize (String.append a (String sp b)) = tokenize a ++ tokenize b.
Proof.
  intros a b sp Hqf Hsp. unfold tokenize.
  rewrite (tokenize_from_append sp b (String.length a) Hsp a []) by (lia || assumption).
  apply tokenize_from_acc.
Qed.

Lemma tokenize_split_at_space_witness :
  tokenize "cat<f | sort -r" = tokenize "cat<f" ++ tokenize "| sort -r".
Proof.
  apply (tokenize_split_at_space "cat<f" "| sort -r" " "); reflexivity.
Defined.

(** [X5] Adjacent fragments are not joined: a bareword directly followed by
    a quoted segment gives two tokens, the word and the quoted text. *)
Theorem tokenize_word_then_quote :
  forall (word body rest : string) (q : ascii),
    bareword word = true ->
    is_quote q = true ->
    has_char q body = false ->
    tokenize (String.append word (String q (String.append body (String q rest))))
    = word :: body :: tokenize rest.
Proof.
  intros word body rest q Hw Hq Hbody.
  destruct word as [|c word']; [discriminate|]. cbn [bareword] in Hw.
  assert (Hc : plain c = true)
    by (cbn [all_chars] in Hw; now apply andb_true_iff in Hw as [Hc _]).
  unfold plain in Hc. apply negb_true_iff in Hc.
  apply orb_false_iff in Hc as [Hc Hcq]. apply orb_false_iff in Hc as [Hcs Hcsp].
  assert (Hgt : Ascii.eqb c gt_char = false).
  { destruct (Ascii.eqb_spec c gt_char) as [->|]; [discriminate|reflexivity]. }
  assert (Hqplain : plain q = false)
    by (unfold plain; rewrite Hq, !orb_true_r; reflexivity).
  unfold tokenize. cbn [String.append].
  rewrite tokenize_from_cons, Hcs, Hgt, Hcsp, Hcq. cbn [andb].
  change (String c (String.append word'
            (String q (String.append body (String q rest)))))
    with (String.append (String c word')
            (String q (String.append body (String q rest)))).
  rewrite (scan_word_stop (String c word') q _ Hw Hqplain). cbn [fst snd app].
  rewrite tokenize_from_quote by assumption.
  rewrite scan_quoted_closed by assumption. cbn [fst snd app].
  apply (tokenize_from_acc rest [String c word'; body]).
Qed.

Lemma tokenize_word_then_quote_witness :
  tokenize (String.append "a" (String squote (String.append "b c" (String squote "d"))))
  = ["a"; "b c"; "d"]%string.
Proof.
  rewrite (tokenize_word_then_quote "a" "b c" "d" squote); reflexivity.
Defined.

(** ** Parser *)

Section ParserMore.

Lemma from_tokens_fresh (T : list string) : from_tokens T fresh_command.
Proof. repeat split; [constructor|discriminate..]. Qed.

(** The loop builds descriptors out of the tokens it reads. *)
Lemma parse_loop_from_tokens (T : list string) (n : nat) :
  forall tokens cmds cur,
    length tokens <= n ->
    incl tokens T ->
    Forall (from_tokens T) cmds ->
    from_tokens T cur ->
    Forall (from_tokens T) (fst (parse_loop tokens cmds cur))
    /\ from_tokens T (snd (parse_loop tokens cmds cur)).
Proof.
  induction n as [|n IH]; intros tokens cmds cur Hn Hincl Hcmds Hcur.
  - destruct tokens; [now split|cbn in Hn; lia].
  - destruct tokens as [|t rest]; [now split|]. cbn [length] in Hn.
    assert (Ht : In t T) by (apply Hincl; now left).
    assert (Hrest : incl rest T) by (intros x Hx; apply Hincl; now right).
    destruct Hcur as (Hargv & Hin & Hout).
    assert (Hskip : forall (set : string -> command),
               (forall p, In p T -> from_tokens T (set p)) ->
               Forall (from_tokens T)
                 (fst match rest with
                      | [] => (cmds, cur)
                      | p :: rest' => parse_loop rest' cmds (set p)
                      end)
               /\ from_tokens T
                    (snd match rest with
                         | [] => (cmds, cur)
                         | p :: rest' => parse_loop rest' cmds (set p)
                         end)).
    { intros set Hset. destruct rest as [|p rest'];
        [split; [assumption|repeat split; assumption]|].
      cbn [length] in Hn. apply IH; [lia| |assumption|].
      - intros x Hx. apply Hrest. now right.
      - apply Hset. apply Hrest. now left. }
    cbn [parse_loop].
    destruct (t =? "|")%string eqn:E1.
    { apply IH; [lia|assumption| |apply from_tokens_fresh].
      apply Forall_app. split; [assumption|].
      constructor; [repeat split; assumption|constructor]. }
    destruct (t =? "<")%string eqn:E2.
    { apply Hskip. intros p Hp. repeat split; cbn; try assumption.
      intros q Hq. now injection Hq as <-. }
    destruct (t =? ">")%string eqn:E3.
    { apply Hskip. intros p Hp. repeat split; cbn; try assumption.
      intros q Hq. now injection Hq as <-. }
    destruct (t =? ">>")%string eqn:E4.
    { apply Hskip. intros p Hp. repeat split; cbn; try assumption.
      intros q Hq. now injection Hq as <-. }
    destruct (t =? "&")%string eqn:E5.
    { apply IH; [lia|assumption..|]. repeat split; assumption. }
    apply IH; [lia|assumption..|]. repeat split; cbn; try assumption.
    apply Forall_app. split; [assumption|].
    constructor; [|constructor]. split; [assumption|].
    unfold is_operator. now rewrite E1, E2, E3, E4, E5.
Qed.

Lemma parse_loop_length (n : nat) :
  forall tokens cmds cur,
    length tokens <= n ->
    length (fst (parse_loop tokens cmds cur)) <= length cmds + count_pipes tokens.
Proof.
  induction n as [|n IH]; intros tokens cmds cur Hn.
  - destruct tokens; [cbn; lia|cbn in Hn; lia].
  - destruct tokens as [|t rest]; [cbn; lia|]. cbn [length] in Hn.
    assert (Hskip : forall cur' : string -> command,
               length (fst match rest with
                           | [] => (cmds, cur)
                           | p :: rest' => parse_loop rest' cmds (cur' p)
                           end)
               <= length cmds + count_pipes rest).
    { intros cur'. destruct rest as [|p rest']; [cbn; lia|].
      cbn [length] in Hn. specialize (IH rest' cmds (cur' p) ltac:(lia)).
      unfold count_pipes in *. cbn [filter].
      destruct (p =? "|")%string; cbn [length]; lia. }
    cbn [parse_loop]. unfold count_pipes in *. cbn [filter].
    destruct (t =? "|")%string.
    { specialize (IH rest (cmds ++ [cur]) fresh_command ltac:(lia)).
      rewrite length_app in IH. cbn [length] in *. lia. }
    destruct (t =? "<")%string; [apply (Hskip (fun p => set_in p cur))|].
    destruct (t =? ">")%string; [apply (Hskip (fun p => set_out p false cur))|].
    destruct (t =? ">>")%string; [apply (Hskip (fun p => set_out p true cur))|].
    destruct (t =? "&")%string; apply IH; lia.
Qed.

Lemma parse_loop_words (tokens : list string) :
  Forall (fun t => is_operator t = false) tokens ->
  forall cmds cur,
    parse_loop tokens cmds cur
    = (cmds, {| argv := argv cur ++ tokens; in_ := in_ cur; out := out cur;
                append := append cur; bg := bg cur |}).
Proof.
  induction 1 as [|t tokens Ht _ IH]; intros cmds cur.
  - cbn. rewrite app_nil_r. now destruct cur.
  - unfold is_operator in Ht. repeat (apply orb_false_iff in Ht as [Ht ?]).
    cbn [parse_loop]. rewrite Ht.
    repeat match goal with H : (t =? _)%string = false |- _ => rewrite H; clear H end.
    rewrite IH. cbn. now rewrite <- app_assoc.
Qed.

End ParserMore.

(** [X6] Whatever the tokens, the words of every [argv] of the pipeline are
    input tokens that are not operators, and every redirection path is an
    input token: the parser invents nothing and lets no operator into an
    argument list. *)
Theorem parse_tokens_from_tokens :
  forall (tokens : list string) (c : command),
    In c (parse_tokens tokens) ->
    from_tokens tokens c.
Proof.
  intros tokens c Hin. unfold parse_tokens in Hin.
  destruct (parse_loop_from_tokens tokens (length tokens) tokens [] fresh_command
              (le_n _) (incl_refl _) (Forall_nil _) (from_tokens_fresh _))
    as [Hcmds Hcur].
  destruct (parse_loop tokens [] fresh_command) as [cmds cur]. cbn [fst snd] in *.
  rewrite Forall_forall in Hcmds.
  destruct (keep cur); [|now apply Hcmds].
  apply in_app_iff in Hin as [Hin|[<-|[]]]; [now apply Hcmds|assumption].
Qed.

Lemma parse_tokens_from_tokens_witness :
  from_tokens ["grep"; "<"; ">"; "x"; "|"; "wc"]
    {| argv := ["grep"; "x"]; in_ := Some ">"%string; out := None;
       append := false; bg := false |}.
Proof.
  apply (parse_tokens_from_tokens ["grep"; "<"; ">"; "x"; "|"; "wc"]).
  cbn. auto.
Defined.

(** [X7] A redirection operator in last position, with no token after it,
    changes nothing: the pipeline is the one parsed without it. *)
Theorem parse_tokens_dangling_redirection :
  forall (first : list item) (others : list (list item)) (op : string),
    Forall item_ok first ->
    Forall (Forall item_ok) others ->
    is_redirection op = true ->
    parse_tokens (pipeline_tokens first others ++ [op])
    = parse_tokens (pipeline_tokens first others).
Proof.
  intros first others op Hfirst Hothers Hop. unfold parse_tokens.
  rewrite parse_loop_pipeline_rest by assumption.
  destruct (parse_loop (pipeline_tokens first others) [] fresh_command)
    as [cmds cur]. cbn [fst snd].
  unfold is_redirection in Hop.
  apply orb_true_iff in Hop as [Hop|Hop];
    [apply orb_true_iff in Hop as [Hop|Hop]|];
    apply String.eqb_eq in Hop; subst op; reflexivity.
Qed.

Lemma parse_tokens_dangling_redirection_witness :
  parse_tokens ["ls"; "|"; "wc"; ">>"] = parse_tokens ["ls"; "|"; "wc"].
Proof.
  apply (parse_tokens_dangling_redirection [Word "ls"] [[Word "wc"]] ">>");
    repeat constructor.
Defined.



(** [X9] A pipeline has at most one stage more than there are pipe
    tokens. *)
Theorem parse_tokens_length :
  forall tokens : list string,
    length (parse_tokens tokens) <= count_pipes tokens + 1.
Proof.
  intros tokens. unfold parse_tokens.
  pose proof (parse_loop_length (length tokens) tokens [] fresh_command (le_n _)) as H.
  destruct (parse_loop tokens [] fresh_command) as [cmds cur]. cbn [fst length] in H.
  destruct (keep cur); [rewrite length_app; cbn [length]|]; lia.
Qed.

(** [X10] Tokens without any operator make one command whose [argv] is the
    token list, with no redirection and no background flag. *)
Theorem parse_tokens_words :
  forall tokens : list string,
    Forall (fun t => is_operator t = false) tokens ->
    tokens <> [] ->
    parse_tokens tokens
    = [ {| argv := tokens; in_ := None; out := None; append := false;
           bg := false |} ].
Proof.
  intros tokens Hall Hne. unfold parse_tokens.
  rewrite parse_loop_words by assumption. cbn.
  destruct tokens; [contradiction|reflexivity].
Qed.

Lemma parse_tokens_words_witness :
  parse_tokens ["echo"; EmptyString; "a b"]
  = [ {| argv := ["echo"; EmptyString; "a b"]; in_ := None; out := None;
         append := false; bg := false |} ].
Proof.
  apply (parse_tokens_words ["echo"; EmptyString; "a b"]);
    [repeat constructor|discriminate].
Defined.

(** ** Job table *)

Section JobsMore.

Local Open Scope Z_scope.

Lemma dict_set_fresh {V} (k : Z) (v : V) (d : list (Z * V)) :
  dict_get k d = None -> dict_set k v d = d ++ [(k, v)].
Proof.
  induction d as [|[k' v'] d IH]; cbn [dict_get dict_set app]; [reflexivity|].
  destruct (k' =? k); [discriminate|]. intros H. now rewrite IH.
Qed.

Lemma dict_set_keys {V} (k : Z) (v : V) (d : list (Z * V)) :
  dict_get k d <> None -> map fst (dict_set k v d) = map fst d.
Proof.
  induction d as [|[k' v'] d IH]; cbn [dict_get dict_set map fst]; [congruence|].
  destruct (k' =? k) eqn:Hk; cbn [map fst].
  - apply Z.eqb_eq in Hk. now subst.
  - intros H. now rewrite IH.
Qed.

Lemma update_scan_keys (pid : Z) (exitcode : option Z) (d : list (Z * job)) :
  map fst (snd (update_scan pid exitcode d)) = map fst d.
Proof.
  induction d as [|[jid info] d IH]; cbn [update_scan]; [reflexivity|].
  destruct (pid_in pid (pids info)); [reflexivity|].
  destruct (update_scan pid exitcode d). cbn [snd map fst] in *. now rewrite IH.
Qed.

Lemma update_scan_unowned (pid : Z) (exitcode : option Z) (d : list (Z * job)) :
  existsb (fun entry => pid_in pid (pids (snd entry))) d = false ->
  update_scan pid exitcode d = (None, d).
Proof.
  induction d as [|[jid info] d IH]; cbn [existsb update_scan snd]; [reflexivity|].
  intros H. apply orb_false_iff in H as [Hinfo Hd].
  now rewrite Hinfo, (IH Hd).
Qed.

Lemma update_scan_first (pid : Z) (exitcode : option Z)
    (before after : list (Z * job)) (jid : Z) (info : job) :
  existsb (fun entry => pid_in pid (pids (snd entry))) before = false ->
  pid_in pid (pids info) = true ->
  update_scan pid exitcode (before ++ (jid, info) :: after)
  = (Some jid,
     before ++ (jid, mkJob (pids info) (cmdline info) (status_of_exitcode exitcode))
            :: after).
Proof.
  intros Hbefore Hinfo.
  induction before as [|[k j] before IH]; cbn [app update_scan].
  - now rewrite Hinfo.
  - cbn [existsb snd] in Hbefore. apply orb_false_iff in Hbefore as [Hj Hb].
    now rewrite Hj, (IH Hb).
Qed.

Lemma same_jobs_refl (t : job_table) : same_jobs t t.
Proof. split; [reflexivity|eauto]. Qed.

Lemma same_jobs_trans (t1 t2 t3 : job_table) :
  same_jobs t1 t2 -> same_jobs t2 t3 -> same_jobs t1 t3.
Proof.
  intros [Hk1 Hj1] [Hk2 Hj2]. split; [congruence|].
  intros jid job H. destruct (Hj1 jid job H) as (job' & H' & Hp & Hc).
  destruct (Hj2 jid job' H') as (job'' & H'' & Hp' & Hc').
  exists job''. repeat split; congruence.
Qed.

Lemma reap_one_same (child : Z * Z) (t : job_table) : same_jobs t (reap_one child t).
Proof.
  destruct (reap_one_jobs child t) as (pid & exitcode & Hj & _).
  split; rewrite Hj; [apply update_scan_keys|].
  intros jid job Hget.
  destruct (update_scan_get pid exitcode (_jobs t) jid) as [H|(info & H1 & H2)].
  - rewrite H. eauto.
  - rewrite H2. rewrite Hget in H1. injection H1 as <-. eauto.
Qed.

Lemma sigchld_same (reaped : list (Z * Z)) :
  forall t, same_jobs t (_sigchld_handler reaped t).
Proof.
  unfold _sigchld_handler.
  induction reaped as [|child reaped IH]; intros t; cbn [fold_left].
  - apply same_jobs_refl.
  - eapply same_jobs_trans; [apply reap_one_same|apply IH].
Qed.

Lemma handle_all_same (signals : list (list (Z * Z))) :
  forall t, same_jobs t (handle_all signals t).
Proof.
  unfold handle_all.
  induction signals as [|reaped signals IH]; intros t; cbn [fold_left].
  - apply same_jobs_refl.
  - eapply same_jobs_trans; [apply sigchld_same|apply IH].
Qed.

Lemma fg_wait_loop_same (waitpid : waitpid_oracle) (ps : list Z) :
  forall made t, same_jobs t (snd (fg_wait_loop waitpid ps made t)).
Proof.
  induction ps as [|p ps IH]; intros made t; cbn [fg_wait_loop].
  - apply same_jobs_refl.
  - pose proof (handle_all_same (during (waitpid made p)) t) as Hk.
    destruct (ending (waitpid made p));
      [eapply same_jobs_trans; [exact Hk|apply IH]..|exact Hk].
Qed.

Lemma handle_all_app (a b : list (list (Z * Z))) (t : job_table) :
  handle_all (a ++ b) t = handle_all b (handle_all a t).
Proof. unfold handle_all. apply fold_left_app. Qed.

Lemma signals_of_app (a b : list (Z * wait_answer)) :
  signals_of (a ++ b) = signals_of a ++ signals_of b.
Proof. unfold signals_of. now rewrite map_app, concat_app. Qed.

Lemma uncut_app (a b : list (Z * wait_answer)) :
  uncut (a ++ b) = uncut a && uncut b.
Proof. unfold uncut. apply forallb_app. Qed.

(** The wait loop: the calls it adds are answered in turn, the table
    changes through the handlers that run during them, and the loop ends
    after the last process or at the first call that is cut short. *)
Lemma fg_wait_loop_spec (waitpid : waitpid_oracle) (ps : list Z) :
  forall made t,
    let '(fin, made', t') := fg_wait_loop waitpid ps made t in
    exists new,
      made' = made ++ new
      /\ t' = handle_all (signals_of new) t
      /\ (forall i c, nth_error new i = Some c ->
                      snd c = waitpid (made ++ firstn i new) (fst c))
      /\ if fin then map fst new = ps /\ uncut new = true
         else exists pre c rest,
                new = pre ++ [c]
                /\ ps = map fst pre ++ fst c :: rest
                /\ uncut pre = true
                /\ cut c = true.
Proof.
  induction ps as [|p ps IH]; intros made t; cbn [fg_wait_loop].
  - exists []. rewrite app_nil_r. repeat split. intros i c Hc. now destruct i.
  - set (a := waitpid made p).
    assert (Hstep : forall fin made' t',
              ending a <> WaitCut ->
              fg_wait_loop waitpid ps (made ++ [(p, a)]) (handle_all (during a) t)
              = (fin, made', t') ->
              exists new,
                made' = made ++ new
                /\ t' = handle_all (signals_of new) t
                /\ (forall i c, nth_error new i = Some c ->
                                snd c = waitpid (made ++ firstn i new) (fst c))
                /\ if fin then map fst new = p :: ps /\ uncut new = true
                   else exists pre c rest,
                          new = pre ++ [c]
                          /\ p :: ps = map fst pre ++ fst c :: rest
                          /\ uncut pre = true
                          /\ cut c = true).
    { intros fin made' t' Hend Heq.
      specialize (IH (made ++ [(p, a)]) (handle_all (during a) t)).
      rewrite Heq in IH. destruct IH as (new & -> & -> & Hans & Hfin).
      assert (Hpa : cut (p, a) = false)
        by (unfold cut; cbn [snd]; destruct (ending a); congruence).
      exists ((p, a) :: new). split; [now rewrite <- app_assoc|].
      split.
      { change ((p, a) :: new) with ([(p, a)] ++ new).
        rewrite signals_of_app, handle_all_app. f_equal.
        unfold signals_of. cbn [map concat snd]. now rewrite app_nil_r. }
      split.
      { intros [|i] c Hc; cbn [nth_error firstn] in *.
        - injection Hc as <-. now rewrite app_nil_r.
        - rewrite (Hans i c Hc), <- app_assoc. reflexivity. }
      destruct fin.
      - destruct Hfin as [Hps Hun]. split; [cbn [map fst]; now rewrite Hps|].
        unfold uncut in *. cbn [forallb]. now rewrite Hpa, Hun.
      - destruct Hfin as (pre & c & rest & -> & -> & Hun & Hc).
        exists ((p, a) :: pre), c, rest. repeat split; [|exact Hc].
        unfold uncut in *. cbn [forallb]. now rewrite Hpa, Hun. }
    destruct (ending a) eqn:Hend.
    + destruct (fg_wait_loop waitpid ps (made ++ [(p, a)]) (handle_all (during a) t))
        as [[fin made'] t'] eqn:Heq.
      apply Hstep; [discriminate|reflexivity].
    + destruct (fg_wait_loop waitpid ps (made ++ [(p, a)]) (handle_all (during a) t))
        as [[fin made'] t'] eqn:Heq.
      apply Hstep; [discriminate|reflexivity].
    + exists [(p, a)]. split; [reflexivity|]. split.
      { unfold signals_of. cbn [map concat snd]. now rewrite app_nil_r. }
      split.
      { intros [|[|i]] c Hc; cbn [nth_error firstn] in *; try discriminate.
        injection Hc as <-. now rewrite app_nil_r. }
      exists [], (p, a), ps. repeat split.
      unfold cut. cbn [snd]. now rewrite Hend.
Qed.

Lemma print_same (m : message) (t : job_table) : same_jobs t (print m t).
Proof. split; cbn; [reflexivity|eauto]. Qed.

Lemma fg_same (waitpid : waitpid_oracle) (jid : Z) (t : job_table) :
  same_jobs t (fg_table (_builtin_fg waitpid jid t)).
Proof.
  unfold _builtin_fg. destruct (dict_get jid (_jobs t)) as [job|] eqn:Hget.
  - pose proof (fg_wait_loop_same waitpid (pids job) []
                  (print (FgBringing jid (cmdline job)) t)) as Hk.
    destruct (fg_wait_loop waitpid (pids job) []
                (print (FgBringing jid (cmdline job)) t)) as [[fin made] t2].
    cbn [snd] in Hk.
    assert (Hk2 : same_jobs t t2)
      by (eapply same_jobs_trans; [apply print_same|exact Hk]).
    destruct fin; cbn [fg_table]; [|exact Hk2].
    destruct Hk2 as [Hkeys Hjobs]. split; cbn [_jobs].
    + rewrite <- Hkeys. apply dict_set_keys.
      destruct (Hjobs jid job Hget) as (job' & Hget' & _). congruence.
    + intros j job0 Hj. rewrite dict_get_set. destruct (jid =? j) eqn:E; [|eauto].
      apply Z.eqb_eq in E. subst j. rewrite Hget in Hj. injection Hj as <-. eauto.
  - cbn [fg_table]. apply print_same.
Qed.

(** A run keeps the entries it finds, with their process sets and command
    lines, and adds one entry per identifier issued, in order. *)
Lemma run_jobs (acts : list action) :
  forall t,
    fresh_counter t ->
    map fst (_jobs (snd (run acts t))) = map fst (_jobs t) ++ fst (run acts t)
    /\ forall jid job,
         dict_get jid (_jobs t) = Some job ->
         exists job',
           dict_get jid (_jobs (snd (run acts t))) = Some job'
           /\ pids job' = pids job /\ cmdline job' = cmdline job.
Proof.
  induction acts as [|a acts IH]; intros t Hfresh; cbn [run].
  - cbn. rewrite app_nil_r. eauto.
  - destruct (step_spec a t Hfresh) as (Hf1 & _).
    assert (Hstep : map fst (_jobs (snd (step a t)))
                    = map fst (_jobs t)
                      ++ match fst (step a t) with Some jid => [jid] | None => [] end
                    /\ forall jid job,
                         dict_get jid (_jobs t) = Some job ->
                         exists job',
                           dict_get jid (_jobs (snd (step a t))) = Some job'
                           /\ pids job' = pids job /\ cmdline job' = cmdline job).
    { destruct a as [ps c|reaped|jid waitpid]; cbn [step fst snd].
      - cbn [_register_job fst snd _jobs].
        assert (Hnone : dict_get (_next_job_id t) (_jobs t) = None).
        { destruct (dict_get (_next_job_id t) (_jobs t)) eqn:E; [|reflexivity].
          assert (_next_job_id t < _next_job_id t) by (apply Hfresh; congruence).
          lia. }
        rewrite dict_set_fresh by assumption. rewrite map_app. split; [reflexivity|].
        intros jid job Hget. exists job. repeat split.
        rewrite <- (dict_set_fresh _ (mkJob ps c Running)) by assumption.
        rewrite dict_get_set.
        destruct (_next_job_id t =? jid) eqn:E; [|assumption].
        apply Z.eqb_eq in E. congruence.
      - destruct (sigchld_same reaped t) as [Hk Hj]. rewrite Hk, app_nil_r. auto.
      - destruct (fg_same waitpid jid t) as [Hk Hj]. rewrite Hk, app_nil_r. auto. }
    destruct Hstep as [Hkeys Hjobs].
    destruct (step a t) as [r t1]. cbn [fst snd] in *.
    destruct (IH t1 Hf1) as [Hkeys2 Hjobs2].
    destruct (run acts t1) as [ids t2]. cbn [fst snd] in *.
    split.
    + rewrite Hkeys2, Hkeys, <- app_assoc. now destruct r.
    + intros jid job Hget. destruct (Hjobs jid job Hget) as (job1 & H1 & Hp & Hc).
      destruct (Hjobs2 jid job1 H1) as (job2 & H2 & Hp2 & Hc2).
      exists job2. repeat split; congruence.
Qed.

Lemma update_status_first (pid : Z) (exitcode : option Z)
    (before after : list (Z * job)) (jid : Z) (info : job) (next : Z)
    (out : list message) :
  existsb (fun entry => pid_in pid (pids (snd entry))) before = false ->
  pid_in pid (pids info) = true ->
  _update_job_status pid exitcode
    {| _jobs := before ++ (jid, info) :: after; _next_job_id := next;
       printed := out |}
  = (Some jid,
     {| _jobs := before
                 ++ (jid, mkJob (pids info) (cmdline info)
                            (status_of_exitcode exitcode)) :: after;
        _next_job_id := next; printed := out |}).
Proof.
  intros Hbefore Hinfo.
  unfold _update_job_status. cbn [_jobs _next_job_id printed].
  now rewrite update_scan_first.
Qed.

Lemma pid_in_In (pid : Z) (l : list Z) : In pid l -> pid_in pid l = true.
Proof.
  intros H. unfold pid_in. apply existsb_exists. exists pid.
  split; [assumption|apply Z.eqb_refl].
Qed.

(** The [os.waitpid] calls of [fg] are answered in turn, are made on
    processes of the job named, and [fg] returns exactly when none was cut
    short. *)
Lemma builtin_fg_calls (waitpid : waitpid_oracle) (jid : Z) (t : job_table) :
  let r := _builtin_fg waitpid jid t in
  answered waitpid (fg_calls r)
  /\ (forall c, In c (fg_calls r) ->
                exists job, dict_get jid (_jobs t) = Some job /\ In (fst c) (pids job))
  /\ if fg_returned r then uncut (fg_calls r) = true
     else exists pre c, fg_calls r = pre ++ [c] /\ uncut pre = true /\ cut c = true.
Proof.
  unfold _builtin_fg. destruct (dict_get jid (_jobs t)) as [job|] eqn:Hget.
  - pose proof (fg_wait_loop_spec waitpid (pids job) []
                  (print (FgBringing jid (cmdline job)) t)) as H.
    destruct (fg_wait_loop waitpid (pids job) []
                (print (FgBringing jid (cmdline job)) t)) as [[fin made] t2].
    destruct H as (new & -> & _ & Hans & Hfin). cbn [app] in *.
    assert (Hin : forall c, In c new -> In (fst c) (pids job)).
    { intros c Hc. destruct fin.
      - destruct Hfin as [<- _]. now apply in_map.
      - destruct Hfin as (pre & c0 & rest & -> & -> & _).
        apply in_app_or in Hc as [Hc|[<-|[]]]; apply in_or_app.
        + left. now apply in_map.
        + right. now left. }
    destruct fin; cbn [fg_returned fg_calls].
    + split; [exact Hans|]. split; [eauto|apply Hfin].
    + split; [exact Hans|]. split; [eauto|].
      destruct Hfin as (pre & c & rest & -> & _ & Hpre & Hc). eauto.
  - cbn. repeat split; [|intros c []]. intros i c Hc. now destruct i.
Qed.

End JobsMore.

(** [X11] Jobs are never removed and never reordered: at any time the keys
    of [_jobs], in insertion order, are the identifiers issued so far, one
    entry per registration. *)
Theorem jobs_keys_are_issued_ids :
  forall acts : list action,
    map fst (_jobs (snd (run acts initial_table))) = fst (run acts initial_table).
Proof.
  intros acts. destruct (run_jobs acts initial_table initial_fresh) as [H _].
  exact H.
Qed.

(** [X12] The process set and the command line of a job never change after
    registration, whatever notifications, [fg] calls and further
    registrations follow; the job is never removed. *)
Theorem job_pids_and_cmdline_fixed :
  forall (before after : list action) (jid : Z) (job : job),
    let t := snd (run before initial_table) in
    dict_get jid (_jobs t) = Some job ->
    exists job',
      dict_get jid (_jobs (snd (run after t))) = Some job'
      /\ pids job' = pids job
      /\ cmdline job' = cmdline job.
Proof.
  intros before after jid job t Hget.
  destruct (run_spec before initial_table initial_fresh) as (Hfresh & _).
  destruct (run_jobs after t Hfresh) as [_ H]. now apply H.
Qed.

Lemma job_pids_and_cmdline_fixed_witness :
  exists job',
    dict_get 1 (_jobs (snd (run [Sigchld [(10, 13)%Z]; Fg 1 waitpid_at_once; Register [12%Z] "ls"]
                                (snd (run two_reaps initial_table)))))
    = Some job'
    /\ pids job' = [10; 11]%Z
    /\ cmdline job' = "yes | head"%string.
Proof.
  apply (job_pids_and_cmdline_fixed two_reaps
           [Sigchld [(10, 13)%Z]; Fg 1 waitpid_at_once; Register [12%Z] "ls"] 1
           (mkJob [10; 11]%Z "yes | head" (DoneWith 0))).
  reflexivity.
Defined.

(** [X13] A reaped process that belongs to no job changes nothing in the
    table: [_update_job_status] returns [None] and leaves the table as it
    is, and a notification made of such processes only prints one prompt
    marker per process. *)
Theorem sigchld_unowned_pids :
  forall (reaped : list (Z * Z)) (t : job_table),
    Forall (fun child => owned (fst child) t = false) reaped ->
    (forall child exitcode,
        In child reaped -> _update_job_status (fst child) exitcode t = (None, t))
    /\ _sigchld_handler reaped t
       = {| _jobs := _jobs t; _next_job_id := _next_job_id t;
            printed := printed t ++ repeat Prompt (length reaped) |}.
Proof.
  intros reaped t Hall.
  assert (Hupd : forall pid exitcode t',
             owned pid t' = false -> _update_job_status pid exitcode t' = (None, t')).
  { intros pid exitcode t' H. unfold _update_job_status, owned in *.
    rewrite update_scan_unowned by assumption. now destruct t'. }
  split.
  - intros child exitcode Hin. apply Hupd.
    rewrite Forall_forall in Hall. now apply Hall.
  - unfold _sigchld_handler. revert t Hall.
    induction reaped as [|[pid st] reaped IH]; intros t Hall; cbn [fold_left].
    + cbn. rewrite app_nil_r. now destruct t.
    + inversion Hall as [|x l Hhead Htail]; subst. cbn [fst] in Hhead.
      unfold reap_one at 2. rewrite (Hupd pid _ t Hhead).
      rewrite IH.
      * cbn [print _jobs _next_job_id printed length repeat].
        now rewrite <- app_assoc.
      * apply Forall_forall. intros child Hchild.
        rewrite Forall_forall in Htail. exact (Htail child Hchild).
Qed.

Lemma sigchld_unowned_pids_witness :
  _sigchld_handler [(77, 0)%Z; (78, 9)%Z] (snd (run two_reaps initial_table))
  = {| _jobs := _jobs (snd (run two_reaps initial_table));
       _next_job_id := 2;
       printed := printed (snd (run two_reaps initial_table)) ++ [Prompt; Prompt] |}.
Proof.
  apply (sigchld_unowned_pids [(77, 0)%Z; (78, 9)%Z]
           (snd (run two_reaps initial_table))).
  repeat constructor.
Defined.

(** [X14] When several jobs own the reaped process, only the first of them
    in insertion order gets the new status; [_update_job_status] returns its
    identifier and leaves every other entry, and the order, as they are. *)
Theorem update_job_status_first_owner :
  forall (pid : Z) (exitcode : option Z) (before after : list (Z * job))
         (jid : Z) (info : job) (next : Z) (out : list message),
    existsb (fun entry => pid_in pid (pids (snd entry))) before = false ->
    pid_in pid (pids info) = true ->
    _update_job_status pid exitcode
      {| _jobs := before ++ (jid, info) :: after; _next_job_id := next;
         printed := out |}
    = (Some jid,
       {| _jobs := before
                   ++ (jid, mkJob (pids info) (cmdline info)
                              (status_of_exitcode exitcode)) :: after;
          _next_job_id := next; printed := out |}).
Proof.
  intros pid exitcode before after jid info next out Hbefore Hinfo.
  now apply update_status_first.
Qed.

Lemma update_job_status_first_owner_witness :
  _update_job_status 7 (Some 3%Z)
    {| _jobs := [(1, mkJob [5] "a" Running); (2, mkJob [7] "b" Running);
                 (3, mkJob [7] "c" Running)]%Z;
       _next_job_id := 4; printed := [] |}
  = (Some 2%Z,
     {| _jobs := [(1, mkJob [5] "a" Running); (2, mkJob [7] "b" (DoneWith 3));
                  (3, mkJob [7] "c" Running)]%Z;
        _next_job_id := 4; printed := [] |}).
Proof.
  apply (update_job_status_first_owner 7 (Some 3%Z)
           [(1, mkJob [5] "a" Running)]%Z [(3, mkJob [7] "c" Running)]%Z
           2 (mkJob [7]%Z "b" Running) 4 []); reflexivity.
Defined.

(** [X15] A background job whose process is then reaped: after any history,
    registering a pipeline one of whose processes [pid] belongs to no
    earlier job and notifying the end of [pid] leaves the new job with the
    status made from the wait status ([done (code)] for a normal exit,
    [stopped] otherwise), and prints the job line followed by the prompt
    marker. *)
Theorem background_job_reaped :
  forall (acts : list action) (ps : list Z) (c : string) (pid wstatus : Z),
    let t := snd (run acts initial_table) in
    let jid := fst (_register_job ps c Running t) in
    let t1 := snd (_register_job ps c Running t) in
    let exitcode := if WIFEXITED wstatus then Some (WEXITSTATUS wstatus) else None in
    owned pid t = false ->
    In pid ps ->
    status_of jid (_sigchld_handler [(pid, wstatus)] t1)
    = Some (status_of_exitcode exitcode)
    /\ printed (_sigchld_handler [(pid, wstatus)] t1)
       = printed t ++ [JobExited jid pid exitcode; Prompt]
    /\ _next_job_id (_sigchld_handler [(pid, wstatus)] t1) = (jid + 1)%Z.
Proof.
  intros acts ps c pid wstatus t jid t1 exitcode Hown Hin.
  destruct (run_spec acts initial_table initial_fresh) as (Hfresh & _ & _ & Hnext).
  fold t in Hfresh, Hnext. cbn [initial_table _next_job_id] in Hnext.
  assert (Hpos : (0 < _next_job_id t)%Z) by lia.
  assert (Hnone : dict_get (_next_job_id t) (_jobs t) = None).
  { destruct (dict_get (_next_job_id t) (_jobs t)) eqn:E; [|reflexivity].
    assert (_next_job_id t < _next_job_id t)%Z by (apply Hfresh; congruence). lia. }
  subst jid t1. cbn [_register_job fst snd].
  rewrite dict_set_fresh by assumption.
  unfold _sigchld_handler. cbn [fold_left]. unfold reap_one. fold exitcode.
  rewrite (update_status_first pid exitcode (_jobs t) [] (_next_job_id t)
             (mkJob ps c Running) (_next_job_id t + 1) (printed t) Hown
             (pid_in_In pid ps Hin)).
  cbn [pids cmdline].
  assert (Hnz : (_next_job_id t =? 0)%Z = false) by (apply Z.eqb_neq; lia).
  rewrite Hnz. cbn [print printed _next_job_id _jobs].
  repeat split.
  - unfold status_of, print. cbn [_jobs].
    rewrite <- (dict_set_fresh _ (mkJob ps c (status_of_exitcode exitcode)))
      by assumption.
    rewrite dict_get_set, Z.eqb_refl. reflexivity.
  - now rewrite <- app_assoc.
Qed.

Lemma background_job_reaped_witness :
  status_of 2 (_sigchld_handler [(12, 256)%Z]
                 (snd (_register_job [12%Z] "sleep 5" Running
                         (snd (run two_reaps initial_table)))))
  = Some (DoneWith 1).
Proof.
  destruct (background_job_reaped two_reaps [12%Z] "sleep 5" 12 256) as (H & _).
  - reflexivity.
  - now left.
  - exact H.
Defined.

(** [X16] [fg] on an identifier that is not in the table only reports it
    and waits for nothing.  On a known job it announces the job and calls
    [os.waitpid] on the processes of the job in the order of its [pids];
    the table meanwhile changes only through the [SIGCHLD] handlers that
    run during those calls.  When no call is cut short, every process has
    been waited for, whatever the calls returned or raised, and the status
    is then forced to [done], the process set and command line being kept
    and every other job left as the handlers left it.  When a call is cut
    short by [KeyboardInterrupt], it is the last call made, the remaining
    processes are not waited for, [fg] does not return and the status is
    not forced: the table is as the handlers left it.  In every case the
    order of the table and the identifier counter are unchanged. *)
Theorem builtin_fg_effect :
  forall (waitpid : waitpid_oracle) (jid : Z) (t : job_table),
    let r := _builtin_fg waitpid jid t in
    _next_job_id (fg_table r) = _next_job_id t
    /\ map fst (_jobs (fg_table r)) = map fst (_jobs t)
    /\ answered waitpid (fg_calls r)
    /\ match dict_get jid (_jobs t) with
       | None =>
           fg_returned r = true
           /\ fg_calls r = []
           /\ _jobs (fg_table r) = _jobs t
           /\ printed (fg_table r) = printed t ++ [FgNotFound jid]
       | Some job =>
           let t1 := handle_all (signals_of (fg_calls r))
                       (print (FgBringing jid (cmdline job)) t) in
           if fg_returned r then
             map fst (fg_calls r) = pids job
             /\ uncut (fg_calls r) = true
             /\ dict_get jid (_jobs (fg_table r))
                = Some (mkJob (pids job) (cmdline job) Done)
             /\ (forall j, j <> jid ->
                           dict_get j (_jobs (fg_table r)) = dict_get j (_jobs t1))
             /\ printed (fg_table r) = printed t1
           else
             (exists pre c rest,
                fg_calls r = pre ++ [c]
                /\ pids job = map fst pre ++ fst c :: rest
                /\ uncut pre = true
                /\ cut c = true)
             /\ fg_table r = t1
       end.
Proof.
  intros waitpid jid t r. subst r.
  destruct (fg_same waitpid jid t) as [Hkeys _].
  destruct (fg_keeps waitpid jid t) as (Hnext & _).
  split; [exact Hnext|]. split; [exact Hkeys|]. clear Hkeys Hnext.
  unfold _builtin_fg.
  destruct (dict_get jid (_jobs t)) as [job|] eqn:Hget.
  - pose proof (fg_wait_loop_spec waitpid (pids job) []
                  (print (FgBringing jid (cmdline job)) t)) as H.
    destruct (fg_wait_loop waitpid (pids job) []
                (print (FgBringing jid (cmdline job)) t)) as [[fin made] t2].
    destruct H as (new & -> & -> & Hans & Hfin). cbn [app] in *.
    destruct fin; cbn [fg_returned fg_calls fg_table].
    + destruct Hfin as [Hps Hun]. split; [exact Hans|].
      split; [exact Hps|]. split; [exact Hun|]. cbn [_jobs printed].
      split; [now rewrite dict_get_set, Z.eqb_refl|].
      split; [|reflexivity].
      intros j Hj. rewrite dict_get_set.
      destruct (Z.eqb_spec jid j); [congruence|reflexivity].
    + split; [exact Hans|]. split; [exact Hfin|reflexivity].
  - cbn. split; [|repeat split]. intros i c Hc. now destruct i.
Qed.

(** [fg 1] on the job of processes 10 and 11: the wait for 10 returns after
    the handler has reaped 11, the wait for 11 is cut short; [fg] does not
    return and the status stays [done (0)], as the handler wrote it. *)
Example builtin_fg_cut :
  let t := snd (run [Register [10; 11]%Z "yes | head"] initial_table) in
  let r := _builtin_fg waitpid_cut_second 1 t in
  fg_returned r = false
  /\ map fst (fg_calls r) = [10; 11]%Z
  /\ status_of 1 (fg_table r) = Some (DoneWith 0)
  /\ status_of 1 (fg_table (_builtin_fg waitpid_at_once 1 t)) = Some Done.
Proof. repeat split. Qed.


(** ** Pipeline executor *)

Section ExecutorMore.

Variable os : OS.

Lemma closing_summary (tail : list event) :
  Forall closing tail ->
  calls tail = [] /\ opened tail = [] /\ launched tail = [] /\ failed tail = []
  /\ forall src, src_after src tail = src /\ forall n, wired n src tail.
Proof.
  induction 1 as [|e tail He _ (H1 & H2 & H3 & H4 & H5)].
  - repeat split.
  - destruct e; try destruct He; cbn; repeat split; try assumption;
      try apply H5.
Qed.

(** What follows the loop only waits, kills and closes, and closes exactly
    the files held by the frame. *)
Lemma finish_tail (cmds : list command) (f : frame) :
  (exists tail,
      trace (close_files (snd (complete os cmds f))) = trace (w f) ++ tail
      /\ Forall closing tail
      /\ closed tail = olist (in_file f) ++ olist (out_file f))
  /\ exists tail,
       trace (close_files f) = trace (w f) ++ tail
       /\ Forall closing tail
       /\ closed tail = olist (in_file f) ++ olist (out_file f).
Proof.
  assert (Hclose : forall f' pre,
             in_file f' = in_file f -> out_file f' = out_file f ->
             trace (w f') = trace (w f) ++ pre ->
             Forall closing pre -> closed pre = [] ->
             exists tail,
               trace (close_files f') = trace (w f) ++ tail
               /\ Forall closing tail
               /\ closed tail = olist (in_file f) ++ olist (out_file f)).
  { intros f' pre Hi Ho Htr Hpre Hcl. unfold close_files. rewrite Hi, Ho.
    exists (pre ++ map ECloseFile (olist (in_file f) ++ olist (out_file f))).
    split; [|split].
    - destruct (in_file f) as [a|], (out_file f) as [b|];
        cbn [log trace olist app map]; rewrite Htr, <- ?app_assoc;
        cbn [app]; rewrite ?app_nil_r; reflexivity.
    - apply Forall_app. split; [assumption|]. apply Forall_forall.
      intros e He. apply in_map_iff in He as (x & <- & _). exact I.
    - unfold closed in *. rewrite flat_map_app, Hcl. cbn [app].
      generalize (olist (in_file f) ++ olist (out_file f)) as l.
      induction l as [|x l IH]; [reflexivity|]. cbn. now rewrite IH. }
  assert (Hkills : forall ps, Forall closing (map EKill ps) /\ closed (map EKill ps) = []).
  { induction ps as [|p ps [IH1 IH2]]; split; try constructor; cbn; auto. }
  split.
  - unfold complete. destruct (procs f) as [|p0 ps] eqn:Hprocs.
    + apply (Hclose f []); try reflexivity; [now rewrite app_nil_r|constructor].
    + destruct (bg (last cmds fresh_command)).
      * cbn [_register_job snd]. apply (Hclose _ []); try reflexivity;
          [cbn; now rewrite app_nil_r|constructor].
      * destruct (os_wait os (trace (w f)) (pid (last ps p0))) as [rc|]; cbn [snd].
        -- apply (Hclose _ [EWait (pid (last ps p0)) (Exited rc)]);
             try reflexivity; repeat constructor.
        -- destruct (kill_all_spec (p0 :: ps)
                       (log (EWait (pid (last ps p0)) Interrupted) (w f)))
             as [Hkt _].
           destruct (Hkills (map pid (p0 :: ps))) as [Hk1 Hk2].
           apply (Hclose _ (EWait (pid (last ps p0)) Interrupted
                              :: map EKill (map pid (p0 :: ps))));
             try reflexivity.
           ++ cbn [w]. rewrite Hkt. cbn [log trace]. now rewrite <- app_assoc.
           ++ constructor; [exact I|assumption].
           ++ exact Hk2.
  - apply (Hclose f []); try reflexivity; [now rewrite app_nil_r|constructor].
Qed.

Lemma kills_more (ps : list Z) :
  calls (map EKill ps) = [] /\ opened (map EKill ps) = []
  /\ closed (map EKill ps) = []
  /\ forall src, src_after src (map EKill ps) = src
                 /\ forall n, wired n src (map EKill ps).
Proof.
  induction ps as [|p ps (H1 & H2 & H3 & H4)]; repeat split; cbn; try assumption;
    apply H4.
Qed.

Lemma wired_app (n : nat) (a b : list event) :
  forall src,
    wired n src a -> wired n (src_after src a) b -> wired n src (a ++ b).
Proof.
  induction a as [|e a IH]; intros src Ha Hb; [exact Hb|].
  destruct e as [| idx args i o r| | | |]; cbn [app wired] in *;
    try (apply IH; assumption).
  destruct Ha as (H1 & H2 & H3). repeat split; try assumption.
  apply IH; [assumption|]. destruct r; exact Hb.
Qed.

Lemma src_after_app (a b : list event) :
  forall src, src_after src (a ++ b) = src_after (src_after src a) b.
Proof.
  induction a as [|e a IH]; intros src; [reflexivity|].
  destruct e as [| idx args i o [p| |]| | | |]; cbn [app src_after]; apply IH.
Qed.

Lemma choose_stdin_more (idx : nat) (cmd : command) (f : frame) :
  let s := fst (choose_stdin os idx cmd f) in
  let f1 := snd (choose_stdin os idx cmd f) in
  exists evs,
    trace (w f1) = trace (w f) ++ evs
    /\ inert evs
    /\ procs f1 = procs f /\ prev_proc f1 = prev_proc f
    /\ out_file f1 = out_file f
    /\ (opened evs = [] \/ idx = 0)
    /\ ((idx = 0 -> in_file f = None) ->
        olist (in_file f) ++ opened evs = olist (in_file f1))
    /\ ((idx = 0 -> prev_proc f = None) ->
        s = src_of f \/ (idx = 0 /\ exists fd, s = FromFile fd)).
Proof.
  unfold choose_stdin, _open_for_read, inert.
  destruct (Nat.eqb idx 0 && truthy (in_ cmd)) eqn:Hc.
  - apply andb_true_iff in Hc as [Hidx _]. apply Nat.eqb_eq in Hidx.
    destruct (os_open os (trace (w f)) (path_of (in_ cmd)) ReadBinary) as [fd|e];
      cbn [fst snd w trace log say table procs prev_proc in_file out_file].
    + exists [EOpen (path_of (in_ cmd)) ReadBinary (Opened fd)].
      split; [reflexivity|]. split; [repeat split|].
      repeat (split; [reflexivity|]). split; [now right|].
      split; [intros H; now rewrite (H Hidx)|]. intros _. right.
      split; [assumption|]. now exists fd.
    + exists [EOpen (path_of (in_ cmd)) ReadBinary (OpenFailed e)].
      split; [reflexivity|]. split; [repeat split|].
      repeat (split; [reflexivity|]). split; [now left|].
      split; [intros H; now rewrite (H Hidx)|].
      intros H. left. unfold src_of. now rewrite (H Hidx).
  - exists []. rewrite app_nil_r.
    assert (Hsame : snd (match prev_proc f with
                         | Some p => (process_stdout p, f)
                         | None => (Inherit, f)
                         end) = f) by (now destruct (prev_proc f)).
    cbn zeta. rewrite Hsame.
    split; [reflexivity|]. split; [repeat split|].
    repeat (split; [reflexivity|]). split; [now left|].
    split; [intros _; cbn; now rewrite app_nil_r|].
    intros _. left. unfold src_of. now destruct (prev_proc f).
Qed.

Lemma choose_stdout_more (n idx : nat) (cmd : command) (f : frame) :
  let s := fst (choose_stdout os n idx cmd f) in
  let f1 := snd (choose_stdout os n idx cmd f) in
  exists evs,
    trace (w f1) = trace (w f) ++ evs
    /\ inert evs
    /\ procs f1 = procs f /\ prev_proc f1 = prev_proc f
    /\ in_file f1 = in_file f
    /\ ((idx <= n - 1 -> out_file f = None) ->
        olist (out_file f) ++ opened evs = olist (out_file f1)
        /\ (S idx <= n - 1 -> out_file f1 = None))
    /\ is_new_pipe s = negb (Nat.eqb idx (n - 1)).
Proof.
  unfold choose_stdout, _open_for_write, inert.
  destruct (Nat.eqb idx (n - 1)) eqn:Hidx; cbn [andb negb].
  - apply Nat.eqb_eq in Hidx.
    destruct (truthy (out cmd)).
    + set (m := if append cmd then AppendBinary else WriteBinary).
      destruct (os_open os (trace (w f)) (path_of (out cmd)) m) as [fd|e];
        cbn [fst snd w trace log say table procs prev_proc in_file out_file].
      * exists [EOpen (path_of (out cmd)) m (Opened fd)].
        split; [reflexivity|]. split; [repeat split|].
        repeat (split; [reflexivity|]).
        split; [|reflexivity]. intros H. rewrite H by lia. split; [reflexivity|lia].
      * exists [EOpen (path_of (out cmd)) m (OpenFailed e)].
        split; [reflexivity|]. split; [repeat split|].
        repeat (split; [reflexivity|]).
        split; [|reflexivity]. intros H. rewrite H by lia. split; [reflexivity|lia].
    + exists []. cbn [fst snd]. rewrite !app_nil_r.
      split; [reflexivity|]. split; [repeat split|].
      repeat (split; [reflexivity|]).
      split; [|reflexivity]. intros H. split; [reflexivity|lia].
  - exists []. cbn [fst snd]. rewrite !app_nil_r.
    split; [reflexivity|]. split; [repeat split|].
    repeat (split; [reflexivity|]).
    split; [|reflexivity]. intros H. apply Nat.eqb_neq in Hidx.
    split; [reflexivity|]. intros H'. apply H. lia.
Qed.

Lemma calls_app (a b : list event) : calls (a ++ b) = calls a ++ calls b.
Proof. apply flat_map_app. Qed.

Lemma opened_app (a b : list event) : opened (a ++ b) = opened a ++ opened b.
Proof. apply flat_map_app. Qed.

Lemma closed_app (a b : list event) : closed (a ++ b) = closed a ++ closed b.
Proof. apply flat_map_app. Qed.

(** The events of a stage put together: the opens, the launch, and what
    follows it. *)
Lemma assemble (n idx : nat) (args : list string) (s_in s_out : stream)
    (r : popen_result) (src : stream) (evs_in evs_out tail : list event) :
  inert evs_in -> inert evs_out -> inert tail -> opened tail = [] ->
  is_new_pipe s_out = negb (Nat.eqb idx (n - 1)) ->
  let e := EPopen idx args s_in s_out r in
  let evs := evs_in ++ evs_out ++ e :: tail in
  calls evs = [(idx, args)]
  /\ closed evs = []
  /\ opened evs = opened evs_in ++ opened evs_out
  /\ failed evs = failed [e]
  /\ ((s_in = src \/ (idx = 0 /\ exists fd, s_in = FromFile fd)) ->
      wired n src evs)
  /\ src_after src evs = src_after src [e].
Proof.
  intros (Hi1 & Hi2 & Hi3 & Hi4) (Ho1 & Ho2 & Ho3 & Ho4) (Ht1 & Ht2 & Ht3 & Ht4)
         Htop Hsout e evs. subst evs.
  change (e :: tail) with ([e] ++ tail).
  rewrite !calls_app, !closed_app, !opened_app, !failed_app, !src_after_app.
  rewrite Hi1, Hi2, Hi3, Ho1, Ho2, Ho3, Ht1, Ht2, Ht3, Htop.
  destruct (Hi4 src n) as [Hs1 Hw1]. destruct (Ho4 src n) as [Hs2 Hw2].
  rewrite Hs1, Hs2. destruct (Ht4 (src_after src [e]) n) as [Hs3 Hw3].
  rewrite Hs3, !app_nil_r. cbn [app calls closed opened flat_map e].
  repeat (split; [reflexivity|]). split; [|reflexivity]. intros Hsin.
  apply wired_app; [assumption|]. rewrite Hs1.
  apply wired_app; [assumption|]. rewrite Hs2.
  cbn [app wired]. repeat split; assumption.
Qed.

(** Everything one iteration adds to the trace. *)
Lemma stage_more (n idx : nat) (cmd : command) (f : frame) :
  exists evs f',
    (stage os n idx cmd f = Continue f'
     \/ (stage os n idx cmd f = Return f' /\ failed evs <> []))
    /\ trace (w f') = trace (w f) ++ evs
    /\ calls evs = (if nonempty (argv cmd) then [(idx, argv cmd)] else [])
    /\ closed evs = []
    /\ ((idx = 0 -> in_file f = None) ->
        (idx <= n - 1 -> out_file f = None) ->
        olist (in_file f) ++ olist (out_file f) ++ opened evs
        = olist (in_file f') ++ olist (out_file f')
        /\ (S idx <= n - 1 -> out_file f' = None))
    /\ ((idx = 0 -> prev_proc f = None) ->
        wired n (src_of f) evs /\ src_after (src_of f) evs = src_of f').
Proof.
  unfold stage. destruct (nonempty (argv cmd)) eqn:Hargv; cbn [negb].
  2:{ exists [], f. rewrite app_nil_r.
      split; [now left|]. repeat (split; [reflexivity|]).
      split; [|intros _; split; [exact I|reflexivity]].
      intros _ Hout. rewrite !app_nil_r. split; [reflexivity|].
      intros Hle. apply Hout. lia. }
  destruct (choose_stdin_more idx cmd f)
    as (evs_in & Htr1 & Hinert1 & Hp1 & Hv1 & Ho1 & Hopen1 & Hfile1 & Hsrc1).
  destruct (choose_stdin os idx cmd f) as [s_in f1]. cbn [fst snd] in *.
  destruct (choose_stdout_more n idx cmd f1)
    as (evs_out & Htr2 & Hinert2 & Hp2 & Hv2 & Hi2 & Hfile2 & Hpipe).
  destruct (choose_stdout os n idx cmd f1) as [s_out f2]. cbn [fst snd] in *.
  set (r := os_popen os (trace (w f2)) (argv cmd) s_in s_out).
  set (e := EPopen idx (argv cmd) s_in s_out r).
  assert (Hfiles : forall f',
             in_file f' = in_file f2 -> out_file f' = out_file f2 ->
             forall tail, opened tail = [] ->
             (idx = 0 -> in_file f = None) ->
             (idx <= n - 1 -> out_file f = None) ->
             olist (in_file f) ++ olist (out_file f)
               ++ (opened evs_in ++ opened evs_out)
             = olist (in_file f') ++ olist (out_file f')
             /\ (S idx <= n - 1 -> out_file f' = None)).
  { intros f' Hfi Hfo tail Htail Hin Hout. rewrite Hfi, Hfo, Hi2.
    rewrite Ho1 in Hfile2.
    destruct (Hfile2 Hout) as [Hfo2 Hnext]. split; [|exact Hnext].
    rewrite <- Hfo2, <- (Hfile1 Hin).
    destruct Hopen1 as [Hnone|Hzero].
    - rewrite Hnone, !app_nil_r. reflexivity.
    - rewrite Hout by lia. cbn [olist app]. now rewrite app_assoc. }
  assert (Htrace : trace (w f2) = trace (w f) ++ evs_in ++ evs_out)
    by (rewrite Htr2, Htr1, <- app_assoc; reflexivity).
  assert (Hprev : prev_proc f2 = prev_proc f) by congruence.
  assert (Hkills : forall ps, inert (map EKill ps) /\ opened (map EKill ps) = []).
  { intros ps. destruct (kills_more ps) as (K1 & K2 & K3 & K4).
    destruct (kills_summary ps) as (_ & K5 & _).
    repeat split; try assumption; apply K4. }
  destruct r as [child| |err] eqn:Hr.
  - set (tail := match prev_proc f2 with
                 | Some p => if stdout_pipe p then [EClosePipe (pid p)] else []
                 | None => []
                 end).
    assert (Htail : inert tail /\ opened tail = []).
    { subst tail. destruct (prev_proc f2) as [p|]; [destruct (stdout_pipe p)|];
        repeat split. }
    destruct Htail as [Htail Htop].
    assert (Hw : forall w3,
               trace (match prev_proc f2 with
                      | Some p => if stdout_pipe p
                                  then log (EClosePipe (pid p)) w3 else w3
                      | None => w3
                      end) = trace w3 ++ tail).
    { intros w3. subst tail.
      destruct (prev_proc f2) as [p|]; [destruct (stdout_pipe p)|]; cbn;
        rewrite ?app_nil_r; reflexivity. }
    eexists (evs_in ++ evs_out ++ e :: tail), _.
    split; [left; reflexivity|]. cbn [w in_file out_file prev_proc].
    rewrite Hw. cbn [log trace].
    split; [rewrite Htrace, <- !app_assoc; reflexivity|].
    assert (Hsrc : (idx = 0 -> prev_proc f = None) ->
                   s_in = src_of f \/ (idx = 0 /\ exists fd, s_in = FromFile fd)).
    { exact Hsrc1. }
    destruct (assemble n idx (argv cmd) s_in s_out (Launched child) (src_of f)
                evs_in evs_out tail Hinert1 Hinert2 Htail Htop Hpipe)
      as (Hc & Hcl & Hop & _ & Hwired & Hafter).
    fold e in Hc, Hcl, Hop, Hwired, Hafter.
    split; [exact Hc|]. split; [exact Hcl|]. split.
    + rewrite Hop. now apply (Hfiles _ eq_refl eq_refl tail).
    + intros Hzero. split; [apply Hwired; now apply Hsrc|].
      rewrite Hafter. reflexivity.
  - pose (tail := map EKill (map pid (procs f2))).
    destruct (Hkills (map pid (procs f2))) as [Htail Htop]. fold tail in Htail, Htop.
    eexists (evs_in ++ evs_out ++ e :: tail), _.
    destruct (assemble n idx (argv cmd) s_in s_out FileNotFound (src_of f)
                evs_in evs_out tail Hinert1 Hinert2 Htail Htop Hpipe)
      as (Hc & Hcl & Hop & Hfail & Hwired & Hafter).
    fold e in Hc, Hcl, Hop, Hfail, Hwired, Hafter.
    split; [right; split; [reflexivity|rewrite Hfail; discriminate]|].
    cbn [w in_file out_file prev_proc].
    destruct (kill_all_spec (procs f2)
                (say (CommandNotFound (hd EmptyString (argv cmd))) (log e (w f2))))
      as [Hkt _].
    rewrite Hkt. cbn [say log trace].
    split; [rewrite Htrace, <- !app_assoc; reflexivity|].
    split; [exact Hc|]. split; [exact Hcl|]. split.
    + rewrite Hop. now apply (Hfiles _ eq_refl eq_refl tail).
    + intros Hzero. split; [apply Hwired; now apply Hsrc1|].
      rewrite Hafter. cbn [src_after e]. unfold src_of. now rewrite Hprev.
  - pose (tail := map EKill (map pid (procs f2))).
    destruct (Hkills (map pid (procs f2))) as [Htail Htop]. fold tail in Htail, Htop.
    eexists (evs_in ++ evs_out ++ e :: tail), _.
    destruct (assemble n idx (argv cmd) s_in s_out (OtherError err) (src_of f)
                evs_in evs_out tail Hinert1 Hinert2 Htail Htop Hpipe)
      as (Hc & Hcl & Hop & Hfail & Hwired & Hafter).
    fold e in Hc, Hcl, Hop, Hfail, Hwired, Hafter.
    split; [right; split; [reflexivity|rewrite Hfail; discriminate]|].
    cbn [w in_file out_file prev_proc].
    destruct (kill_all_spec (procs f2)
                (say (FailedToExecute (argv cmd) err) (log e (w f2))))
      as [Hkt _].
    rewrite Hkt. cbn [say log trace].
    split; [rewrite Htrace, <- !app_assoc; reflexivity|].
    split; [exact Hc|]. split; [exact Hcl|]. split.
    + rewrite Hop. now apply (Hfiles _ eq_refl eq_refl tail).
    + intros Hzero. split; [apply Hwired; now apply Hsrc1|].
      rewrite Hafter. cbn [src_after e]. unfold src_of. now rewrite Hprev.
Qed.

(** Everything the loop adds to the trace. *)
Lemma stages_more (cmds : list command) :
  forall (n idx : nat) (f : frame),
    exists evs f',
      ((stages os n idx cmds f = Continue f' /\ calls evs = expected idx cmds)
       \/ (stages os n idx cmds f = Return f' /\ failed evs <> []
           /\ exists rest, expected idx cmds = calls evs ++ rest))
      /\ trace (w f') = trace (w f) ++ evs
      /\ closed evs = []
      /\ ((idx = 0 -> in_file f = None) ->
          (idx <= n - 1 -> out_file f = None) ->
          olist (in_file f) ++ olist (out_file f) ++ opened evs
          = olist (in_file f') ++ olist (out_file f'))
      /\ ((idx = 0 -> prev_proc f = None) -> wired n (src_of f) evs).
Proof.
  induction cmds as [|c rest IH]; intros n idx f.
  - exists [], f. cbn [stages expected]. rewrite !app_nil_r.
    split; [left; split; reflexivity|]. repeat (split; [reflexivity|]).
    intros _. exact I.
  - destruct (stage_more n idx c f)
      as (evs1 & f1 & Hflow & Htr1 & Hcalls1 & Hcl1 & Hfiles1 & Hwire1).
    assert (Hexp : expected idx (c :: rest) = calls evs1 ++ expected (S idx) rest).
    { cbn [expected]. rewrite Hcalls1. now destruct (nonempty (argv c)). }
    cbn [stages]. destruct Hflow as [Hflow|[Hflow Hfail]]; rewrite Hflow.
    + destruct (IH n (S idx) f1)
        as (evs2 & f2 & Hflow2 & Htr2 & Hcl2 & Hfiles2 & Hwire2).
      exists (evs1 ++ evs2), f2.
      split; [|split; [|split; [|split]]].
      * destruct Hflow2 as [[Hf2 Hc2]|(Hf2 & Hfail2 & more & Hmore)].
        -- left. split; [exact Hf2|]. now rewrite calls_app, Hc2, Hexp.
        -- right. split; [exact Hf2|]. split.
           ++ rewrite failed_app. intros H. apply app_eq_nil in H as [_ H].
              now apply Hfail2.
           ++ exists more. now rewrite Hexp, calls_app, Hmore, app_assoc.
      * rewrite Htr2, Htr1, app_assoc. reflexivity.
      * now rewrite closed_app, Hcl1, Hcl2.
      * intros Hin Hout. destruct (Hfiles1 Hin Hout) as [Hf1 Hnext].
        rewrite opened_app, !app_assoc. rewrite <- (app_assoc _ _ (opened evs1)).
        rewrite Hf1. rewrite <- !app_assoc. apply Hfiles2; [discriminate|exact Hnext].
      * intros Hzero. destruct (Hwire1 Hzero) as [Hw1 Hafter].
        apply wired_app; [exact Hw1|]. rewrite Hafter. apply Hwire2. discriminate.
    + exists evs1, f1.
      split; [right; split; [reflexivity|split; [exact Hfail|eauto]]|].
      split; [exact Htr1|]. split; [exact Hcl1|]. split.
      * intros Hin Hout. now destruct (Hfiles1 Hin Hout).
      * intros Hzero. now destruct (Hwire1 Hzero).
Qed.

(** The whole run: the events of the loop, then waits, kills and closes. *)
Lemma run_more (cmds : list command) (w0 : world) :
  exists evs tail f',
    added w0 (snd (run_pipeline os cmds w0)) = evs ++ tail
    /\ Forall closing tail
    /\ closed evs = []
    /\ closed tail = opened evs
    /\ wired (length cmds) Inherit evs
    /\ ((calls evs = expected 0 cmds
         /\ stages os (length cmds) 0 cmds (start w0) = Continue f')
        \/ (failed evs <> [] /\ exists rest, expected 0 cmds = calls evs ++ rest)).
Proof.
  destruct (stages_more cmds (length cmds) 0 (start w0))
    as (evs & f' & Hflow & Htr & Hcl & Hfiles & Hwire).
  specialize (Hfiles (fun _ => eq_refl) (fun _ => eq_refl)).
  specialize (Hwire (fun _ => eq_refl)).
  cbn [start in_file out_file olist app w] in Hfiles, Htr.
  destruct (finish_tail cmds f') as [(tail1 & Ht1 & Hc1 & Hf1)
                                        (tail2 & Ht2 & Hc2 & Hf2)].
  unfold run_pipeline.
  destruct Hflow as [[Hflow Hcalls]|(Hflow & Hfail & Hrest)]; rewrite Hflow.
  - exists evs, tail1, f'.
    split; [|repeat split; try assumption; [congruence|now left]].
    apply added_exact.
    destruct (complete os cmds f') as [res f'']. cbn [snd] in *.
    rewrite Ht1, Htr, app_assoc. reflexivity.
  - exists evs, tail2, f'.
    split; [|repeat split; try assumption; [congruence|now right]].
    apply added_exact. cbn [snd]. rewrite Ht2, Htr, app_assoc. reflexivity.
Qed.


End ExecutorMore.

(** [X17] A background pipeline whose launches all succeed is registered
    as one job holding the identifiers of all its processes in launch order;
    [run_pipeline] announces it, returns [(True, jid)] with the next job
    identifier, and neither waits for nor kills any process. *)
Theorem run_pipeline_background :
  forall (os : OS) (cmds : list command) (w0 : world),
    let res := fst (run_pipeline os cmds w0) in
    let w1 := snd (run_pipeline os cmds w0) in
    let evs := added w0 w1 in
    failed evs = [] ->
    launched evs <> [] ->
    bg (last cmds fresh_command) = true ->
    res = (true, Some (_next_job_id (table w0)))
    /\ _jobs (table w1)
       = dict_set (_next_job_id (table w0))
           (mkJob (launched evs) (String.concat " " (concat (map argv cmds))) Running)
           (_jobs (table w0))
    /\ _next_job_id (table w1) = (_next_job_id (table w0) + 1)%Z
    /\ last (said w0 w1) Prompt
       = JobStarted (_next_job_id (table w0)) (hd 0%Z (launched evs))
    /\ waits evs = []
    /\ killed evs = [].
Proof.
  intros os cmds w0 res w1 evs0 Hfailed Hlaunched Hbg'.
  destruct (run_pipeline_spec os cmds w0) as [Hrun _].
  fold res w1 in Hrun. subst evs0. clearbody res w1.
  destruct Hrun as [pre msgs idx' args' i' o' r fds w1 Hq Hrep Hadd Hj Hn
                   |evs fds w1 Hq Hl Hadd Hj Hn
                   |evs msgs fds w1 Hq Hl Hbg Hadd Hsaid Hj Hn
                   |evs fds rc w1 f Hst Htr Hp Hq Hl Hbg Hwait Hadd Hj Hn
                   |evs fds w1 Hq Hl Hbg Hwait Hadd Hj Hn];
    rewrite Hadd in *;
    destruct (closes_summary fds) as (Hc1 & Hc2 & Hc3 & Hc4 & _ & Hc6).
  - exfalso. rewrite failed_app in Hfailed.
    apply app_eq_nil in Hfailed as [_ Hfailed].
    destruct r; [destruct Hrep|discriminate..].
  - exfalso. apply Hlaunched. rewrite launched_app, Hl, Hc1. reflexivity.
  - destruct Hq as (Hf & Hk & Hw).
    rewrite launched_app, killed_app, waits_app, Hc1, Hc3, Hc4, Hk, Hw, app_nil_r.
    rewrite Hsaid, last_last. repeat split; assumption.
  - congruence.
  - congruence.
Qed.

Lemma run_pipeline_background_witness :
  let cmds := parse_tokens ["gen"; "|"; "sort"; "&"] in
  fst (run_pipeline os_sample cmds initial_world) = (true, Some 1%Z)
  /\ _jobs (table (snd (run_pipeline os_sample cmds initial_world)))
     = [(1%Z, mkJob [101; 102]%Z "gen sort" Running)].
Proof.
  intros cmds.
  destruct (run_pipeline_background os_sample cmds initial_world)
    as (Hres & Hjobs & _).
  - reflexivity.
  - vm_compute. discriminate.
  - reflexivity.
  - split; [exact Hres|]. rewrite Hjobs. reflexivity.
Defined.

(** [X18] When the wait for the last process is cut short by a keyboard
    interrupt, [run_pipeline] kills every process of the pipeline, in launch
    order, registers no job and returns [(False, None)]; the process waited
    for is the last one launched. *)
Theorem run_pipeline_interrupted :
  forall (os : OS) (cmds : list command) (w0 : world) (p : Z),
    let res := fst (run_pipeline os cmds w0) in
    let w1 := snd (run_pipeline os cmds w0) in
    let evs := added w0 w1 in
    In (EWait p Interrupted) evs ->
    res = (false, None)
    /\ p = last (launched evs) 0%Z
    /\ killed evs = launched evs
    /\ waits evs = [EWait p Interrupted]
    /\ failed evs = []
    /\ _jobs (table w1) = _jobs (table w0)
    /\ _next_job_id (table w1) = _next_job_id (table w0).
Proof.
  intros os cmds w0 p res w1 evs0 Hin.
  destruct (run_pipeline_spec os cmds w0) as [Hrun _].
  fold res w1 in Hrun. subst evs0. clearbody res w1.
  assert (Hnowait : forall evs, waits evs = [] -> ~ In (EWait p Interrupted) evs).
  { intros evs Hw H.
    assert (H' : In (EWait p Interrupted) (waits evs))
      by (apply filter_In; split; [assumption|reflexivity]).
    rewrite Hw in H'. destruct H'. }
  assert (Hnokill : forall ps, ~ In (EWait p Interrupted) (map EKill ps)).
  { intros ps H. apply in_map_iff in H as (x & Hx & _). discriminate. }
  destruct Hrun as [pre msgs idx' args' i' o' r fds w1 Hq Hrep Hadd Hj Hn
                   |evs fds w1 Hq Hl Hadd Hj Hn
                   |evs msgs fds w1 Hq Hl Hbg Hadd Hsaid Hj Hn
                   |evs fds rc w1 f Hst Htr Hp Hq Hl Hbg Hwait Hadd Hj Hn
                   |evs fds w1 Hq Hl Hbg Hwait Hadd Hj Hn];
    rewrite Hadd in *;
    destruct (closes_summary fds) as (Hc1 & Hc2 & Hc3 & Hc4 & _ & Hc6);
    destruct Hq as (Hf & Hk & Hw).
  - exfalso. apply in_app_iff in Hin as [Hin|[Hin|Hin]];
      [exact (Hnowait _ Hw Hin)|discriminate|].
    apply in_app_iff in Hin as [Hin|Hin];
      [exact (Hnokill _ Hin)|exact (Hnowait _ Hc3 Hin)].
  - exfalso. apply in_app_iff in Hin as [Hin|Hin];
      [exact (Hnowait _ Hw Hin)|exact (Hnowait _ Hc3 Hin)].
  - exfalso. apply in_app_iff in Hin as [Hin|Hin];
      [exact (Hnowait _ Hw Hin)|exact (Hnowait _ Hc3 Hin)].
  - exfalso. apply in_app_iff in Hin as [Hin|[Hin|Hin]];
      [exact (Hnowait _ Hw Hin)|discriminate|exact (Hnowait _ Hc3 Hin)].
  - destruct (kills_summary (launched evs)) as (Hk1 & Hk2 & Hk3 & Hk4 & _).
    assert (Hp : p = last (launched evs) 0%Z).
    { apply in_app_iff in Hin as [Hin|[Hin|Hin]].
      - destruct (Hnowait _ Hw Hin).
      - now injection Hin as <-.
      - apply in_app_iff in Hin as [Hin|Hin];
          [destruct (Hnokill _ Hin)|destruct (Hnowait _ Hc3 Hin)]. }
    rewrite <- Hp.
    change (EWait p Interrupted :: map EKill (launched evs) ++ map ECloseFile fds)
      with ([EWait p Interrupted] ++ map EKill (launched evs) ++ map ECloseFile fds).
    rewrite !launched_app, !killed_app, !waits_app, !failed_app.
    rewrite Hk, Hw, Hf, Hk1, Hk2, Hk3, Hk4, Hc1, Hc2, Hc3, Hc4. cbn.
    rewrite !app_nil_r. repeat split; assumption.
Qed.

Lemma run_pipeline_interrupted_witness :
  let cmds := parse_tokens ["gen"; "|"; "sort"] in
  In (EWait 102 Interrupted)
     (added initial_world (snd (run_pipeline os_hostile cmds initial_world)))
  /\ killed (added initial_world (snd (run_pipeline os_hostile cmds initial_world)))
     = [101; 102]%Z.
Proof.
  intros cmds.
  assert (Hin : In (EWait 102 Interrupted)
                   (added initial_world
                      (snd (run_pipeline os_hostile cmds initial_world))))
    by (vm_compute; auto 10).
  split; [exact Hin|].
  destruct (run_pipeline_interrupted os_hostile cmds initial_world 102 Hin)
    as (_ & _ & Hk & _).
  rewrite Hk. reflexivity.
Defined.

(** [X19] When a launch raises an exception other than
    [FileNotFoundError], [run_pipeline] reports the failure with the argument
    list and the exception, kills every process launched before it, waits
    for none, registers no job and returns [(False, None)]. *)
Theorem run_pipeline_exec_error :
  forall (os : OS) (cmds : list command) (w0 : world)
         (idx : nat) (args : list string) (i o : stream) (e : string),
    let res := fst (run_pipeline os cmds w0) in
    let w1 := snd (run_pipeline os cmds w0) in
    In (EPopen idx args i o (OtherError e)) (added w0 w1) ->
    res = (false, None)
    /\ last (said w0 w1) Prompt = FailedToExecute args e
    /\ (exists pre fds,
          added w0 w1 = pre ++ EPopen idx args i o (OtherError e)
                            :: map EKill (launched pre) ++ map ECloseFile fds
          /\ quiet pre)
    /\ killed (added w0 w1) = launched (added w0 w1)
    /\ waits (added w0 w1) = []
    /\ _jobs (table w1) = _jobs (table w0)
    /\ _next_job_id (table w1) = _next_job_id (table w0).
Proof.
  intros os cmds w0 idx args i o e res w1 Hin.
  destruct (run_pipeline_spec os cmds w0) as [Hrun _].
  fold res w1 in Hrun. clearbody res w1.
  destruct Hrun as [pre msgs idx' args' i' o' r fds w1 Hq Hrep Hadd Hj Hn
                   |evs fds w1 Hq Hl Hadd Hj Hn
                   |evs msgs fds w1 Hq Hl Hbg Hadd Hsaid Hj Hn
                   |evs fds rc w1 f Hst Htr Hp Hq Hl Hbg Hwait Hadd Hj Hn
                   |evs fds w1 Hq Hl Hbg Hwait Hadd Hj Hn];
    rewrite Hadd in Hin;
    destruct (closes_summary fds) as (Hc1 & Hc2 & Hc3 & Hc4 & _ & Hc6).
  - apply in_app_iff in Hin as [Hin|[Hin|Hin]].
    + destruct Hq as (Hf & _). destruct (failed_none _ _ Hf Hin).
    + injection Hin as -> -> -> -> ->. cbn in Hrep.
      destruct (kills_summary (launched pre)) as (Hk1 & Hk2 & Hk3 & Hk4 & _).
      destruct Hq as (Hf & Hk & Hw).
      split; [reflexivity|]. split; [rewrite Hrep; apply last_last|].
      split; [exists pre, fds; split; [exact Hadd|repeat split; assumption]|].
      rewrite Hadd.
      change (EPopen idx args i o (OtherError e)
                :: map EKill (launched pre) ++ map ECloseFile fds)
        with ([EPopen idx args i o (OtherError e)]
                ++ map EKill (launched pre) ++ map ECloseFile fds).
      rewrite !killed_app, !launched_app, !waits_app.
      rewrite Hk, Hw, Hk1, Hk3, Hk4, Hc1, Hc3, Hc4. cbn.
      rewrite !app_nil_r. repeat split; assumption.
    + apply in_app_iff in Hin as [Hin|Hin];
        [destruct (no_popen_kills _ _ _ _ _ _ Hin)|destruct (Hc6 _ _ _ _ _ Hin)].
  - apply in_app_iff in Hin as [Hin|Hin].
    + destruct Hq as (Hf & _). destruct (failed_none _ _ Hf Hin).
    + destruct (Hc6 _ _ _ _ _ Hin).
  - apply in_app_iff in Hin as [Hin|Hin].
    + destruct Hq as (Hf & _). destruct (failed_none _ _ Hf Hin).
    + destruct (Hc6 _ _ _ _ _ Hin).
  - apply in_app_iff in Hin as [Hin|[Hin|Hin]].
    + destruct Hq as (Hf & _). destruct (failed_none _ _ Hf Hin).
    + discriminate.
    + destruct (Hc6 _ _ _ _ _ Hin).
  - apply in_app_iff in Hin as [Hin|[Hin|Hin]].
    + destruct Hq as (Hf & _). destruct (failed_none _ _ Hf Hin).
    + discriminate.
    + apply in_app_iff in Hin as [Hin|Hin];
        [destruct (no_popen_kills _ _ _ _ _ _ Hin)|destruct (Hc6 _ _ _ _ _ Hin)].
Qed.

Lemma run_pipeline_exec_error_witness :
  let cmds := parse_tokens ["gen"; "|"; "locked"; "-x"; "&"] in
  In (EPopen 1 ["locked"; "-x"] (FromPipe 101) Inherit (OtherError "Permission denied"))
     (added initial_world (snd (run_pipeline os_hostile cmds initial_world)))
  /\ fst (run_pipeline os_hostile cmds initial_world) = (false, None)
  /\ _jobs (table (snd (run_pipeline os_hostile cmds initial_world))) = [].
Proof.
  intros cmds.
  assert (Hin : In (EPopen 1 ["locked"; "-x"] (FromPipe 101) Inherit
                      (OtherError "Permission denied"))
                   (added initial_world
                      (snd (run_pipeline os_hostile cmds initial_world))))
    by (vm_compute; auto 10).
  split; [exact Hin|].
  destruct (run_pipeline_exec_error os_hostile cmds initial_world 1
              ["locked"; "-x"] (FromPipe 101) Inherit "Permission denied" Hin)
    as (Hres & _ & _ & _ & _ & Hj & _).
  split; [exact Hres|]. rewrite Hj. reflexivity.
Defined.

(** [X20] Every redirection file [run_pipeline] opens is closed before it
    returns, once, whatever the way out (launch failure, nothing to launch,
    background, foreground, interrupt), and nothing else is closed. *)
Theorem run_pipeline_closes_files :
  forall (os : OS) (cmds : list command) (w0 : world),
    closed (added w0 (snd (run_pipeline os cmds w0)))
    = opened (added w0 (snd (run_pipeline os cmds w0))).
Proof.
  intros os cmds w0.
  destruct (run_more os cmds w0) as (evs & tail & f' & Hadd & Htail & Hcl & Hop & _).
  destruct (closing_summary tail Htail) as (_ & Hopen & _).
  rewrite Hadd, closed_app, opened_app, Hcl, Hopen, Hop. now rewrite app_nil_r.
Qed.



(** [X22] The stages are chained as a pipeline: every launch but that of
    the last position writes to a new pipe and the launch of the last
    position does not; every launch reads from the pipe of the process
    launched just before it, the first one from the shell's input, except
    that stage 0 may read from its redirection file. *)
Theorem run_pipeline_wiring :
  forall (os : OS) (cmds : list command) (w0 : world),
    wired (length cmds) Inherit (added w0 (snd (run_pipeline os cmds w0))).
Proof.
  intros os cmds w0.
  destruct (run_more os cmds w0) as (evs & tail & f' & Hadd & Htail & _ & _ & Hw & _).
  destruct (closing_summary tail Htail) as (_ & _ & _ & _ & Hsrc).
  rewrite Hadd. apply wired_app; [exact Hw|]. apply Hsrc.
Qed.

(** [X29] When every launch succeeds, at least one process is launched, the
    last descriptor has no background flag and the wait is not interrupted,
    [run_pipeline] makes exactly one [Popen.wait] call, after all the
    launches and on the last process launched, and its result is what the
    operating system answers to that call at that point; it kills nothing
    and leaves the job table alone.  What waiting for any other process
    would answer has no effect: any operating system that opens files and
    creates processes the same way and agrees on the wait for the last
    process gives the same result. *)
Theorem run_pipeline_foreground_wait :
  forall (os : OS) (cmds : list command) (w0 : world),
    let res := fst (run_pipeline os cmds w0) in
    let w1 := snd (run_pipeline os cmds w0) in
    let evs := added w0 w1 in
    failed evs = [] ->
    launched evs <> [] ->
    bg (last cmds fresh_command) = false ->
    (forall p, ~ In (EWait p Interrupted) evs) ->
    exists rc pre fds,
      res = (false, Some rc)
      /\ evs = pre ++ EWait (last (launched evs) 0%Z) (Exited rc)
                    :: map ECloseFile fds
      /\ waits pre = []
      /\ launched pre = launched evs
      /\ os_wait os (trace w0 ++ pre) (last (launched evs) 0%Z) = Exited rc
      /\ waits evs = [EWait (last (launched evs) 0%Z) (Exited rc)]
      /\ killed evs = []
      /\ _jobs (table w1) = _jobs (table w0)
      /\ forall os',
           os_open os' = os_open os ->
           os_popen os' = os_popen os ->
           (forall tr, os_wait os' tr (last (launched evs) 0%Z)
                       = os_wait os tr (last (launched evs) 0%Z)) ->
           fst (run_pipeline os' cmds w0) = (false, Some rc).
Proof.
  intros os cmds w0 res w1 evs0 Hfailed Hlaunched Hfg Hnoint.
  destruct (run_pipeline_spec os cmds w0) as [Hrun _].
  fold res w1 in Hrun. subst evs0. clearbody res w1.
  destruct Hrun as [pre msgs idx' args' i' o' r fds w1 Hq Hrep Hadd Hj Hn
                   |evs fds w1 Hq Hl Hadd Hj Hn
                   |evs msgs fds w1 Hq Hl Hbg Hadd Hsaid Hj Hn
                   |evs fds rc w1 f Hst Htr Hp Hq Hl Hbg Hwait Hadd Hj Hn
                   |evs fds w1 Hq Hl Hbg Hwait Hadd Hj Hn];
    rewrite Hadd in *;
    destruct (closes_summary fds) as (Hc1 & Hc2 & Hc3 & Hc4 & _ & Hc6).
  - exfalso. rewrite failed_app in Hfailed.
    apply app_eq_nil in Hfailed as [_ Hfailed].
    destruct r; [destruct Hrep|discriminate..].
  - exfalso. apply Hlaunched. rewrite launched_app, Hl, Hc1. reflexivity.
  - congruence.
  - exists rc, evs, fds. destruct Hq as (Hf & Hk & Hw).
    assert (Hsame : launched (evs ++ EWait (last (launched evs) 0%Z) (Exited rc)
                                  :: map ECloseFile fds) = launched evs).
    { change (EWait (last (launched evs) 0%Z) (Exited rc) :: map ECloseFile fds)
        with ([EWait (last (launched evs) 0%Z) (Exited rc)] ++ map ECloseFile fds).
      rewrite !launched_app, Hc1. cbn. now rewrite !app_nil_r. }
    rewrite Hsame.
    split; [reflexivity|]. split; [reflexivity|]. split; [exact Hw|].
    split; [reflexivity|]. split; [exact Hwait|].
    change (EWait (last (launched evs) 0%Z) (Exited rc) :: map ECloseFile fds)
      with ([EWait (last (launched evs) 0%Z) (Exited rc)] ++ map ECloseFile fds).
    rewrite !waits_app, !killed_app, Hw, Hk, Hc3, Hc4.
    split; [reflexivity|]. split; [reflexivity|].
    split; [exact Hj|].
    intros os' Ho Hpo Hw'.
    unfold run_pipeline. rewrite (stages_ext os os' cmds Ho Hpo), Hst.
    unfold complete.
    destruct (procs f) as [|p0 ps] eqn:Hprocs.
    { exfalso. apply Hl. rewrite <- Hp. reflexivity. }
    rewrite Hbg.
    assert (Hlast : pid (last ps p0) = last (launched evs) 0%Z)
      by (rewrite <- Hp; symmetry; apply last_map_pid).
    rewrite Hlast, Hw', Htr, Hwait. reflexivity.
  - exfalso. apply (Hnoint (last (launched evs) 0%Z)).
    apply in_app_iff. right. now left.
Qed.

Lemma run_pipeline_foreground_wait_witness :
  let cmds := parse_tokens ["gen"; "|"; "sort"; "|"; "head"] in
  os_wait os_sample [] 101%Z = Exited 1
  /\ os_wait os_sample [] 103%Z = Exited 0
  /\ fst (run_pipeline os_sample cmds initial_world) = (false, Some 0%Z)
  /\ waits (added initial_world (snd (run_pipeline os_sample cmds initial_world)))
     = [EWait 103 (Exited 0)].
Proof.
  intros cmds. split; [reflexivity|]. split; [reflexivity|].
  destruct (run_pipeline_foreground_wait os_sample cmds initial_world)
    as (rc & pre & fds & Hres & _ & _ & _ & Hos & Hw & _).
  - reflexivity.
  - vm_compute. discriminate.
  - reflexivity.
  - intros p H. vm_compute in H.
    repeat (destruct H as [H|H]; [discriminate|]). destruct H.
  - assert (Hrc : rc = 0%Z).
    { vm_compute in Hres. now injection Hres as <-. }
    subst rc. split; [exact Hres|exact Hw].
Defined.

(** ** Built-in commands and the main loop *)

Import Shell.

Section ShellFacts.

Variable h : host.

Lemma tell_world (l : line) (s : shell) :
  sh_world (tell l s) = sh_world s /\ dirs (tell l s) = dirs s.
Proof. split; reflexivity. Qed.

(** [_builtin_jobs] only prints: one line per job, in the order of the
    table. *)
Lemma builtin_jobs_lines (s : shell) :
  sh_world (_builtin_jobs s) = sh_world s
  /\ dirs (_builtin_jobs s) = dirs s
  /\ console (_builtin_jobs s)
     = console s
       ++ match _jobs (table (sh_world s)) with
          | [] => [NoBackgroundJobs]
          | jobs => map (fun entry => JobLine (fst entry) (status (snd entry))
                                        (pids (snd entry)) (cmdline (snd entry)))
                        jobs
          end.
Proof.
  unfold _builtin_jobs.
  assert (Hfold : forall jobs s0,
             let s1 := fold_left
                         (fun s' entry =>
                            tell (JobLine (fst entry) (status (snd entry))
                                    (pids (snd entry)) (cmdline (snd entry))) s')
                         jobs s0 in
             sh_world s1 = sh_world s0 /\ dirs s1 = dirs s0
             /\ console s1
                = console s0
                  ++ map (fun entry => JobLine (fst entry) (status (snd entry))
                                         (pids (snd entry)) (cmdline (snd entry)))
                         jobs).
  { induction jobs as [|entry jobs IH]; intros s0; cbn [fold_left map].
    - now rewrite app_nil_r.
    - destruct (IH (tell (JobLine (fst entry) (status (snd entry))
                            (pids (snd entry)) (cmdline (snd entry))) s0))
        as (Hw & Hd & Hc).
      rewrite Hw, Hd, Hc. cbn [tell sh_world dirs console].
      now rewrite <- app_assoc. }
  destruct (_jobs (table (sh_world s))) as [|entry jobs] eqn:Hjobs.
  - repeat split.
  - apply (Hfold (entry :: jobs) s).
Qed.

Lemma untouched_refl (s : shell) : untouched s s.
Proof. repeat split. Qed.

Lemma untouched_tell (l : line) (s : shell) : untouched s (tell l s).
Proof. repeat split. Qed.

Lemma untouched_with_table (t : job_table) (s : shell) :
  map fst (_jobs t) = map fst (_jobs (table (sh_world s))) ->
  _next_job_id t = _next_job_id (table (sh_world s)) ->
  untouched s (with_table t s).
Proof. intros Hk Hn. repeat split; assumption. Qed.

Lemma owned_In (p : Z) (t : job_table) (jid : Z) (job : job) :
  dict_get jid (_jobs t) = Some job -> In p (pids job) -> owned p t = true.
Proof.
  intros Hget Hin. unfold owned. apply existsb_exists.
  exists (jid, job). split; [|now apply pid_in_In].
  clear Hin. induction (_jobs t) as [|[k v] d IH]; cbn [dict_get] in Hget;
    [discriminate|].
  destruct (Z.eqb_spec k jid) as [->|Hne].
  - injection Hget as ->. now left.
  - right. now apply IH.
Qed.

(** [fg]: every path that returns returns [True]; the executor is not
    called, no job is added or removed; the [os.waitpid] calls are made on
    processes of the job named, in the order of its [pids], and the
    function is left by [KeyboardInterrupt] exactly when the last of them
    was cut short. *)
Lemma fg_cmd_cases (cmd : command) (s : shell) :
  let o := _builtin_fg_cmd h cmd s in
  untouched s (left_by o)
  /\ exists made,
       waited s (left_by o) made
       /\ answered (fun more => os_waitpid h (fg_waits s ++ more)) made
       /\ (forall c, In c made -> owned (fst c) (table (sh_world s)) = true)
       /\ match o with
          | Returned handled _ => handled = true /\ uncut made = true
          | KeyboardInterrupt _ =>
              exists pre c, made = pre ++ [c] /\ uncut pre = true /\ cut c = true
          | _ => False
          end.
Proof.
  unfold _builtin_fg_cmd.
  assert (Htell : forall l,
            untouched s (left_by (Returned true (tell l s)))
            /\ exists made,
                 waited s (left_by (Returned true (tell l s))) made
                 /\ answered (fun more => os_waitpid h (fg_waits s ++ more)) made
                 /\ (forall c, In c made -> owned (fst c) (table (sh_world s)) = true)
                 /\ (true = true /\ uncut made = true)).
  { intros l. split; [apply untouched_tell|]. exists []. unfold waited.
    cbn [left_by tell fg_waits]. rewrite app_nil_r.
    repeat split; [|intros c []]. intros i c Hc. now destruct i. }
  destruct (argv cmd) as [|a0 [|a1 rest]]; try apply Htell.
  destruct (py_int h a1) as [jid|]; [|apply Htell]. clear Htell.
  set (wp := fun more => os_waitpid h (fg_waits s ++ more)).
  set (t := table (sh_world s)).
  destruct (fg_same wp jid t) as [Hk _].
  destruct (fg_keeps wp jid t) as (Hn & _).
  pose proof (builtin_fg_calls wp jid t) as (Hans & Hjob & Hend).
  assert (Hown : forall c, In c (fg_calls (_builtin_fg wp jid t)) ->
                           owned (fst c) t = true).
  { intros c Hc. destruct (Hjob c Hc) as (job & Hget & Hin).
    now apply (owned_In (fst c) t jid job). }
  destruct (fg_returned (_builtin_fg wp jid t)) eqn:Hret; cbn [left_by].
  - split; [repeat split; assumption|]. exists (fg_calls (_builtin_fg wp jid t)).
    repeat split; assumption.
  - split; [repeat split; assumption|]. exists (fg_calls (_builtin_fg wp jid t)).
    repeat split; assumption.
Qed.

(** What each way out of [execute_builtin] tells about the command. *)
Lemma execute_builtin_cases (cmd : command) (s : shell) :
  let name := hd EmptyString (argv cmd) in
  match execute_builtin h cmd s with
  | Returned false s' => s' = s /\ builtin_name name = false
  | Returned true s' =>
      builtin_name name = true /\ name <> "exit"%string /\ untouched s s'
  | Exited code s' =>
      name = "exit"%string /\ untouched s s'
      /\ (code = 0%Z
          \/ exists a, nth_error (argv cmd) 1 = Some a /\ py_int h a = Some code)
  | Raised e s' =>
      name = "pwd"%string /\ s' = s /\ os_getcwd h (dirs s) = GetcwdError e
  | KeyboardInterrupt s' =>
      name = "fg"%string /\ untouched s s'
      /\ exists pre c,
           waited s s' (pre ++ [c]) /\ uncut pre = true /\ cut c = true
  end.
Proof.
  unfold execute_builtin, _original_execute_builtin.
  destruct (argv cmd) as [|name args] eqn:Hargv; cbn [hd]; [now split|].
  destruct (name =? "jobs")%string eqn:E1.
  { apply String.eqb_eq in E1. subst name.
    destruct (builtin_jobs_lines s) as (Hw & _).
    repeat split; [discriminate|now rewrite Hw..]. }
  destruct (name =? "fg")%string eqn:E2.
  { apply String.eqb_eq in E2. subst name.
    pose proof (fg_cmd_cases cmd s) as (Hu & made & Hwaited & _ & _ & Hend).
    destruct (_builtin_fg_cmd h cmd s) as [handled s'|code s'|e s'|s'];
      cbn [left_by] in *; try contradiction.
    - destruct Hend as [-> _]. repeat split; [discriminate|apply Hu..].
    - destruct Hend as (pre & c & -> & Hpre & Hc).
      split; [reflexivity|]. split; [exact Hu|]. now exists pre, c. }
  destruct (name =? "cd")%string eqn:E3.
  { apply String.eqb_eq in E3. subst name.
    destruct args as [|target rest];
      [destruct (os_chdir h (dirs s) (home h))
      |destruct (os_chdir h (dirs s) target)];
      repeat split; discriminate. }
  destruct (name =? "pwd")%string eqn:E4.
  { apply String.eqb_eq in E4. subst name.
    destruct (os_getcwd h (dirs s)); repeat split; discriminate. }
  destruct (name =? "exit")%string eqn:E5.
  { apply String.eqb_eq in E5. subst name.
    destruct args as [|a rest]; [repeat split; now left|].
    destruct (py_int h a) as [code|] eqn:Hint; repeat split; try (now left).
    right. exists a. now split. }
  destruct (name =? "help")%string eqn:E6.
  { apply String.eqb_eq in E6. subst name. repeat split; discriminate. }
  split; [reflexivity|]. unfold builtin_name.
  now rewrite E1, E2, E3, E4, E5, E6.
Qed.

(** Only [fg] calls [os.waitpid], and only on processes of a job of the
    table. *)
Lemma execute_builtin_waits (cmd : command) (s : shell) :
  exists made,
    waited s (left_by (execute_builtin h cmd s)) made
    /\ answered (fun more => os_waitpid h (fg_waits s ++ more)) made
    /\ forall c, In c made ->
                 hd EmptyString (argv cmd) = "fg"%string
                 /\ owned (fst c) (table (sh_world s)) = true.
Proof.
  assert (Hnone : forall s', fg_waits s' = fg_waits s ->
            exists made,
              waited s s' made
              /\ answered (fun more => os_waitpid h (fg_waits s ++ more)) made
              /\ forall c, In c made ->
                           hd EmptyString (argv cmd) = "fg"%string
                           /\ owned (fst c) (table (sh_world s)) = true).
  { intros s' Hs'. exists []. unfold waited. rewrite app_nil_r.
    split; [assumption|]. split; [|intros c0 []]. intros i c0 Hc. now destruct i. }
  unfold execute_builtin, _original_execute_builtin.
  destruct (argv cmd) as [|name args] eqn:Hargv; cbn [hd left_by];
    [now apply Hnone|].
  destruct (name =? "jobs")%string eqn:E1.
  { cbn [left_by]. apply Hnone. unfold _builtin_jobs.
    assert (Hfold : forall jobs s0,
               fg_waits (fold_left
                           (fun s' entry =>
                              tell (JobLine (fst entry) (status (snd entry))
                                      (pids (snd entry)) (cmdline (snd entry))) s')
                           jobs s0) = fg_waits s0).
    { induction jobs as [|entry jobs IH]; intros s0; cbn [fold_left];
        [reflexivity|]. now rewrite IH. }
    destruct (_jobs (table (sh_world s))); [reflexivity|apply Hfold]. }
  destruct (name =? "fg")%string eqn:E2.
  { apply String.eqb_eq in E2. subst name.
    pose proof (fg_cmd_cases cmd s) as (_ & made & Hwaited & Hans & Hown & _).
    exists made. repeat split; auto. }
  destruct (name =? "cd")%string.
  { destruct args as [|target rest];
      [destruct (os_chdir h (dirs s) (home h))
      |destruct (os_chdir h (dirs s) target)]; now apply Hnone. }
  destruct (name =? "pwd")%string.
  { destruct (os_getcwd h (dirs s)); now apply Hnone. }
  destruct (name =? "exit")%string.
  { destruct args as [|a rest]; [now apply Hnone|].
    destruct (py_int h a); now apply Hnone. }
  destruct (name =? "help")%string; now apply Hnone.
Qed.

Lemma lstrip_blank (s : string) :
  all_chars isspace s = true -> lstrip s = EmptyString.
Proof.
  induction s as [|c r IH]; cbn [all_chars lstrip]; [reflexivity|].
  intros H. apply andb_true_iff in H as [Hc Hr]. now rewrite Hc, IH.
Qed.

(** [rstrip] removes a run of whitespace from the end, and [lstrip] from
    the start. *)
Lemma rstrip_split (s : string) :
  exists post,
    all_chars isspace post = true /\ s = String.append (rstrip s) post.
Proof.
  induction s as [|c r (post & Hpost & Hr)]; [now exists EmptyString|].
  cbn [rstrip]. destruct (rstrip r) as [|c' r'] eqn:Hrs.
  - cbn [String.append] in Hr. subst r. destruct (isspace c) eqn:Hc.
    + exists (String c post). cbn [all_chars String.append]. now rewrite Hc, Hpost.
    + exists post. now split.
  - exists post. split; [assumption|]. rewrite Hr at 1. reflexivity.
Qed.

Lemma lstrip_suffix (ok : ascii -> bool) (s : string) :
  all_chars ok s = true -> all_chars ok (lstrip s) = true.
Proof.
  induction s as [|c r IH]; cbn [all_chars lstrip]; [reflexivity|].
  intros H. destruct (isspace c); [|exact H].
  apply andb_true_iff in H as [_ Hr]. now apply IH.
Qed.

Lemma tokenize_lstrip (s : string) (tokens : list string) :
  tokenize_from (lstrip s) tokens = tokenize_from s tokens.
Proof.
  induction s as [|c r IH]; cbn [lstrip]; [reflexivity|].
  destruct (isspace c) eqn:Hc; [|reflexivity].
  now rewrite (tokenize_from_cons c r), Hc.
Qed.

Lemma dict_get_absent {V} (k : Z) (d : list (Z * V)) :
  ~ In k (map fst d) -> dict_get k d = None.
Proof.
  induction d as [|[k' v] d IH]; cbn [map fst In dict_get]; [reflexivity|].
  intros H. destruct (Z.eqb_spec k' k) as [->|Hne]; [exfalso; auto|].
  apply IH. auto.
Qed.

Lemma dense_same (t t' : job_table) :
  map fst (_jobs t') = map fst (_jobs t) ->
  _next_job_id t' = _next_job_id t ->
  dense t -> dense t'.
Proof.
  intros Hk Hn [Hd1 Hd2].
  assert (Hlen : length (_jobs t') = length (_jobs t))
    by (rewrite <- (length_map fst (_jobs t')), Hk; apply length_map).
  split; [now rewrite Hk, Hlen|now rewrite Hn, Hlen].
Qed.

Lemma dense_register (t : job_table) (job : job) :
  dense t ->
  dense {| _jobs := dict_set (_next_job_id t) job (_jobs t);
           _next_job_id := (_next_job_id t + 1)%Z;
           printed := printed t |}.
Proof.
  intros [Hd1 Hd2].
  assert (Hnone : dict_get (_next_job_id t) (_jobs t) = None).
  { apply dict_get_absent. rewrite Hd1, Hd2. intros H.
    apply in_map_iff in H as (i & Hi & Hin). apply in_seq in Hin. lia. }
  unfold dense. cbn [_jobs _next_job_id].
  rewrite dict_set_fresh by assumption.
  rewrite map_app, length_app. cbn [map fst length].
  rewrite Nat.add_1_r, seq_S, map_app. cbn [map plus].
  split; [now rewrite Hd1, Hd2|lia].
Qed.

Lemma untouched_dense (s s' : shell) :
  untouched s s' -> dense (table (sh_world s)) -> dense (table (sh_world s')).
Proof. intros (_ & Hk & Hn). now apply dense_same. Qed.

Lemma run_pipeline_dense (cmds : list command) (w0 : world) :
  dense (table w0) -> dense (table (snd (run_pipeline (host_os h) cmds w0))).
Proof.
  intros Hd. destruct (run_pipeline_spec (host_os h) cmds w0) as [Hrun _].
  destruct Hrun as [pre msgs idx' args' i' o' r fds w1 Hq Hrep Hadd Hj Hn
                   |evs fds w1 Hq Hl Hadd Hj Hn
                   |evs msgs fds w1 Hq Hl Hbg Hadd Hsaid Hj Hn
                   |evs fds rc w1 f Hst Htr Hp Hq Hl Hbg Hwait Hadd Hj Hn
                   |evs fds w1 Hq Hl Hbg Hwait Hadd Hj Hn];
    try (apply (dense_same (table w0)); [now rewrite Hj|assumption|assumption]).
  pose proof (dense_register (table w0)
                (mkJob (launched evs) (String.concat " " (concat (map argv cmds)))
                   Running) Hd) as Hreg.
  destruct Hreg as [H1 H2]. cbn [_jobs _next_job_id] in H1, H2.
  split; [now rewrite Hj|now rewrite Hj, Hn].
Qed.

Lemma main_step_dense (user_input : string) (s : shell) :
  dense (table (sh_world s)) ->
  dense (table (sh_world (final (main_step h user_input s)))).
Proof.
  intros Hd. unfold main_step.
  destruct (strip user_input) as [|c r]; [exact Hd|].
  destruct (parse_line (String c r)) as [|first others]; [exact Hd|].
  pose proof (execute_builtin_cases first s) as Hcases.
  destruct (execute_builtin h first s) as [[|] s'|code s'|e s'|s'].
  - destruct Hcases as (_ & _ & Hu). cbn [final]. now apply (untouched_dense s).
  - destruct Hcases as [-> _].
    pose proof (run_pipeline_dense (first :: others) (sh_world s) Hd) as Hrun.
    destruct (run_pipeline (host_os h) (first :: others) (sh_world s)).
    exact Hrun.
  - destruct Hcases as (_ & Hu & _). cbn [final]. now apply (untouched_dense s).
  - destruct Hcases as (_ & -> & _). exact Hd.
  - destruct Hcases as (_ & Hu & _). cbn [final]. now apply (untouched_dense s).
Qed.

End ShellFacts.

(** [X23] A line whose first command is a built-in never reaches
    [run_pipeline], whatever follows it on the line, pipes and further
    stages included: the executor makes no call ([open], [Popen],
    [Popen.wait], [kill]), and the keys of the job table and the identifier
    counter stay as they are.  The only calls made to the operating system
    about processes are the [os.waitpid] calls of [fg], each on a process
    of a job of the table. *)
Theorem main_step_builtin_first :
  forall (h : host) (user_input : string) (s : shell)
         (first : command) (others : list command),
    parse_line (strip user_input) = first :: others ->
    builtin_name (hd EmptyString (argv first)) = true ->
    let s' := final (main_step h user_input s) in
    untouched s s'
    /\ exists made,
         waited s s' made
         /\ answered (fun more => os_waitpid h (fg_waits s ++ more)) made
         /\ forall c, In c made ->
                      hd EmptyString (argv first) = "fg"%string
                      /\ owned (fst c) (table (sh_world s)) = true.
Proof.
  intros h user_input s first others Hparse Hname. unfold main_step.
  destruct (strip user_input) as [|c r]; [discriminate|]. rewrite Hparse.
  pose proof (execute_builtin_cases h first s) as Hcases.
  pose proof (execute_builtin_waits h first s) as Hwaits.
  destruct (execute_builtin h first s) as [[|] s'|code s'|e s'|s'];
    cbn [final left_by] in *.
  - split; [apply Hcases|exact Hwaits].
  - destruct Hcases as [_ Hfalse]. congruence.
  - split; [apply Hcases|exact Hwaits].
  - destruct Hcases as (_ & -> & _). split; [apply untouched_tell|exact Hwaits].
  - split; [apply Hcases|exact Hwaits].
Qed.

Lemma main_step_builtin_first_witness :
  let s := final (main sample_host [Line "sleep 5 &"] initial_shell) in
  let s' := final (main_step sample_host "fg 1 | wc > n.txt" s) in
  untouched s s'
  /\ exists made,
       waited s s' made
       /\ answered (fun more => os_waitpid sample_host (fg_waits s ++ more)) made
       /\ forall c, In c made -> "fg"%string = "fg"%string
                                 /\ owned (fst c) (table (sh_world s)) = true.
Proof.
  apply (main_step_builtin_first sample_host "fg 1 | wc > n.txt"
           (final (main sample_host [Line "sleep 5 &"] initial_shell))
           {| argv := ["fg"; "1"]; in_ := None; out := None; append := false;
              bg := false |}
           [ {| argv := ["wc"]; in_ := None; out := Some "n.txt"%string;
                append := false; bg := false |} ]);
    reflexivity.
Defined.

(** On that line [fg] waits for the process 101 of job 1 and sets the job
    to [done]; nothing is launched for [wc]. *)
Example main_step_fg_waits :
  let s := final (main sample_host [Line "sleep 5 &"] initial_shell) in
  let s' := final (main_step sample_host "fg 1 | wc > n.txt" s) in
  map fst (fg_waits s') = [101%Z]
  /\ status_of 1 (table (sh_world s)) = Some Running
  /\ status_of 1 (table (sh_world s')) = Some Done
  /\ trace (sh_world s') = trace (sh_world s).
Proof. repeat split. Qed.

(** [X24] An input that is empty or made of whitespace, and more generally
    one whose line parses to no command (a lone redirection operator, for
    instance), leaves the shell exactly as it was. *)
Theorem main_step_nothing_to_do :
  forall (h : host) (user_input : string) (s : shell),
    all_chars isspace user_input = true \/ parse_line (strip user_input) = [] ->
    main_step h user_input s = Next s.
Proof.
  intros h user_input s [Hblank|Hparse]; unfold main_step.
  - unfold strip. now rewrite lstrip_blank.
  - destruct (strip user_input); [reflexivity|]. now rewrite Hparse.
Qed.

Lemma main_step_nothing_to_do_witness :
  main_step sample_host "  >>  " initial_shell = Next initial_shell.
Proof.
  apply (main_step_nothing_to_do sample_host "  >>  " initial_shell).
  right. reflexivity.
Defined.

(** [X25] [execute_builtin] handles exactly the six names [jobs], [fg],
    [cd], [pwd], [exit] and [help] in first position: for any other command,
    or an empty [argv], it returns [False] and changes nothing; [exit] never
    returns and leaves with code 0 or with the integer its first argument
    converts to.  Two calls of the built-ins are not guarded against what
    they raise: an exception of [os.getcwd] leaves [pwd], with nothing
    changed, and a [KeyboardInterrupt] that cuts an [os.waitpid] short
    leaves [fg], which then does not return.  No built-in calls the
    executor or adds or removes a job. *)
Theorem execute_builtin_dispatch :
  forall (h : host) (cmd : command) (s : shell),
    let name := hd EmptyString (argv cmd) in
    match execute_builtin h cmd s with
    | Returned false s' => s' = s /\ builtin_name name = false
    | Returned true s' =>
        builtin_name name = true /\ name <> "exit"%string /\ untouched s s'
    | Exited code s' =>
        name = "exit"%string /\ untouched s s'
        /\ (code = 0%Z
            \/ exists a, nth_error (argv cmd) 1 = Some a /\ py_int h a = Some code)
    | Raised e s' =>
        name = "pwd"%string /\ s' = s /\ os_getcwd h (dirs s) = GetcwdError e
    | KeyboardInterrupt s' =>
        name = "fg"%string /\ untouched s s'
        /\ exists pre c,
             waited s s' (pre ++ [c]) /\ uncut pre = true /\ cut c = true
    end.
Proof. intros h cmd s. apply execute_builtin_cases. Qed.

(** [X26] Over a whole session, whatever lines are typed and whatever
    child notifications, interrupts and ends of input occur, the keys of the
    job table are 1, 2, ..., n in insertion order and the identifier counter
    is n + 1. *)
Theorem session_job_ids_dense :
  forall (h : host) (todo : list happening),
    dense (table (sh_world (final (main h todo initial_shell)))).
Proof.
  intros h todo.
  assert (Hgen : forall s, dense (table (sh_world s)) ->
                           dense (table (sh_world (final (main h todo s))))).
  { induction todo as [|ev todo IH]; intros s Hd; [exact Hd|].
    destruct ev as [user_input| | |reaped]; cbn [main].
    - pose proof (main_step_dense h user_input s Hd) as Hstep.
      destruct (main_step h user_input s) as [s'|code s'|s']; cbn [final] in *.
      + now apply IH.
      + exact Hstep.
      + exact Hstep.
    - exact Hd.
    - apply IH. exact Hd.
    - apply IH. cbn [with_table sh_world table].
      destruct (sigchld_same reaped (table (sh_world s))) as [Hk _].
      destruct (sigchld_keeps reaped (table (sh_world s))) as (Hn & _).
      now apply (dense_same (table (sh_world s))). }
  apply Hgen. split; reflexivity.
Qed.

(** [X27] [jobs] only prints: [No background jobs] when the table is empty,
    otherwise one line per job in insertion order, with the identifier,
    status, process set and command line of the job. *)
Theorem builtin_jobs_listing :
  forall s : shell,
    sh_world (_builtin_jobs s) = sh_world s
    /\ dirs (_builtin_jobs s) = dirs s
    /\ console (_builtin_jobs s)
       = console s
         ++ match _jobs (table (sh_world s)) with
            | [] => [NoBackgroundJobs]
            | jobs => map (fun entry => JobLine (fst entry) (status (snd entry))
                                          (pids (snd entry)) (cmdline (snd entry)))
                          jobs
            end.
Proof. intros s. apply builtin_jobs_lines. Qed.

(** [X28] On a line without quote characters the stripping done by the
    main loop is immaterial: the stripped line has the same tokens, hence
    the same pipeline, as the line typed.  Leading whitespace never
    matters. *)
Theorem strip_keeps_tokens :
  forall user_input : string,
    tokenize (lstrip user_input) = tokenize user_input
    /\ (quote_free user_input = true ->
        tokenize (strip user_input) = tokenize user_input
        /\ parse_line (strip user_input) = parse_line user_input).
Proof.
  intros user_input. split; [apply tokenize_lstrip|]. intros Hqf.
  assert (Htok : tokenize (strip user_input) = tokenize user_input).
  { unfold strip. rewrite <- (tokenize_lstrip user_input [] : tokenize _ = tokenize _).
    pose proof (lstrip_suffix _ user_input Hqf) as Hqf'.
    fold (quote_free (lstrip user_input)) in Hqf'.
    destruct (rstrip_split (lstrip user_input)) as (post & Hpost & Hsplit).
    assert (Hqr : quote_free (rstrip (lstrip user_input)) = true).
    { unfold quote_free in *. rewrite Hsplit, all_chars_append in Hqf'.
      now apply andb_true_iff in Hqf' as [H _]. }
    rewrite Hsplit at 2. destruct post as [|sp b].
    - assert (Happ : forall a, String.append a EmptyString = a)
        by (induction a as [|c a IH]; [reflexivity|cbn; now rewrite IH]).
      now rewrite Happ.
    - cbn [all_chars] in Hpost. apply andb_true_iff in Hpost as [Hsp Hb].
      unfold tokenize.
      rewrite (tokenize_from_append sp b (String.length (rstrip (lstrip user_input)))
                 Hsp _ [] (le_n _) Hqr).
      assert (Hnil : forall tokens, tokenize_from b tokens = tokens).
      { clear - Hb. induction b as [|c r IH]; intros tokens; [reflexivity|].
        cbn [all_chars] in Hb. apply andb_true_iff in Hb as [Hc Hr].
        rewrite tokenize_from_cons, Hc. now apply IH. }
      now rewrite Hnil. }
  split; [exact Htok|]. unfold parse_line. now rewrite Htok.
Qed.

Lemma strip_keeps_tokens_witness :
  parse_line (strip "  ls -l | wc  ") = parse_line "  ls -l | wc  ".
Proof.
  destruct (strip_keeps_tokens "  ls -l | wc  ") as [_ H].
  destruct (H eq_refl) as [_ Hparse]. exact Hparse.
Defined.
